(** * Horizon iterative LQR: a shallow embedding of the solver core

    The development follows three translation units of the repository:
    - the line-search forward pass ([forward_pass], [line_search],
      [should_stop], the merit function),
    - the KKT backward pass ([backward_pass], [backward_pass_iter],
      [handle_constraints], the regularisation controller),
    - the earlier single-file solver ([Legacy]: constructor, default cost,
      forward pass, fixed-capacity constraint-to-go).

    Numbers.  A C++ [double] that the solver stores is a rational ([Q]): the
    arithmetic is exact, without rounding.  The places where the program
    itself inspects IEEE special values (the result of a linear solve, a
    division) use [dbl], the rationals extended with the two infinities and
    NaN.  Zero carries no sign.

    Matrices.  An Eigen dense matrix is a pair of dimensions and a total
    coefficient function; a vector is a one-column matrix.  Reading outside
    the dimensions is undefined in Eigen (an assertion in debug builds); an
    operation on operands of mismatched dimensions takes its dimensions
    from the left operand.  An assignment [M = expr] whose right-hand side
    does not read [M] across the diagonal is read with value semantics;
    the one assignment that does, [S = 0.5*(S + S.transpose())], is
    evaluated as Eigen evaluates a coefficient-wise expression: in place,
    without a temporary, column by column.

    Arrays.  A [std::vector] indexed by the stage is a list; reading past
    its end (undefined in C++) yields a default element and writing past
    its end changes nothing.

    Externals.  Eigen's factorisations and norm are parameters; so is the
    macro [THROW_NAN], whose header is not among the sources.  The members
    of the absent header that the sources call are modelled from the
    specification and marked so. *)

From Stdlib Require Import QArith Qabs Qminmax Qpower Lqa Lia.
From stdpp Require Import base list.

Local Open Scope Q_scope.

(* ================================================================== *)
(** ** Scalars *)

Definition Qltb (x y : Q) : bool := negb (Qle_bool y x).

Inductive dbl : Type :=
  | Fin (q : Q)
  | PInf
  | NInf
  | NaN.

Definition isfinite (a : dbl) : bool :=
  match a with Fin _ => true | _ => false end.

Definition isnan (a : dbl) : bool :=
  match a with NaN => true | _ => false end.

(** IEEE [<] : false as soon as one side is NaN. *)
Definition dlt (a b : dbl) : bool :=
  match a, b with
  | NaN, _ | _, NaN => false
  | Fin x, Fin y => Qltb x y
  | NInf, NInf => false
  | NInf, _ => true
  | _, NInf => false
  | PInf, _ => false
  | Fin _, PInf => true
  end.

Definition dgt (a b : dbl) : bool := dlt b a.

Definition dneg (a : dbl) : dbl :=
  match a with
  | Fin x => Fin (- x)
  | PInf => NInf
  | NInf => PInf
  | NaN => NaN
  end.

Definition dabs (a : dbl) : dbl :=
  match a with
  | Fin x => Fin (Qabs x)
  | PInf | NInf => PInf
  | NaN => NaN
  end.

Definition dadd (a b : dbl) : dbl :=
  match a, b with
  | NaN, _ | _, NaN => NaN
  | Fin x, Fin y => Fin (x + y)
  | PInf, NInf | NInf, PInf => NaN
  | PInf, _ | _, PInf => PInf
  | NInf, _ | _, NInf => NInf
  end.

Definition dsign_inf (positive : bool) : dbl := if positive then PInf else NInf.

Definition dmul (a b : dbl) : dbl :=
  match a, b with
  | NaN, _ | _, NaN => NaN
  | Fin x, Fin y => Fin (x * y)
  | Fin x, PInf | PInf, Fin x =>
      if Qeq_bool x 0 then NaN else dsign_inf (Qltb 0 x)
  | Fin x, NInf | NInf, Fin x =>
      if Qeq_bool x 0 then NaN else dsign_inf (Qltb x 0)
  | PInf, PInf | NInf, NInf => PInf
  | PInf, NInf | NInf, PInf => NInf
  end.

(** Division of two finite doubles, as the FPU returns it. *)
Definition ddiv (x y : Q) : dbl :=
  if Qeq_bool y 0 then
    if Qltb 0 x then PInf else if Qltb x 0 then NInf else NaN
  else Fin (x / y).

Fixpoint Qsum (n : nat) (f : nat -> Q) : Q :=
  match n with
  | O => 0
  | S k => Qsum k f + f k
  end.

Fixpoint dsum (n : nat) (f : nat -> dbl) : dbl :=
  match n with
  | O => Fin 0
  | S k => dadd (dsum k f) (f k)
  end.

Fixpoint Qmaxn (n : nat) (f : nat -> Q) : Q :=
  match n with
  | O => 0
  | S O => f O
  | S k => Qmax (Qmaxn k f) (f k)
  end.

Fixpoint forallb_lt (n : nat) (p : nat -> bool) : bool :=
  match n with
  | O => true
  | S k => forallb_lt k p && p k
  end.

(* ================================================================== *)
(** ** Dense matrices *)

Record Mat : Type := mk_mat { rows : nat; cols : nat; coef : nat -> nat -> Q }.

(** Matrices whose coefficients may be non-finite (results of a solve). *)
Record DMat : Type := mk_dmat { drows : nat; dcols : nat; dcoef : nat -> nat -> dbl }.

Definition mat_eq (A B : Mat) : Prop :=
  rows A = rows B /\ cols A = cols B /\
  forall i j, (i < rows A)%nat -> (j < cols A)%nat -> coef A i j == coef B i j.

Definition setZero (r c : nat) : Mat := mk_mat r c (fun _ _ => 0).

Definition madd (A B : Mat) : Mat :=
  mk_mat (rows A) (cols A) (fun i j => coef A i j + coef B i j).

Definition msub (A B : Mat) : Mat :=
  mk_mat (rows A) (cols A) (fun i j => coef A i j - coef B i j).

Definition mneg (A : Mat) : Mat :=
  mk_mat (rows A) (cols A) (fun i j => - coef A i j).

Definition mscale (a : Q) (A : Mat) : Mat :=
  mk_mat (rows A) (cols A) (fun i j => a * coef A i j).

Definition mmul (A B : Mat) : Mat :=
  mk_mat (rows A) (cols B)
         (fun i j => Qsum (cols A) (fun k => coef A i k * coef B k j)).

Definition transpose (A : Mat) : Mat :=
  mk_mat (cols A) (rows A) (fun i j => coef A j i).

(** [M.diagonal().array() += a] *)
Definition add_diagonal (a : Q) (A : Mat) : Mat :=
  mk_mat (rows A) (cols A)
         (fun i j => if Nat.eqb i j then coef A i j + a else coef A i j).

Definition col (A : Mat) (j : nat) : Mat :=
  mk_mat (rows A) 1 (fun i _ => coef A i j).

Definition row (A : Mat) (i : nat) : Mat :=
  mk_mat 1 (cols A) (fun _ j => coef A i j).

(** [M.col(j) = v] *)
Definition set_col (A : Mat) (j : nat) (v : Mat) : Mat :=
  mk_mat (rows A) (cols A)
         (fun i k => if Nat.eqb k j then coef v i O else coef A i k).

Definition leftCols (A : Mat) (k : nat) : Mat :=
  mk_mat (rows A) k (coef A).

Definition rightCols (A : Mat) (k : nat) : Mat :=
  mk_mat (rows A) k (fun i j => coef A i (cols A - k + j)%nat).

Definition topRows (A : Mat) (k : nat) : Mat :=
  mk_mat k (cols A) (coef A).

Definition bottomRows (A : Mat) (k : nat) : Mat :=
  mk_mat k (cols A) (fun i j => coef A (rows A - k + i)%nat j).

Definition head (v : Mat) (k : nat) : Mat := mk_mat k 1 (coef v).

Definition tail (v : Mat) (k : nat) : Mat :=
  mk_mat k 1 (fun i j => coef v (rows v - k + i)%nat j).

Definition topLeftCorner (A : Mat) (r c : nat) : Mat := mk_mat r c (coef A).

(** Vertical and horizontal stacking (Eigen's comma initialiser). *)
Definition vstack (A B : Mat) : Mat :=
  mk_mat (rows A + rows B) (cols A)
         (fun i j => if (i <? rows A)%nat then coef A i j
                     else coef B (i - rows A)%nat j).

Definition hstack (A B : Mat) : Mat :=
  mk_mat (rows A) (cols A + cols B)
         (fun i j => if (j <? cols A)%nat then coef A i j
                     else coef B i (j - cols A)%nat).

(** [a.dot(b)] for two column vectors *)
Definition dot (a b : Mat) : Q :=
  Qsum (rows a) (fun k => coef a k O * coef b k O).

(** [M.cwiseAbs().sum()] *)
Definition cwiseAbs_sum (A : Mat) : Q :=
  Qsum (rows A) (fun i => Qsum (cols A) (fun j => Qabs (coef A i j))).

(** [M.cwiseAbs().maxCoeff()], also [lpNorm<Infinity>] of a vector or row *)
Definition cwiseAbs_maxCoeff (A : Mat) : Q :=
  Qmaxn (rows A) (fun i => Qmaxn (cols A) (fun j => Qabs (coef A i j))).

(** [casadi::SX::sumsqr] of a column vector *)
Definition sumsqr (v : Mat) : Q :=
  Qsum (rows v) (fun k => coef v k O * coef v k O).

(** [RowVectorXd::Unit(n, i)] *)
Definition Unit (n i : nat) : list Q :=
  map (fun j => if Nat.eqb j i then 1 else 0) (seq 0 n).

(** Literal matrices, used for concrete inputs. *)
Definition of_rows (c : nat) (l : list (list Q)) : Mat :=
  mk_mat (length l) c (fun i j => nth j (nth i l []) 0).

Definition col_vec (l : list Q) : Mat :=
  mk_mat (length l) 1 (fun i _ => nth i l 0).

Definition get_row (A : Mat) (i : nat) : list Q :=
  map (fun j => coef A i j) (seq 0 (cols A)).

Definition to_list (v : Mat) : list Q :=
  map (fun i => coef v i O) (seq 0 (rows v)).

Definition fin_mat (A : Mat) : DMat :=
  mk_dmat (rows A) (cols A) (fun i j => Fin (coef A i j)).

Definition allFinite (A : DMat) : bool :=
  forallb_lt (drows A) (fun i => forallb_lt (dcols A) (fun j => isfinite (dcoef A i j))).

Definition hasNaN (A : DMat) : bool :=
  negb (forallb_lt (drows A)
          (fun i => forallb_lt (dcols A) (fun j => negb (isnan (dcoef A i j))))).

Definition dfinite_part (a : dbl) : Q :=
  match a with Fin q => q | _ => 0 end.

(** The rational matrix behind a matrix already known to be all finite. *)
Definition finite_part (A : DMat) : Mat :=
  mk_mat (drows A) (dcols A) (fun i j => dfinite_part (dcoef A i j)).

Definition dhead (v : DMat) (k : nat) : DMat := mk_dmat k 1 (dcoef v).

Definition dtail (v : DMat) (k : nat) : DMat :=
  mk_dmat k 1 (fun i j => dcoef v (drows v - k + i)%nat j).

(** [C * x + h] for a rational matrix and a possibly non-finite vector *)
Definition dresidual (C : Mat) (x : DMat) (h : Mat) : DMat :=
  mk_dmat (rows C) 1
          (fun i _ => dadd (dsum (cols C) (fun k => dmul (Fin (coef C i k)) (dcoef x k O)))
                           (Fin (coef h i O))).

(** [lpNorm<1>] and [lpNorm<Infinity>] of a possibly non-finite vector:
    only their comparison against a threshold is observed. *)
Definition dlp1 (v : DMat) : dbl :=
  dsum (drows v) (fun i => dabs (dcoef v i O)).

(* ================================================================== *)
(** ** Data model of the solver *)

(** The enumeration behind [_kkt_decomp_type] and [_constr_decomp_type];
    both switches of the backward pass name [Qr], so it is one type. *)
Inductive DecompositionType : Type := Ldlt | Qr | Lu | Cod | Svd.

Inductive Exn : Type :=
  | HessianIndefinite   (* struct HessianIndefinite : std::runtime_error *)
  | NanDetected         (* what the macro THROW_NAN throws; its header comes
                           before the declaration of HessianIndefinite *)
  | InvalidArgument.    (* std::invalid_argument *)

(** A casadi function together with the outputs cached by the last
    [linearize] / [quadratize] call. *)
Record Dynamics : Type := mk_Dynamics {
  dyn_f : Mat -> Mat -> Mat;
  dyn_A : Mat;
  dyn_B : Mat;
  dyn_d : Mat
}.

Record IntermediateCost : Type := mk_IntermediateCost {
  cost_l : Mat -> Mat -> Q;
  cost_Q : Mat;
  cost_R : Mat;
  cost_P : Mat;
  cost_q : Mat;
  cost_r : Mat
}.

Record Constraint : Type := mk_Constraint {
  con_is_valid : bool;
  con_f : Mat -> Mat -> Mat;
  con_C : Mat;
  con_D : Mat;
  con_h : Mat
}.

Record ValueFunction : Type := mk_ValueFunction { val_S : Mat; val_s : Mat }.

Record BackwardPassResult : Type := mk_BackwardPassResult {
  bp_Lu : Mat;
  bp_lu : Mat;
  bp_lz : Mat;
  bp_glam : Mat;
  bp_Gu : Mat;
  bp_nc : nat;
  bp_dx : DMat;
  bp_dx_lam : DMat
}.

(** Members of [Temporaries] that outlive the call writing them; the other
    scratch matrices are bound locally in the functions below. *)
Record Temporaries : Type := mk_Temporaries {
  tmp_dx : Mat;
  tmp_hu : Mat;
  tmp_defect : Mat
}.

Record ForwardPassResult : Type := mk_ForwardPassResult {
  fp_xtrj : Mat;
  fp_utrj : Mat;
  accepted : bool;
  alpha : Q;
  step_length : Q;
  cost : Q;
  constraint_violation : Q;
  defect_norm : Q;
  merit : Q;
  merit_der : Q;
  mu_f : Q;
  mu_c : Q
}.

(** One row [C_j * dx + D_j * du + h_j = 0] of the constraint-to-go. *)
Record CtgRow : Type := mk_CtgRow { row_C : list Q; row_D : list Q; row_h : Q }.

(** Events written to standard output unconditionally. *)
Inductive Msg : Type :=
  | WarnLinearlyDependent (j : nat)
  | WarnNotSatisfied (n : nat).

Record IterativeLQR : Type := mk_IterativeLQR {
  _nx : nat;
  _nu : nat;
  _N : nat;
  _cost : list IntermediateCost;
  _constraint : list Constraint;
  _value : list ValueFunction;
  _dyn : list Dynamics;
  _bp_res : list BackwardPassResult;
  _constraint_to_go : list CtgRow;
  _fp_res : ForwardPassResult;
  _xtrj : Mat;
  _utrj : Mat;
  _tmp : list Temporaries;
  _lam_x : Mat;
  _lam_g : list Mat;
  _x_lb : Mat;
  _x_ub : Mat;
  _u_lb : Mat;
  _u_ub : Mat;
  _hxx_reg : Q;
  _huu_reg : Q;
  _kkt_reg : Q;
  _hxx_reg_base : Q;
  _hxx_reg_growth_factor : Q;
  _svd_threshold : Q;
  _constraint_violation_threshold : Q;
  _kkt_decomp_type : DecompositionType;
  _constr_decomp_type : DecompositionType;
  reports : list ForwardPassResult;   (* what the iteration callback saw *)
  stdout : list Msg
}.

Global Instance Mat_inhabited : Inhabited Mat := populate (setZero 0 0).
Global Instance DMat_inhabited : Inhabited DMat := populate (fin_mat (setZero 0 0)).
Global Instance Dynamics_inhabited : Inhabited Dynamics :=
  populate (mk_Dynamics (fun _ _ => inhabitant) inhabitant inhabitant inhabitant).
Global Instance IntermediateCost_inhabited : Inhabited IntermediateCost :=
  populate (mk_IntermediateCost (fun _ _ => 0) inhabitant inhabitant inhabitant
                                inhabitant inhabitant).
Global Instance Constraint_inhabited : Inhabited Constraint :=
  populate (mk_Constraint false (fun _ _ => inhabitant) inhabitant inhabitant inhabitant).
Global Instance ValueFunction_inhabited : Inhabited ValueFunction :=
  populate (mk_ValueFunction inhabitant inhabitant).
Global Instance BackwardPassResult_inhabited : Inhabited BackwardPassResult :=
  populate (mk_BackwardPassResult inhabitant inhabitant inhabitant inhabitant
                                  inhabitant O inhabitant inhabitant).
Global Instance Temporaries_inhabited : Inhabited Temporaries :=
  populate (mk_Temporaries inhabitant inhabitant inhabitant).

(** *** Field updates *)

Definition with_value (v : list ValueFunction) (s : IterativeLQR) : IterativeLQR :=
  mk_IterativeLQR (_nx s) (_nu s) (_N s) (_cost s) (_constraint s) v (_dyn s)
    (_bp_res s) (_constraint_to_go s) (_fp_res s) (_xtrj s) (_utrj s) (_tmp s)
    (_lam_x s) (_lam_g s) (_x_lb s) (_x_ub s) (_u_lb s) (_u_ub s) (_hxx_reg s)
    (_huu_reg s) (_kkt_reg s) (_hxx_reg_base s) (_hxx_reg_growth_factor s)
    (_svd_threshold s) (_constraint_violation_threshold s) (_kkt_decomp_type s)
    (_constr_decomp_type s) (reports s) (stdout s).

Definition with_constraint (c : list Constraint) (s : IterativeLQR) : IterativeLQR :=
  mk_IterativeLQR (_nx s) (_nu s) (_N s) (_cost s) c (_value s) (_dyn s)
    (_bp_res s) (_constraint_to_go s) (_fp_res s) (_xtrj s) (_utrj s) (_tmp s)
    (_lam_x s) (_lam_g s) (_x_lb s) (_x_ub s) (_u_lb s) (_u_ub s) (_hxx_reg s)
    (_huu_reg s) (_kkt_reg s) (_hxx_reg_base s) (_hxx_reg_growth_factor s)
    (_svd_threshold s) (_constraint_violation_threshold s) (_kkt_decomp_type s)
    (_constr_decomp_type s) (reports s) (stdout s).

Definition with_bp_res (r : list BackwardPassResult) (s : IterativeLQR) : IterativeLQR :=
  mk_IterativeLQR (_nx s) (_nu s) (_N s) (_cost s) (_constraint s) (_value s) (_dyn s)
    r (_constraint_to_go s) (_fp_res s) (_xtrj s) (_utrj s) (_tmp s)
    (_lam_x s) (_lam_g s) (_x_lb s) (_x_ub s) (_u_lb s) (_u_ub s) (_hxx_reg s)
    (_huu_reg s) (_kkt_reg s) (_hxx_reg_base s) (_hxx_reg_growth_factor s)
    (_svd_threshold s) (_constraint_violation_threshold s) (_kkt_decomp_type s)
    (_constr_decomp_type s) (reports s) (stdout s).

Definition with_constraint_to_go (c : list CtgRow) (s : IterativeLQR) : IterativeLQR :=
  mk_IterativeLQR (_nx s) (_nu s) (_N s) (_cost s) (_constraint s) (_value s) (_dyn s)
    (_bp_res s) c (_fp_res s) (_xtrj s) (_utrj s) (_tmp s)
    (_lam_x s) (_lam_g s) (_x_lb s) (_x_ub s) (_u_lb s) (_u_ub s) (_hxx_reg s)
    (_huu_reg s) (_kkt_reg s) (_hxx_reg_base s) (_hxx_reg_growth_factor s)
    (_svd_threshold s) (_constraint_violation_threshold s) (_kkt_decomp_type s)
    (_constr_decomp_type s) (reports s) (stdout s).

Definition with_fp_res (f : ForwardPassResult) (s : IterativeLQR) : IterativeLQR :=
  mk_IterativeLQR (_nx s) (_nu s) (_N s) (_cost s) (_constraint s) (_value s) (_dyn s)
    (_bp_res s) (_constraint_to_go s) f (_xtrj s) (_utrj s) (_tmp s)
    (_lam_x s) (_lam_g s) (_x_lb s) (_x_ub s) (_u_lb s) (_u_ub s) (_hxx_reg s)
    (_huu_reg s) (_kkt_reg s) (_hxx_reg_base s) (_hxx_reg_growth_factor s)
    (_svd_threshold s) (_constraint_violation_threshold s) (_kkt_decomp_type s)
    (_constr_decomp_type s) (reports s) (stdout s).

Definition with_trj (x u : Mat) (s : IterativeLQR) : IterativeLQR :=
  mk_IterativeLQR (_nx s) (_nu s) (_N s) (_cost s) (_constraint s) (_value s) (_dyn s)
    (_bp_res s) (_constraint_to_go s) (_fp_res s) x u (_tmp s)
    (_lam_x s) (_lam_g s) (_x_lb s) (_x_ub s) (_u_lb s) (_u_ub s) (_hxx_reg s)
    (_huu_reg s) (_kkt_reg s) (_hxx_reg_base s) (_hxx_reg_growth_factor s)
    (_svd_threshold s) (_constraint_violation_threshold s) (_kkt_decomp_type s)
    (_constr_decomp_type s) (reports s) (stdout s).

Definition with_tmp (t : list Temporaries) (s : IterativeLQR) : IterativeLQR :=
  mk_IterativeLQR (_nx s) (_nu s) (_N s) (_cost s) (_constraint s) (_value s) (_dyn s)
    (_bp_res s) (_constraint_to_go s) (_fp_res s) (_xtrj s) (_utrj s) t
    (_lam_x s) (_lam_g s) (_x_lb s) (_x_ub s) (_u_lb s) (_u_ub s) (_hxx_reg s)
    (_huu_reg s) (_kkt_reg s) (_hxx_reg_base s) (_hxx_reg_growth_factor s)
    (_svd_threshold s) (_constraint_violation_threshold s) (_kkt_decomp_type s)
    (_constr_decomp_type s) (reports s) (stdout s).

Definition with_lam (lx : Mat) (lg : list Mat) (s : IterativeLQR) : IterativeLQR :=
  mk_IterativeLQR (_nx s) (_nu s) (_N s) (_cost s) (_constraint s) (_value s) (_dyn s)
    (_bp_res s) (_constraint_to_go s) (_fp_res s) (_xtrj s) (_utrj s) (_tmp s)
    lx lg (_x_lb s) (_x_ub s) (_u_lb s) (_u_ub s) (_hxx_reg s)
    (_huu_reg s) (_kkt_reg s) (_hxx_reg_base s) (_hxx_reg_growth_factor s)
    (_svd_threshold s) (_constraint_violation_threshold s) (_kkt_decomp_type s)
    (_constr_decomp_type s) (reports s) (stdout s).

Definition with_hxx_reg (r : Q) (s : IterativeLQR) : IterativeLQR :=
  mk_IterativeLQR (_nx s) (_nu s) (_N s) (_cost s) (_constraint s) (_value s) (_dyn s)
    (_bp_res s) (_constraint_to_go s) (_fp_res s) (_xtrj s) (_utrj s) (_tmp s)
    (_lam_x s) (_lam_g s) (_x_lb s) (_x_ub s) (_u_lb s) (_u_ub s) r
    (_huu_reg s) (_kkt_reg s) (_hxx_reg_base s) (_hxx_reg_growth_factor s)
    (_svd_threshold s) (_constraint_violation_threshold s) (_kkt_decomp_type s)
    (_constr_decomp_type s) (reports s) (stdout s).

Definition with_reports (r : list ForwardPassResult) (s : IterativeLQR) : IterativeLQR :=
  mk_IterativeLQR (_nx s) (_nu s) (_N s) (_cost s) (_constraint s) (_value s) (_dyn s)
    (_bp_res s) (_constraint_to_go s) (_fp_res s) (_xtrj s) (_utrj s) (_tmp s)
    (_lam_x s) (_lam_g s) (_x_lb s) (_x_ub s) (_u_lb s) (_u_ub s) (_hxx_reg s)
    (_huu_reg s) (_kkt_reg s) (_hxx_reg_base s) (_hxx_reg_growth_factor s)
    (_svd_threshold s) (_constraint_violation_threshold s) (_kkt_decomp_type s)
    (_constr_decomp_type s) r (stdout s).

Definition with_stdout (o : list Msg) (s : IterativeLQR) : IterativeLQR :=
  mk_IterativeLQR (_nx s) (_nu s) (_N s) (_cost s) (_constraint s) (_value s) (_dyn s)
    (_bp_res s) (_constraint_to_go s) (_fp_res s) (_xtrj s) (_utrj s) (_tmp s)
    (_lam_x s) (_lam_g s) (_x_lb s) (_x_ub s) (_u_lb s) (_u_ub s) (_hxx_reg s)
    (_huu_reg s) (_kkt_reg s) (_hxx_reg_base s) (_hxx_reg_growth_factor s)
    (_svd_threshold s) (_constraint_violation_threshold s) (_kkt_decomp_type s)
    (_constr_decomp_type s) (reports s) o.

Definition fp_with_trj (x u : Mat) (f : ForwardPassResult) : ForwardPassResult :=
  mk_ForwardPassResult x u (accepted f) (alpha f) (step_length f) (cost f)
    (constraint_violation f) (defect_norm f) (merit f) (merit_der f) (mu_f f) (mu_c f).

Definition fp_with_step (a : bool) (al sl : Q) (f : ForwardPassResult) : ForwardPassResult :=
  mk_ForwardPassResult (fp_xtrj f) (fp_utrj f) a al sl (cost f)
    (constraint_violation f) (defect_norm f) (merit f) (merit_der f) (mu_f f) (mu_c f).

Definition fp_with_accepted (a : bool) (f : ForwardPassResult) : ForwardPassResult :=
  fp_with_step a (alpha f) (step_length f) f.

Definition fp_with_step_length (sl : Q) (f : ForwardPassResult) : ForwardPassResult :=
  fp_with_step (accepted f) (alpha f) sl f.

Definition fp_with_scores (c cv dn : Q) (f : ForwardPassResult) : ForwardPassResult :=
  mk_ForwardPassResult (fp_xtrj f) (fp_utrj f) (accepted f) (alpha f) (step_length f)
    c cv dn (merit f) (merit_der f) (mu_f f) (mu_c f).

Definition fp_with_merit (m : Q) (f : ForwardPassResult) : ForwardPassResult :=
  mk_ForwardPassResult (fp_xtrj f) (fp_utrj f) (accepted f) (alpha f) (step_length f)
    (cost f) (constraint_violation f) (defect_norm f) m (merit_der f) (mu_f f) (mu_c f).

Definition fp_with_merit_der (m : Q) (f : ForwardPassResult) : ForwardPassResult :=
  mk_ForwardPassResult (fp_xtrj f) (fp_utrj f) (accepted f) (alpha f) (step_length f)
    (cost f) (constraint_violation f) (defect_norm f) (merit f) m (mu_f f) (mu_c f).

Definition fp_with_mu (mf mc : Q) (f : ForwardPassResult) : ForwardPassResult :=
  mk_ForwardPassResult (fp_xtrj f) (fp_utrj f) (accepted f) (alpha f) (step_length f)
    (cost f) (constraint_violation f) (defect_norm f) (merit f) (merit_der f) mf mc.

(** [state(i)] and [input(i)] *)
Definition state (s : IterativeLQR) (i : nat) : Mat := col (_xtrj s) i.
Definition input (s : IterativeLQR) (i : nat) : Mat := col (_utrj s) i.

(* ================================================================== *)
(** ** External collaborators

    Eigen's factorisations and norm, and the macro [THROW_NAN] of the
    absent header [ilqr_impl.h], are parameters of the model. *)

(** [ColPivHouseholderQR] / [CompleteOrthogonalDecomposition] after
    [setThreshold(thr); compute(D)]. *)
Record PivotingDecomposition : Type := mk_PivotingDecomposition {
  piv_rank : nat;
  piv_maxPivot : Q;
  piv_matrixQ : Mat
}.

(** [JacobiSVD] after [setThreshold(thr); compute(D, ComputeFullU)]. *)
Record SvdDecomposition : Type := mk_SvdDecomposition {
  svd_rank : nat;
  svd_singularValues : list Q;
  svd_matrixU : Mat
}.

Class Externals : Type := mk_Externals {
  (** does [THROW_NAN(mat)] throw on this matrix? *)
  THROW_NAN : DMat -> bool;
  (** [dec.compute(K); dec.solve(rhs)] for the LU, QR and LDLT members *)
  kkt_solve : DecompositionType -> Mat -> Mat -> DMat;
  (** [_tmp[0].x_qr.solve(rhs)], a factorisation that
      [optimize_initial_state] never computes from its matrix *)
  x_qr_solve : Mat -> DMat;
  ccod_compute : Q -> Mat -> PivotingDecomposition;
  cqr_compute : Q -> Mat -> PivotingDecomposition;
  csvd_compute : Q -> Mat -> SvdDecomposition;
  (** [M.norm()], the Frobenius norm *)
  norm : Mat -> Q
}.

Definition lit_1em3 : Q := 1 # 1000.
Definition lit_1em4 : Q := 1 # 10000.
Definition lit_1em6 : Q := 1 # 1000000.
Definition lit_1em8 : Q := 1 # 100000000.
Definition lit_1em9 : Q := 1 # 1000000000.

(** [std::max(a, b)] *)
Definition std_max (a b : Q) : Q := if Qltb a b then b else a.

(** [_N] as the divisor of the three averages of the forward pass; the
    horizon is taken to be at least 1. *)
Definition horizon (s : IterativeLQR) : Q := inject_Z (Z.of_nat (_N s)).

(* ================================================================== *)
(** ** Forward pass, merit function and line search *)

Section ForwardPass.

Context {ext : Externals}.

Definition forward_pass_iter (i : nat) (alpha : Q) (s : IterativeLQR) : IterativeLQR :=
  (* some shorthands *)
  let xnext := state s (i + 1) in
  let xi := state s i in
  let ui := input s i in
  let xi_upd := col (fp_xtrj (_fp_res s)) i in
  let dx := msub xi_upd xi in
  (* dynamics *)
  let dyn := _dyn s !!! i in
  let A := dyn_A dyn in
  let B := dyn_B dyn in
  let d := dyn_d dyn in
  (* backward pass solution *)
  let res := _bp_res s !!! i in
  let L := bp_Lu res in
  let l := mscale alpha (bp_lu res) in
  (* update control *)
  let ui_upd := madd (madd ui l) (mmul L dx) in
  (* update next state *)
  let xnext_upd :=
    madd (madd (madd xnext (mmul (madd A (mmul B L)) dx)) (mmul B l)) (mscale alpha d) in
  let fp := _fp_res s in
  let fp1 := fp_with_trj (set_col (fp_xtrj fp) (i + 1) xnext_upd)
                         (set_col (fp_utrj fp) i ui_upd) fp in
  (* compute step length *)
  let fp2 := fp_with_step_length (step_length fp1 + cwiseAbs_sum l) fp1 in
  with_fp_res fp2
    (with_tmp (alter (fun t => mk_Temporaries dx (tmp_hu t) (tmp_defect t)) i (_tmp s)) s).

(** [IntermediateCost::evaluate(x, u)] is the value [cost_l] of the stage's
    casadi cost function. *)
Definition compute_cost (xtrj utrj : Mat) (s : IterativeLQR) : Q :=
  let inter :=
    Qsum (_N s) (fun i => cost_l (_cost s !!! i) (col xtrj i) (col utrj i)) in
  let total :=
    inter + cost_l (_cost s !!! _N s) (col xtrj (_N s)) (col utrj (_N s - 1)) in
  total / horizon s.

(** Modelled from the spec: [Constraint::evaluate] is not among the sources;
    the oracle [constraint_k(x,u) -> h] refreshes the cached residual that
    [h()] returns. *)
Definition con_evaluate (x u : Mat) (c : Constraint) : Constraint :=
  mk_Constraint (con_is_valid c) (con_f c) (con_C c) (con_D c) (con_f c x u).

Definition compute_constr_at (xtrj utrj : Mat) (i iu : nat)
    (acc : Q * list Constraint) : Q * list Constraint :=
  let '(constr, cs) := acc in
  let c := cs !!! i in
  if con_is_valid c then
    let c' := con_evaluate (col xtrj i) (col utrj iu) c in
    (constr + cwiseAbs_sum (con_h c'), <[i := c']> cs)
  else acc.

Definition compute_constr (xtrj utrj : Mat) (s : IterativeLQR) : Q * IterativeLQR :=
  (* intermediate constraint violation *)
  let acc := fold_left (fun acc i => compute_constr_at xtrj utrj i i acc)
                       (seq 0 (_N s)) (0, _constraint s) in
  (* add final constraint violation *)
  let '(constr, cs) := compute_constr_at xtrj utrj (_N s) (_N s - 1) acc in
  (constr / horizon s, with_constraint cs s).

(** Modelled from the spec: the four-argument [Dynamics::computeDefect]
    writes the defect [f(x,u) - xnext] into its last argument. *)
Definition computeDefect (dyn : Dynamics) (x u xnext : Mat) : Mat :=
  msub (dyn_f dyn x u) xnext.

Definition compute_defect (xtrj utrj : Mat) (s : IterativeLQR) : Q * IterativeLQR :=
  let '(defect, ts) :=
    fold_left
      (fun (acc : Q * list Temporaries) i =>
         let '(defect, ts) := acc in
         let df := computeDefect (_dyn s !!! i) (col xtrj i) (col utrj i)
                                 (col xtrj (i + 1)) in
         (defect + cwiseAbs_sum df,
          alter (fun t => mk_Temporaries (tmp_dx t) (tmp_hu t) df) i ts))
      (seq 0 (_N s)) (0, _tmp s) in
  (defect / horizon s, with_tmp ts s).

(** [forward_pass], up to its loop: the flags are reset and column 0 of the
    candidate is taken from the current trajectory. *)
Definition forward_pass_start (alpha : Q) (s : IterativeLQR) : IterativeLQR :=
  (* reset values *)
  let fp := fp_with_step false alpha 0 (_fp_res s) in
  (* initialize forward pass with initial state *)
  let fp := fp_with_trj (set_col (fp_xtrj fp) 0 (col (_xtrj s) 0)) (fp_utrj fp) fp in
  with_fp_res fp s.

(** [forward_pass], after its loop: set cost value and constraint violation
    after the forward pass. *)
Definition forward_pass_scores (s : IterativeLQR) : IterativeLQR :=
  let c := compute_cost (fp_xtrj (_fp_res s)) (fp_utrj (_fp_res s)) s in
  let '(cv, s) := compute_constr (fp_xtrj (_fp_res s)) (fp_utrj (_fp_res s)) s in
  let '(dn, s) := compute_defect (fp_xtrj (_fp_res s)) (fp_utrj (_fp_res s)) s in
  with_fp_res (fp_with_scores c cv dn (_fp_res s)) s.

Definition forward_pass (alpha : Q) (s : IterativeLQR) : IterativeLQR :=
  let s := forward_pass_start alpha s in
  (* do forward pass *)
  let s := fold_left (fun s i => forward_pass_iter i alpha s) (seq 0 (_N s)) s in
  forward_pass_scores s.

Definition compute_merit_slope (mu_f mu_c defect_norm constr_viol : Q)
    (s : IterativeLQR) : Q :=
  let der :=
    Qsum (_N s) (fun i =>
                   let hu := tmp_hu (_tmp s !!! i) in
                   let lu := bp_lz (_bp_res s !!! i) in
                   dot lu hu) in
  der - mu_f * defect_norm - mu_c * constr_viol.

Definition compute_merit_value (mu_f mu_c cost defect_norm constr_viol : Q) : Q :=
  cost + mu_f * defect_norm + mu_c * constr_viol.

Definition compute_merit_weights (s : IterativeLQR) : (Q * Q) * IterativeLQR :=
  let step (acc : Q * Q * Mat * list Mat) (i : nat) :=
    let '(lam_x_max, lam_g_max, lam_x, lam_g) := acc in
    let res := _bp_res s !!! i in
    let l := bp_lu res in
    (* ..for dynamics (lam_x = S*dx + s) *)
    let lam_x := set_col lam_x i (val_s (_value s !!! i)) in
    let lam_x_max := std_max lam_x_max (cwiseAbs_maxCoeff (col lam_x i)) in
    (* ..for constraints *)
    if (0 <? bp_nc res)%nat then
      let g := madd (bp_glam res) (mmul (bp_Gu res) l) in
      (lam_x_max, std_max lam_g_max (cwiseAbs_maxCoeff g), lam_x, <[i := g]> lam_g)
    else (lam_x_max, lam_g_max, lam_x, lam_g) in
  let '(lam_x_max, lam_g_max, lam_x, lam_g) :=
    fold_left step (seq 0 (_N s)) (0, 0, _lam_x s, _lam_g s) in
  let merit_safety_factor := 2 in
  (lam_x_max * merit_safety_factor, lam_g_max * merit_safety_factor,
   with_lam lam_x lam_g s).

(** Modelled from the spec: [report_result] is not among the sources; the
    iteration callback is invoked with the current forward-pass result,
    recorded here in the order of the calls. *)
Definition report_result (s : IterativeLQR) : IterativeLQR :=
  with_reports (reports s ++ [_fp_res s]) s.

Definition step_reduction_factor : Q := 1 # 2.
Definition alpha_min : Q := lit_1em3.
Definition eta : Q := lit_1em4.

(** One turn of the [while] loop of [line_search] at step size [alpha]. *)
Definition armijo_trial (mu_f mu_c merit0 merit_der0 alpha : Q) (s : IterativeLQR)
    : IterativeLQR :=
  (* run forward pass *)
  let s := forward_pass alpha s in
  (* compute merit *)
  let fp := _fp_res s in
  let fp := fp_with_merit
              (compute_merit_value mu_f mu_c (cost fp) (defect_norm fp)
                                   (constraint_violation fp)) fp in
  (* evaluate Armijo's condition *)
  let fp := fp_with_accepted
              (Qle_bool (merit fp) (merit0 + eta * alpha * merit_der0)) fp in
  (* invoke user defined callback *)
  report_result (with_fp_res fp s).

(** The [while(alpha >= alpha_min)] loop of [line_search]; [None] when the
    fuel runs out before the loop ends. *)
Fixpoint line_search_loop (fuel : nat) (mu_f mu_c merit0 merit_der0 alpha : Q)
    (s : IterativeLQR) : option IterativeLQR :=
  match fuel with
  | O => None
  | S fuel' =>
      if Qle_bool alpha_min alpha then
        let s := armijo_trial mu_f mu_c merit0 merit_der0 alpha s in
        if accepted (_fp_res s) then Some s
        else
          (* reduce step size and try again *)
          line_search_loop fuel' mu_f mu_c merit0 merit_der0
                           (alpha * step_reduction_factor) s
      else Some s
  end.

(** What [line_search] does before its loop: the merit weights, the
    initial merit value and the directional derivative. *)
Definition line_search_begin (iter : nat) (s : IterativeLQR)
    : Q * Q * Q * Q * IterativeLQR :=
  (* compute merit function weights *)
  let '(mu_f, mu_c, s) := compute_merit_weights s in
  let s := with_fp_res (fp_with_mu mu_f mu_c (_fp_res s)) s in
  (* compute merit function initial value *)
  let fp := _fp_res s in
  let merit0 := compute_merit_value mu_f mu_c (cost fp) (defect_norm fp)
                                    (constraint_violation fp) in
  let s := if Nat.eqb iter 0
           then report_result (with_fp_res (fp_with_merit merit0 (_fp_res s)) s)
           else s in
  (* compute merit function directional derivative *)
  let fp := _fp_res s in
  let merit_der0 := compute_merit_slope mu_f mu_c (defect_norm fp)
                                        (constraint_violation fp) s in
  let s := with_fp_res (fp_with_merit_der merit_der0 (_fp_res s)) s in
  (mu_f, mu_c, merit0, merit_der0, s).

(** What [line_search] does after its loop. *)
Definition line_search_end (s : IterativeLQR) : IterativeLQR :=
  let s := if accepted (_fp_res s) then s
           else report_result (with_fp_res (fp_with_accepted true (_fp_res s)) s) in
  with_trj (fp_xtrj (_fp_res s)) (fp_utrj (_fp_res s)) s.

Definition line_search (fuel : nat) (iter : nat) (s : IterativeLQR)
    : option IterativeLQR :=
  let alpha := 1 in
  let '(mu_f, mu_c, merit0, merit_der0, s) := line_search_begin iter s in
  (* run line search *)
  match line_search_loop fuel mu_f mu_c merit0 merit_der0 alpha s with
  | None => None
  | Some s => Some (line_search_end s)
  end.

Definition should_stop (s : IterativeLQR) : bool :=
  let fp := _fp_res s in
  (* first, evaluate feasibility *)
  if Qltb lit_1em6 (constraint_violation fp) then false
  else if Qltb lit_1em6 (defect_norm fp) then false
  (* here we're feasible *)
  (* exit if merit function directional derivative (normalized)
     is too close to zero *)
  else if dgt (ddiv (merit_der fp) (merit fp)) (Fin (- lit_1em9)) then true
  (* exit if step size (normalized) is too short *)
  else if dlt (ddiv (step_length fp) (norm (_utrj s))) (Fin lit_1em9) then true
  else false.

End ForwardPass.

(* ================================================================== *)
(** ** Exceptions over the solver state

    A member function that may throw maps the solver to an outcome and the
    solver as it stands when the function returns or throws. *)

Definition M (A : Type) : Type := IterativeLQR -> (Exn + A) * IterativeLQR.

Definition ret {A : Type} (a : A) : M A := fun s => (inr a, s).

Definition throw {A : Type} (e : Exn) : M A := fun s => (inl e, s).

Definition bind {A B : Type} (m : M A) (k : A -> M B) : M B :=
  fun s =>
    match m s with
    | (inl e, s') => (inl e, s')
    | (inr a, s') => k a s'
    end.

Definition get : M IterativeLQR := fun s => (inr s, s).

Definition modify (f : IterativeLQR -> IterativeLQR) : M unit :=
  fun s => (inr tt, f s).

Notation "'let*' x ':=' c 'in' k" := (bind c (fun x => k))
  (at level 10, x name, c at level 100, k at level 200).

(* ================================================================== *)
(** ** Constraint-to-go accumulator of the KKT backward pass *)

Definition row_vec (r : list Q) : Mat := of_rows (length r) [r].

(** [r * A] for a row [r] *)
Definition row_times (r : list Q) (A : Mat) : list Q :=
  get_row (mmul (row_vec r) A) 0.

(** [r * d] for a row [r] and a column [d] *)
Definition row_dot (r : list Q) (d : Mat) : Q :=
  coef (mmul (row_vec r) d) 0 0.

Definition ctg_dim (c : list CtgRow) : nat := length c.

Definition ctg_C (nx : nat) (c : list CtgRow) : Mat := of_rows nx (map row_C c).
Definition ctg_D (nu : nat) (c : list CtgRow) : Mat := of_rows nu (map row_D c).
Definition ctg_h (c : list CtgRow) : Mat := col_vec (map row_h c).

Definition ctg_clear : list CtgRow := [].

Definition rows_of (C D h : Mat) : list CtgRow :=
  map (fun j => mk_CtgRow (get_row C j) (get_row D j) (coef h j O)) (seq 0 (rows h)).

(** Modelled from the spec: [ConstraintToGo::add(C, D, h)] of the absent
    header; rows are stacked below the rows already held. *)
Definition ctg_add3 (C D h : Mat) (c : list CtgRow) : list CtgRow :=
  c ++ rows_of C D h.

(** Modelled from the spec: [ConstraintToGo::add(C, h)]; rows pushed back
    after a rotation carry a structurally zero input block. *)
Definition ctg_add2 (nu : nat) (C h : Mat) (c : list CtgRow) : list CtgRow :=
  ctg_add3 C (setZero (rows h) nu) h c.

(** Modelled from the spec: [ConstraintToGo::add(const Constraint&)] stacks
    the stage's own constraint rows below, when the stage has a constraint. *)
Definition ctg_add_constraint (k : Constraint) (c : list CtgRow) : list CtgRow :=
  if con_is_valid k then ctg_add3 (con_C k) (con_D k) (con_h k) c else c.

(** Modelled from the spec: [ConstraintToGo::set(const Constraint&)]; the
    accumulator becomes the final-stage constraint. *)
Definition ctg_set_constraint (k : Constraint) : list CtgRow :=
  ctg_add_constraint k ctg_clear.

(** Modelled from the spec: [propagate_backwards(A, B, d)] is
    C <- C*A, D <- C*B (of the incoming C), h <- h - C*d. *)
Definition propagate_backwards (A B d : Mat) (c : list CtgRow) : list CtgRow :=
  map (fun r => mk_CtgRow (row_times (row_C r) A) (row_times (row_C r) B)
                          (row_h r - row_dot (row_C r) d)) c.

(** Modelled from the spec: [fixed_initial_state()] holds when
    lb(.,0) = ub(.,0) elementwise. *)
Definition fixed_initial_state (s : IterativeLQR) : bool :=
  forallb_lt (_nx s) (fun i => Qeq_bool (coef (_x_lb s) i O) (coef (_x_ub s) i O)).

(* ================================================================== *)
(** ** Backward pass *)

Record FeasibleConstraint : Type := mk_FeasibleConstraint {
  fc_C : Mat;
  fc_D : Mat;
  fc_h : Mat
}.

Section BackwardPass.

Context {ext : Externals}.

Definition throw_nan (m : DMat) : M unit :=
  fun s => if THROW_NAN m then (inl NanDetected, s) else (inr tt, s).

Definition add_bound_constraint (k : nat) (s : IterativeLQR) : IterativeLQR :=
  (* state bounds *)
  let c1 :=
    fold_left
      (fun c i =>
         (* if initial state is fixed, don't add constraints for it *)
         if Nat.eqb k 0 && fixed_initial_state s then c
         (* equality *)
         else if Qeq_bool (coef (_x_lb s) i k) (coef (_x_ub s) i k) then
           c ++ [mk_CtgRow (Unit (_nx s) i) (repeat 0 (_nu s))
                           (coef (_xtrj s) i k - coef (_x_lb s) i k)]
         else c)
      (seq 0 (_nx s)) (_constraint_to_go s) in
  (* input bounds *)
  let c2 :=
    fold_left
      (fun c i =>
         if Nat.eqb k (_N s) then c
         (* equality *)
         else if Qeq_bool (coef (_u_lb s) i k) (coef (_u_ub s) i k) then
           c ++ [mk_CtgRow (repeat 0 (_nx s)) (Unit (_nu s) i)
                           (coef (_utrj s) i k - coef (_u_lb s) i k)]
         else c)
      (seq 0 (_nu s)) c1 in
  with_constraint_to_go c2 s.

Definition increase_regularization (s : IterativeLQR) : IterativeLQR :=
  let r := if Qltb (_hxx_reg s) lit_1em6 then 1 else _hxx_reg s in
  let r := r * _hxx_reg_growth_factor s in
  let r := if Qltb r (_hxx_reg_base s) then _hxx_reg_base s else r in
  with_hxx_reg r s.

(** Lines "back-propagate constraint to go", "add current step intermediate
    constraint", "add bounds", "number of constraints". *)
Definition stack_constraints (i : nat) (s : IterativeLQR) : IterativeLQR :=
  let dyn := _dyn s !!! i in
  let s := with_constraint_to_go
             (propagate_backwards (dyn_A dyn) (dyn_B dyn) (dyn_d dyn)
                                  (_constraint_to_go s)) s in
  let s := with_constraint_to_go
             (ctg_add_constraint (_constraint s !!! i) (_constraint_to_go s)) s in
  let s := add_bound_constraint i s in
  let nc := ctg_dim (_constraint_to_go s) in
  with_bp_res
    (alter (fun r => mk_BackwardPassResult (bp_Lu r) (bp_lu r) (bp_lz r) (bp_glam r)
                                           (bp_Gu r) nc (bp_dx r) (bp_dx_lam r))
           i (_bp_res s)) s.

(** The [switch(_constr_decomp_type)]: the rank of [D] and the full
    orthogonal factor. *)
Definition constraint_rank (ty : DecompositionType) (thr : Q) (D : Mat)
    : Exn + (nat * Mat) :=
  match ty with
  | Cod =>
      let cod := ccod_compute thr D in
      let rank := piv_rank cod in
      let rank := if Qltb (piv_maxPivot cod) thr then O else rank in
      inr (rank, piv_matrixQ cod)
  | Qr =>
      let qr := cqr_compute thr D in
      let rank := piv_rank qr in
      let rank := if Qltb (piv_maxPivot qr) thr then O else rank in
      inr (rank, piv_matrixQ qr)
  | Svd =>
      let svd := csvd_compute thr D in
      let rank := svd_rank svd in
      let rank := if Qltb (nth 0 (svd_singularValues svd) 0) thr then O else rank in
      inr (rank, svd_matrixU svd)
  | _ => inl InvalidArgument
  end.

(** Is the j-th infeasible constraint of the form 0x = 0 ? *)
Definition linearly_dependent (Cinf hinf : Mat) (j : nat) : bool :=
  Qltb (Qabs (coef hinf j O)) lit_1em9 &&
  Qltb (cwiseAbs_maxCoeff (row Cinf j)) lit_1em9.

(** The loop over the infeasible rows, after [_constraint_to_go->clear()]. *)
Definition push_infeasible (Cinf hinf : Mat) (s : IterativeLQR) : IterativeLQR :=
  fold_left
    (fun s j =>
       if linearly_dependent Cinf hinf j then
         with_stdout (stdout s ++ [WarnLinearlyDependent j]) s
       else
         with_constraint_to_go
           (ctg_add2 (_nu s) (row Cinf j) (row hinf j) (_constraint_to_go s)) s)
    (seq 0 (rows hinf)) (with_constraint_to_go ctg_clear s).

Definition handle_constraints (i : nat) : M FeasibleConstraint :=
  let* _ := modify (stack_constraints i) in
  let* s := get in
  let nc := ctg_dim (_constraint_to_go s) in
  (* no constraint to handle, do nothing *)
  if Nat.eqb nc 0 then
    ret (mk_FeasibleConstraint (setZero 0 (_nx s)) (setZero 0 (_nu s)) (setZero 0 1))
  else
    (* decompose constraint into a feasible and infeasible components *)
    let C := ctg_C (_nx s) (_constraint_to_go s) in
    let D := ctg_D (_nu s) (_constraint_to_go s) in
    let h := ctg_h (_constraint_to_go s) in
    let* _ := throw_nan (fin_mat C) in
    let* _ := throw_nan (fin_mat D) in
    let* _ := throw_nan (fin_mat h) in
    match constraint_rank (_constr_decomp_type s) (_svd_threshold s) D with
    | inl e => throw e
    | inr (rank, codQ) =>
        let* _ := throw_nan (fin_mat codQ) in
        let codQ1 := leftCols codQ rank in
        let codQ2 := rightCols codQ (nc - rank) in
        (* feasible part *)
        let Cf := mmul (transpose codQ1) C in
        let Df := mmul (transpose codQ1) D in
        let hf := mmul (transpose codQ1) h in
        (* infeasible part *)
        let Cinf := mmul (transpose codQ2) C in
        let hinf := mmul (transpose codQ2) h in
        let* _ := modify (push_infeasible Cinf hinf) in
        ret (mk_FeasibleConstraint Cf Df hf)
    end.

(** The KKT matrix and right-hand side of stage [i]. *)
Definition form_kkt (nu nc : nat) (kkt_reg : Q) (Huu Hux hu : Mat)
    (cf : FeasibleConstraint) : Mat * Mat :=
  let K :=
    vstack (hstack Huu (transpose (fc_D cf)))
           (hstack (fc_D cf) (add_diagonal (- kkt_reg) (setZero nc nc))) in
  let kx0 :=
    hstack (vstack (mneg Hux) (mneg (fc_C cf)))
           (vstack (mneg hu) (mneg (fc_h cf))) in
  (K, kx0).

(** The [switch(_kkt_decomp_type)]. *)
Definition solve_kkt (ty : DecompositionType) (K kx0 : Mat) : Exn + DMat :=
  match ty with
  | Lu => inr (kkt_solve Lu K kx0)
  | Qr => inr (kkt_solve Qr K kx0)
  | Ldlt => inr (kkt_solve Ldlt K kx0)
  | _ => inl InvalidArgument
  end.

(** [S = Hxx + Lu'*(Huu*Lu + Hux) + Hux'*Lu] *)
Definition update_S_raw (Hxx Huu Hux Lu : Mat) : Mat :=
  madd (madd Hxx (mmul (transpose Lu) (madd (mmul Huu Lu) Hux)))
       (mmul (transpose Hux) Lu).

(** [S = 0.5*(S + S.transpose())].  The right-hand side is a
    coefficient-wise expression, for which Eigen makes no temporary: the
    coefficients are stored one after the other, column by column, each
    computed from what [S] holds at that moment.  A coefficient on or below
    the diagonal reads its mirror image before it is overwritten; a
    coefficient above the diagonal reads the value already stored below. *)
Definition symmetrize_in_place (S : Mat) : Mat :=
  mk_mat (rows S) (cols S)
         (fun i j =>
            if (i <? j)%nat
            then (1 # 2) * (coef S i j + (1 # 2) * (coef S j i + coef S i j))
            else (1 # 2) * (coef S i j + coef S j i)).

(** The two assignments to [S]: the update above, then
    [S = 0.5*(S + S')] on the S just stored. *)
Definition update_S (Hxx Huu Hux Lu : Mat) : Mat :=
  symmetrize_in_place (update_S_raw Hxx Huu Hux Lu).

(** [s = hx + Hux'*lu + Lu'*(hu + Huu*lu)] *)
Definition update_s (hx hu Huu Hux Lu lu : Mat) : Mat :=
  madd (madd hx (mmul (transpose Hux) lu))
       (mmul (transpose Lu) (madd hu (mmul Huu lu))).

(** The quantities that [backward_pass_iter] holds once the KKT system of
    the stage has been solved. *)
Record KktStage : Type := mk_KktStage {
  ks_nc : nat;
  ks_hx : Mat;
  ks_Hxx : Mat;
  ks_hu : Mat;
  ks_Huu : Mat;
  ks_Hux : Mat;
  ks_u_lam : DMat
}.

(** [backward_pass_iter], from its first line to the solution [u_lam] of
    the KKT system. *)
Definition solve_stage (i : nat) : M KktStage :=
  (* constraint handling *)
  let* constr_feas := handle_constraints i in
  let* s := get in
  (* num of feasible constraints *)
  let nc := rows (fc_h constr_feas) in
  (* intermediate cost *)
  let cost := _cost s !!! i in
  let r := cost_r cost in
  let q := cost_q cost in
  let Q := cost_Q cost in
  let R := cost_R cost in
  let P := cost_P cost in
  (* dynamics *)
  let dyn := _dyn s !!! i in
  let A := dyn_A dyn in
  let B := dyn_B dyn in
  let d := dyn_d dyn in
  (* ..value function *)
  let value_next := _value s !!! (i + 1)%nat in
  let Snext := val_S value_next in
  let snext := val_s value_next in
  let* _ := throw_nan (fin_mat Snext) in
  let* _ := throw_nan (fin_mat snext) in
  (* components of next node's value function *)
  let s_plus_S_d := madd snext (mmul Snext d) in
  let S_A := mmul Snext A in
  let hx := madd q (mmul (transpose A) s_plus_S_d) in
  let Hxx := add_diagonal (_hxx_reg s) (madd Q (mmul (transpose A) S_A)) in
  (* remaining components of next node's value function *)
  let hu := madd r (mmul (transpose B) s_plus_S_d) in
  let Huu := add_diagonal (_huu_reg s) (madd R (mmul (mmul (transpose B) Snext) B)) in
  let Hux := madd P (mmul (transpose B) S_A) in
  let* _ := modify (fun s =>
              with_tmp (alter (fun t => mk_Temporaries (tmp_dx t) hu (tmp_defect t))
                              i (_tmp s)) s) in
  (* form kkt matrix *)
  let '(K, kx0) := form_kkt (_nu s) nc (_kkt_reg s) Huu Hux hu constr_feas in
  (* solve kkt equation *)
  let* _ := throw_nan (fin_mat K) in
  let* _ := throw_nan (fin_mat kx0) in
  match solve_kkt (_kkt_decomp_type s) K kx0 with
  | inl e => throw e
  | inr u_lam => ret (mk_KktStage nc hx Hxx hu Huu Hux u_lam)
  end.

Definition backward_pass_iter (i : nat) : M unit :=
  let* k := solve_stage i in
  let* s := get in
  let u_lam := ks_u_lam k in
  let* _ := throw_nan u_lam in
  (* check *)
  if negb (allFinite u_lam) || hasNaN u_lam then throw HessianIndefinite
  else
    (* save solution *)
    let u_lam := finite_part u_lam in
    let Lu := topLeftCorner u_lam (_nu s) (_nx s) in
    let lu := head (col u_lam (_nx s)) (_nu s) in
    let lam := tail (col u_lam (_nx s)) (ks_nc k) in
    let* _ := modify (fun s =>
                with_bp_res
                  (alter (fun r => mk_BackwardPassResult Lu lu (bp_lz r) lam (bp_Gu r)
                                     (bp_nc r) (bp_dx r) (bp_dx_lam r))
                         i (_bp_res s)) s) in
    (* save optimal value function *)
    let S := update_S (ks_Hxx k) (ks_Huu k) (ks_Hux k) Lu in
    let s' := update_s (ks_hx k) (ks_hu k) (ks_Huu k) (ks_Hux k) Lu lu in
    let* _ := modify (fun s =>
                with_value (<[i := mk_ValueFunction S s']> (_value s)) s) in
    let* _ := throw_nan (fin_mat S) in
    throw_nan (fin_mat s').

End BackwardPass.

Section BackwardPassDriver.

Context {ext : Externals}.

(** The loop re-adding the rows that the computed [dx] leaves violated. *)
Definition readd_violated (Cinf hinf : Mat) (dx : DMat) (s : IterativeLQR)
    : IterativeLQR :=
  fold_left
    (fun s i =>
       (* feasible, do nothing *)
       if dlt (dabs (dcoef (dresidual (row Cinf i) dx (row hinf i)) 0 0))
              (Fin (_constraint_violation_threshold s))
       then s
       (* infeasible, add it back to constraint to go *)
       else
         with_constraint_to_go
           (ctg_add2 (_nu s) (row Cinf i) (row hinf i) (_constraint_to_go s)) s)
    (seq 0 (rows hinf)) (with_constraint_to_go ctg_clear s).

Definition set_dx (dx lam : DMat) (s : IterativeLQR) : IterativeLQR :=
  with_bp_res
    (alter (fun r => mk_BackwardPassResult (bp_Lu r) (bp_lu r) (bp_lz r) (bp_glam r)
                                           (bp_Gu r) (bp_nc r) dx lam)
           0%nat (_bp_res s)) s.

Definition optimize_initial_state : M unit :=
  let* s := get in
  (* typical case: initial state is fixed *)
  if fixed_initial_state s then
    modify (fun s =>
              set_dx (fin_mat (msub (col (_x_lb s) 0) (state s 0)))
                     (bp_dx_lam (_bp_res s !!! 0%nat)) s)
  else
    (* cost *)
    let S := val_S (_value s !!! 0%nat) in
    let s0 := val_s (_value s !!! 0%nat) in
    (* constraints and bounds *)
    let C := ctg_C (_nx s) (_constraint_to_go s) in
    let h := ctg_h (_constraint_to_go s) in
    (* construct kkt matrix *)
    let K := vstack (hstack S (transpose C))
                    (hstack C (setZero (rows C) (rows C))) in
    (* residual vector *)
    let k := vstack (mneg s0) (mneg h) in
    let* _ := throw_nan (fin_mat K) in
    let* _ := throw_nan (fin_mat k) in
    (* solve kkt equation *)
    match
      match _kkt_decomp_type s with
      | Lu => inr (kkt_solve Lu K k)
      | Qr => inr (x_qr_solve k)
      | Ldlt => inr (kkt_solve Ldlt K k)
      | _ => inl InvalidArgument
      end
    with
    | inl e => throw e
    | inr dx_lam =>
        let* _ := throw_nan dx_lam in
        (* save solution *)
        let dx := dhead dx_lam (rows s0) in
        let lam := dtail dx_lam (rows h) in
        let* _ := modify (set_dx dx lam) in
        (* check constraints *)
        modify (readd_violated C h dx)
    end.

(** Initialisation of the recursion at stage N. *)
Definition backward_pass_init (s : IterativeLQR) : IterativeLQR :=
  (* initialize backward recursion from final cost.. *)
  let cN := List.last (_cost s) inhabitant in
  (* regularize final cost *)
  let vN := mk_ValueFunction (add_diagonal (_hxx_reg s) (cost_Q cN)) (cost_q cN) in
  let s := with_value (<[(length (_value s) - 1)%nat := vN]> (_value s)) s in
  (* ..and initialize constraints and bounds *)
  let s := with_constraint_to_go
             (ctg_set_constraint (List.last (_constraint s) inhabitant)) s in
  add_bound_constraint (_N s) s.

(** Stages k-1, ..., 0 in this order: the body of [while(i >= 0)] as long
    as no exception is thrown. *)
Fixpoint backward_pass_stages (k : nat) : M unit :=
  match k with
  | O => ret tt
  | S i => let* _ := backward_pass_iter i in backward_pass_stages i
  end.

(** What follows the loop: [optimize_initial_state] and the infeasibility
    warning. *)
Definition backward_pass_finish : M unit :=
  (* compute dx[0] *)
  let* _ := optimize_initial_state in
  modify (fun s =>
    (* here we should've treated all constraints *)
    if (0 <? ctg_dim (_constraint_to_go s))%nat then
      let residual := dresidual (ctg_C (_nx s) (_constraint_to_go s))
                                (bp_dx (_bp_res s !!! 0%nat))
                                (ctg_h (_constraint_to_go s)) in
      (* infeasible warning *)
      if dgt (dlp1 residual) (Fin lit_1em8) then
        with_stdout (stdout s ++ [WarnNotSatisfied (ctg_dim (_constraint_to_go s))]) s
      else s
    else s).

(** [backward_pass]: each unit of fuel pays for one (re)start; [None] when
    the fuel runs out, that is when the regularisation retries go on. *)
Fixpoint backward_pass (fuel : nat) (s : IterativeLQR)
    : option ((Exn + unit) * IterativeLQR) :=
  match fuel with
  | O => None
  | S fuel' =>
      match backward_pass_stages (_N s) (backward_pass_init s) with
      | (inl HessianIndefinite, s') =>
          (* retry with increased reg *)
          backward_pass fuel' (increase_regularization s')
      | (inl e, s') => Some (inl e, s')
      | (inr _, s') => Some (backward_pass_finish s')
      end
  end.

End BackwardPassDriver.

(** [std::pow(x, 1./3.)] of the C library, a parameter. *)
Class Libm : Type := mk_Libm { pow_third : Q -> Q }.

(** [_hxx_reg /= std::pow(_hxx_reg_growth_factor, 1./3.)], then the floor
    at [_hxx_reg_base].  The quotient is the FPU's; [None] when it leaves
    [_hxx_reg] infinite or NaN, which the rational member cannot hold. *)
Definition reduce_regularization `{Libm} (s : IterativeLQR) : option IterativeLQR :=
  let r := ddiv (_hxx_reg s) (pow_third (_hxx_reg_growth_factor s)) in
  let r := if dlt r (Fin (_hxx_reg_base s)) then Fin (_hxx_reg_base s) else r in
  match r with
  | Fin q => Some (with_hxx_reg q s)
  | _ => None
  end.

(* ================================================================== *)
(** ** The earlier single-file solver *)

Module Legacy.

(** [casadi::Function] with signature (x, u) -> (l) or (x, u) -> (f). *)
Record DynFunction : Type := mk_DynFunction {
  size1_in0 : nat;
  size1_in1 : nat;
  call : Mat -> Mat -> Mat
}.

Definition CostFunction : Type := Mat -> Mat -> Q.

Record Dynamics : Type := mk_Dynamics {
  f : option DynFunction;
  A : Mat;
  B : Mat;
  d : Mat
}.

Record IntermediateCost : Type := mk_IntermediateCost {
  l : option CostFunction
}.

Record Constraint : Type := mk_Constraint {
  is_valid : bool;
  C : Mat;
  h : Mat
}.

Record ValueFunction : Type := mk_ValueFunction { S : Mat; s : Mat }.

Record BackwardPassResult : Type := mk_BackwardPassResult {
  Lfb : Mat;
  du_ff : Mat
}.

Record ForwardPassResult : Type := mk_ForwardPassResult {
  xtrj : Mat;
  utrj : Mat
}.

Record Temporaries : Type := mk_Temporaries { dx : Mat }.

Record ConstraintToGo : Type := mk_ConstraintToGo {
  _dim : nat;
  _C : Mat;
  _h : Mat
}.

Record IterativeLQR : Type := mk_IterativeLQR {
  _nx : nat;
  _nu : nat;
  _N : nat;
  _f : DynFunction;
  _cost : list IntermediateCost;
  _constraint : list Constraint;
  _value : list ValueFunction;
  _dyn : list Dynamics;
  _bp_res : list BackwardPassResult;
  _constraint_to_go : ConstraintToGo;
  _fp_res : ForwardPassResult;
  _xtrj : Mat;
  _utrj : Mat;
  _tmp : list Temporaries
}.

Global Instance Dynamics_inhabited : Inhabited Dynamics :=
  populate (mk_Dynamics None inhabitant inhabitant inhabitant).
Global Instance BackwardPassResult_inhabited : Inhabited BackwardPassResult :=
  populate (mk_BackwardPassResult inhabitant inhabitant).
Global Instance Constraint_inhabited : Inhabited Constraint :=
  populate (mk_Constraint false inhabitant inhabitant).

(** *** ConstraintToGo *)

(** [ConstraintToGo::ConstraintToGo(int nx)] *)
Definition ConstraintToGo_ctor (nx : nat) : ConstraintToGo :=
  let c_max := (nx * 10)%nat in
  mk_ConstraintToGo 0 (setZero c_max nx) (setZero c_max 1).

(** The capacity fixed by the constructor: the rows of the buffers. *)
Definition capacity (c : ConstraintToGo) : nat := rows (_h c).

(** [M.topRows(k) = B]: inside the buffer the first [k] rows are
    overwritten.  The buffer keeps its dimensions; for [k] beyond them the
    C++ assignment writes out of bounds. *)
Definition assign_topRows (M : Mat) (k : nat) (B : Mat) : Mat :=
  mk_mat (rows M) (cols M)
         (fun i j => if (i <? k)%nat then coef B i j else coef M i j).

(** [ConstraintToGo::set(C_to_add, h_to_add)] *)
Definition set (C_to_add h_to_add : Mat) (c : ConstraintToGo) : ConstraintToGo :=
  let dim := rows h_to_add in
  mk_ConstraintToGo dim (assign_topRows (_C c) dim C_to_add)
                        (assign_topRows (_h c) dim h_to_add).

(** [ConstraintToGo::set(const Constraint&)] *)
Definition set_constraint (constr : Constraint) (c : ConstraintToGo) : ConstraintToGo :=
  if negb (is_valid constr) then c
  else set (C constr) (h constr) c.

Definition clear (c : ConstraintToGo) : ConstraintToGo :=
  mk_ConstraintToGo 0 (_C c) (_h c).

Definition dim (c : ConstraintToGo) : nat := _dim c.

Definition ctg_C (c : ConstraintToGo) : Mat := topRows (_C c) (_dim c).

Definition ctg_h (c : ConstraintToGo) : Mat := head (_h c) (_dim c).

(** *** Construction and default cost *)

(** [IntermediateCost::setCost]; the derivative factories are left to
    casadi. *)
Definition setCost (cost : CostFunction) (c : IntermediateCost) : IntermediateCost :=
  mk_IntermediateCost (Some cost).

Definition with_cost (c : list IntermediateCost) (q : IterativeLQR) : IterativeLQR :=
  mk_IterativeLQR (_nx q) (_nu q) (_N q) (_f q) c (_constraint q) (_value q) (_dyn q)
    (_bp_res q) (_constraint_to_go q) (_fp_res q) (_xtrj q) (_utrj q) (_tmp q).

Definition with_fp_res (r : ForwardPassResult) (q : IterativeLQR) : IterativeLQR :=
  mk_IterativeLQR (_nx q) (_nu q) (_N q) (_f q) (_cost q) (_constraint q) (_value q)
    (_dyn q) (_bp_res q) (_constraint_to_go q) r (_xtrj q) (_utrj q) (_tmp q).

Definition with_trj (x u : Mat) (q : IterativeLQR) : IterativeLQR :=
  mk_IterativeLQR (_nx q) (_nu q) (_N q) (_f q) (_cost q) (_constraint q) (_value q)
    (_dyn q) (_bp_res q) (_constraint_to_go q) (_fp_res q) x u (_tmp q).

Definition with_tmp (t : list Temporaries) (q : IterativeLQR) : IterativeLQR :=
  mk_IterativeLQR (_nx q) (_nu q) (_N q) (_f q) (_cost q) (_constraint q) (_value q)
    (_dyn q) (_bp_res q) (_constraint_to_go q) (_fp_res q) (_xtrj q) (_utrj q) t.

(** [setIntermediateCost(const std::vector<casadi::Function>&)] *)
Definition setIntermediateCost (inter_cost : list CostFunction) (q : IterativeLQR)
    : Exn + IterativeLQR :=
  if negb (Nat.eqb (length inter_cost) (_N q)) then inl InvalidArgument
  else
    inr (fold_left
           (fun q i =>
              match inter_cost !! i with
              | Some c => with_cost (alter (setCost c) i (_cost q)) q
              | None => q
              end)
           (seq 0 (_N q)) q).

(** [setFinalCost]: [_cost.back().setCost(final_cost)] *)
Definition setFinalCost (final_cost : CostFunction) (q : IterativeLQR) : IterativeLQR :=
  with_cost (alter (setCost final_cost) (length (_cost q) - 1)%nat (_cost q)) q.

Definition dfl_cost : CostFunction := fun x u => (1 # 2) * sumsqr u.
Definition dfl_cost_final : CostFunction := fun x u => (1 # 2) * sumsqr x.

Definition set_default_cost (q : IterativeLQR) : Exn + IterativeLQR :=
  match setIntermediateCost (replicate (_N q) dfl_cost) q with
  | inl e => inl e
  | inr q => inr (setFinalCost dfl_cost_final q)
  end.

(** [IterativeLQR::IterativeLQR(cs::Function fdyn, int N)] *)
Definition IterativeLQR_ctor (fdyn : DynFunction) (N : nat) : Exn + IterativeLQR :=
  let nx := size1_in0 fdyn in
  let nu := size1_in1 fdyn in
  let q :=
    mk_IterativeLQR nx nu N fdyn
      (replicate (N + 1) (mk_IntermediateCost None))
      (replicate (N + 1) (mk_Constraint false inhabitant inhabitant))
      (replicate (N + 1) (mk_ValueFunction (setZero nx nx) (setZero nx 1)))
      (* set dynamics *)
      (replicate N (mk_Dynamics (Some fdyn) inhabitant inhabitant (setZero nx 1)))
      (replicate N (mk_BackwardPassResult (setZero nu nx) (setZero nu 1)))
      (ConstraintToGo_ctor nx)
      (mk_ForwardPassResult (setZero nx N) (setZero nu N))
      (* initialize trajectories *)
      (setZero nx (N + 1)) (setZero nu N)
      (replicate N (mk_Temporaries inhabitant)) in
  (* a default cost so that it works out of the box *)
  set_default_cost q.

(** *** Forward pass *)

Definition state (q : IterativeLQR) (i : nat) : Mat := col (_xtrj q) i.
Definition input (q : IterativeLQR) (i : nat) : Mat := col (_utrj q) i.

Definition forward_pass_iter (i : nat) (alpha : Q) (q : IterativeLQR) : IterativeLQR :=
  (* some shorthands *)
  let xnext := state q (i + 1) in
  let xi := state q i in
  let ui := input q i in
  let xi_upd := col (xtrj (_fp_res q)) i in
  let dx := msub xi_upd xi in
  (* dynamics *)
  let dyn := _dyn q !!! i in
  let A := A dyn in
  let B := B dyn in
  let d := d dyn in
  (* backward pass solution *)
  let res := _bp_res q !!! i in
  let L := Lfb res in
  let l := mscale alpha (du_ff res) in
  (* update control *)
  let ui_upd := madd (madd ui l) (mmul L dx) in
  (* update next state *)
  let xnext_upd :=
    madd (madd (madd xnext (mmul (madd A (mmul B L)) dx)) (mmul B l)) d in
  with_fp_res
    (mk_ForwardPassResult (set_col (xtrj (_fp_res q)) (i + 1) xnext_upd)
                          (set_col (utrj (_fp_res q)) i ui_upd))
    (with_tmp (<[i := mk_Temporaries dx]> (_tmp q)) q).

Definition forward_pass (alpha : Q) (q : IterativeLQR) : IterativeLQR :=
  (* start from current trajectory *)
  let q := with_fp_res (mk_ForwardPassResult (_xtrj q) (_utrj q)) q in
  let q := fold_left (fun q i => forward_pass_iter i alpha q) (seq 0 (_N q)) q in
  (* for now, we always accept the step *)
  with_trj (xtrj (_fp_res q)) (utrj (_fp_res q)) q.

(** *** Initial state, trajectories and the defect *)

(** [setInitialState]: [_xtrj.col(0) = x0] *)
Definition setInitialState (x0 : Mat) (q : IterativeLQR) : IterativeLQR :=
  with_trj (set_col (_xtrj q) 0 x0) (_utrj q) q.

Definition getStateTrajectory (q : IterativeLQR) : Mat := _xtrj q.

Definition getInputTrajectory (q : IterativeLQR) : Mat := _utrj q.

(** [Dynamics::integrate]; without a function set there is nothing to
    call. *)
Definition integrate (dyn : Dynamics) (x u : Mat) : option Mat :=
  match f dyn with
  | Some fd => Some (call fd x u)
  | None => None
  end.

(** [Dynamics::computeDefect(x, u, xnext)]: [d = xint - xnext] *)
Definition computeDefect (x u xnext : Mat) (dyn : Dynamics) : option Dynamics :=
  match integrate dyn x u with
  | Some xint => Some (mk_Dynamics (f dyn) (A dyn) (B dyn) (msub xint xnext))
  | None => None
  end.

End Legacy.

(* ================================================================== *)
(** ** The stopping rule and merit slope as the specification words them *)

(** "Stop when feasible (defect norm and constraint violation both <= 1e-6)
    AND either |m'(0)| / |m(0)| < 1e-9, OR ||step||_1 / ||u|| < 1e-9." *)
Definition spec_should_stop `{Externals} (s : IterativeLQR) : Prop :=
  let fp := _fp_res s in
  defect_norm fp <= lit_1em6 /\ constraint_violation fp <= lit_1em6 /\
  (Qabs (merit_der fp) / Qabs (merit fp) < lit_1em9 \/
   step_length fp / norm (_utrj s) < lit_1em9).

(** The signed, one-sided test of [should_stop] on the merit slope; a zero
    merit makes the quotient infinite or NaN. *)
Definition slope_test (merit_der merit : Q) : Prop :=
  (~ merit == 0 /\ - lit_1em9 < merit_der / merit) \/
  (merit == 0 /\ 0 < merit_der).

(** The test of [should_stop] on the step length; a zero input norm makes
    the quotient infinite or NaN. *)
Definition step_test (step unorm : Q) : Prop :=
  (~ unorm == 0 /\ step / unorm < lit_1em9) \/
  (unorm == 0 /\ step < 0).

(** "m'(0) = sum l_u' * hu - mu_f * |D|_1 - mu_c * |G|_1", with l_u the
    feedforward step saved by the backward pass. *)
Definition spec_merit_slope (mu_f mu_c defect_norm constr_viol : Q)
    (s : IterativeLQR) : Q :=
  Qsum (_N s) (fun i => dot (bp_lu (_bp_res s !!! i)) (tmp_hu (_tmp s !!! i)))
  - mu_f * defect_norm - mu_c * constr_viol.

(** "dx_i = xhat_i - x_i;  uhat_i = u_i + alpha*l_i + L_i*dx_i;
     xhat_{i+1} = x_{i+1} + (A_i + B_i*L_i)*dx_i + B_i*alpha*l_i + alpha*d_i",
    read against the trajectory, linearisation and gains held by [s] and a
    candidate state trajectory [xhat]. *)
Definition spec_dx (s : IterativeLQR) (xhat : Mat) (i : nat) : Mat :=
  msub (col xhat i) (state s i).

Definition spec_input_update (s : IterativeLQR) (a : Q) (xhat : Mat) (i : nat) : Mat :=
  let res := _bp_res s !!! i in
  madd (madd (input s i) (mscale a (bp_lu res))) (mmul (bp_Lu res) (spec_dx s xhat i)).

Definition spec_state_update (s : IterativeLQR) (a : Q) (xhat : Mat) (i : nat) : Mat :=
  let res := _bp_res s !!! i in
  let dyn := _dyn s !!! i in
  madd (madd (madd (state s (i + 1))
                   (mmul (madd (dyn_A dyn) (mmul (dyn_B dyn) (bp_Lu res)))
                         (spec_dx s xhat i)))
             (mmul (dyn_B dyn) (mscale a (bp_lu res))))
       (mscale a (dyn_d dyn)).

(** The same reading against the earlier solver. *)
Definition legacy_spec_state_update (q : Legacy.IterativeLQR) (a : Q) (xhat : Mat)
    (i : nat) : Mat :=
  let res := Legacy._bp_res q !!! i in
  let dyn := Legacy._dyn q !!! i in
  let dx := msub (col xhat i) (Legacy.state q i) in
  madd (madd (madd (Legacy.state q (i + 1))
                   (mmul (madd (Legacy.A dyn) (mmul (Legacy.B dyn) (Legacy.Lfb res))) dx))
             (mmul (Legacy.B dyn) (mscale a (Legacy.du_ff res))))
       (mscale a (Legacy.d dyn)).

(** What the earlier [forward_pass_iter] computes instead: the defect is
    added in full. *)
Definition legacy_state_update (q : Legacy.IterativeLQR) (a : Q) (xhat : Mat)
    (i : nat) : Mat :=
  let res := Legacy._bp_res q !!! i in
  let dyn := Legacy._dyn q !!! i in
  let dx := msub (col xhat i) (Legacy.state q i) in
  madd (madd (madd (Legacy.state q (i + 1))
                   (mmul (madd (Legacy.A dyn) (mmul (Legacy.B dyn) (Legacy.Lfb res))) dx))
             (mmul (Legacy.B dyn) (mscale a (Legacy.du_ff res))))
       (Legacy.d dyn).

Definition legacy_input_update (q : Legacy.IterativeLQR) (a : Q) (xhat : Mat)
    (i : nat) : Mat :=
  let res := Legacy._bp_res q !!! i in
  let dx := msub (col xhat i) (Legacy.state q i) in
  madd (madd (Legacy.input q i) (mscale a (Legacy.du_ff res))) (mmul (Legacy.Lfb res) dx).

(** The members that the forward pass reads but never writes. *)
Definition same_problem (s s' : IterativeLQR) : Prop :=
  _N s' = _N s /\ _xtrj s' = _xtrj s /\ _utrj s' = _utrj s /\
  _dyn s' = _dyn s /\ _bp_res s' = _bp_res s.

(** The members that the earlier forward pass reads but never writes
    inside its loop. *)
Definition legacy_same_problem (q q' : Legacy.IterativeLQR) : Prop :=
  Legacy._xtrj q' = Legacy._xtrj q /\ Legacy._utrj q' = Legacy._utrj q /\
  Legacy._dyn q' = Legacy._dyn q /\ Legacy._bp_res q' = Legacy._bp_res q.

(** A member function [m] keeps the relation [R] between the solver before
    and after the call, whether it returns or throws. *)
Definition preserves (R : IterativeLQR -> IterativeLQR -> Prop) {A : Type} (m : M A)
    : Prop :=
  forall s r s', m s = (r, s') -> R s s'.

(** The part [proj] of the solver is the same before and after. *)
Definition keeps {T : Type} (proj : IterativeLQR -> T) (s s' : IterativeLQR) : Prop :=
  proj s' = proj s.

(** The member [lz] of every backward-pass result. *)
Definition all_lz (s : IterativeLQR) : list Mat := map bp_lz (_bp_res s).

(** The horizon and the regularisation settings. *)
Definition reg_options (s : IterativeLQR) : nat * Q * Q * Q :=
  (_N s, _hxx_reg s, _hxx_reg_base s, _hxx_reg_growth_factor s).

(** The [while] loop of [backward_pass], entered on the solver [s0], is
    about to run stage [k - 1] with the solver in state [s]: the stages
    above have all returned without an exception. *)
Inductive stage_reached `{Externals} (s0 : IterativeLQR) : nat -> IterativeLQR -> Prop :=
  | reached_first :
      stage_reached s0 (_N s0) (backward_pass_init s0)
  | reached_next (i : nat) (s s' : IterativeLQR) :
      stage_reached s0 (S i) s ->
      backward_pass_iter i s = (inr tt, s') ->
      stage_reached s0 i s'.

(** [m] never throws [HessianIndefinite]. *)
Definition no_hessian {A : Type} (m : M A) : Prop :=
  forall s s', m s <> (inl HessianIndefinite, s').

(** Some coefficient inside the dimensions is NaN or infinite. *)
Definition has_non_finite (A : DMat) : Prop :=
  exists a b, (a < drows A)%nat /\ (b < dcols A)%nat /\ isfinite (dcoef A a b) = false.

Definition is_ok {A : Type} (r : Exn + A) : bool :=
  match r with inr _ => true | inl _ => false end.

(** The step size of the k-th turn of the line-search loop, as the loop
    computes it: 1, then times [step_reduction_factor] at every turn. *)
Fixpoint backtrack_alpha (k : nat) : Q :=
  match k with
  | O => 1
  | S k' => backtrack_alpha k' * step_reduction_factor
  end.

(** The solver after the first [k] turns of the line-search loop. *)
Fixpoint trials (k : nat) (mu_f mu_c merit0 merit_der0 : Q) (s : IterativeLQR)
    : IterativeLQR :=
  match k with
  | O => s
  | S k' => armijo_trial mu_f mu_c merit0 merit_der0 (backtrack_alpha k')
                         (trials k' mu_f mu_c merit0 merit_der0 s)
  end.

(** What Eigen reports for the input Jacobian [D] under the threshold
    [thr]: the largest pivot (the largest singular value, for the SVD), the
    rank and the full orthogonal factor. *)
Definition largest_pivot `{Externals} (ty : DecompositionType) (thr : Q) (D : Mat) : Q :=
  match ty with
  | Cod => piv_maxPivot (ccod_compute thr D)
  | Qr => piv_maxPivot (cqr_compute thr D)
  | Svd => nth 0 (svd_singularValues (csvd_compute thr D)) 0
  | _ => 0
  end.

Definition decomposition_rank `{Externals} (ty : DecompositionType) (thr : Q) (D : Mat)
    : nat :=
  match ty with
  | Cod => piv_rank (ccod_compute thr D)
  | Qr => piv_rank (cqr_compute thr D)
  | Svd => svd_rank (csvd_compute thr D)
  | _ => O
  end.

Definition orthogonal_factor `{Externals} (ty : DecompositionType) (thr : Q) (D : Mat)
    : Mat :=
  match ty with
  | Cod => piv_matrixQ (ccod_compute thr D)
  | Qr => piv_matrixQ (cqr_compute thr D)
  | Svd => svd_matrixU (csvd_compute thr D)
  | _ => inhabitant
  end.

(** The j-th infeasible row as the accumulator holds it once pushed back. *)
Definition infeasible_row (nu : nat) (Cinf hinf : Mat) (j : nat) : CtgRow :=
  mk_CtgRow (get_row (row Cinf j) 0) (get_row (setZero 1 nu) 0) (coef hinf j O).

(** A matrix equal to its transpose, coefficient by coefficient. *)
Definition is_symmetric (A : Mat) : Prop :=
  forall a b : nat, coef A a b == coef A b a.

(* ================================================================== *)
(** ** Quantities named in the further properties *)

(** The residual of the constraint of node [i] on a trajectory, as
    [compute_constr] evaluates it: the final node is given the last
    input. *)
Definition constraint_residual (xtrj utrj : Mat) (s : IterativeLQR) (i : nat) : Mat :=
  con_f (_constraint s !!! i) (col xtrj i)
        (col utrj (if (i <? _N s)%nat then i else (_N s - 1)%nat)).

(** The multiplier estimate of stage [i]: [glam + Gu*l]. *)
Definition constraint_multiplier (s : IterativeLQR) (i : nat) : Mat :=
  let res := _bp_res s !!! i in
  madd (bp_glam res) (mmul (bp_Gu res) (bp_lu res)).

(** The value that [increase_regularization] multiplies by the growth
    factor. *)
Definition reg_floor (s : IterativeLQR) : Q :=
  if Qltb (_hxx_reg s) lit_1em6 then 1 else _hxx_reg s.

(** The rows that [add_bound_constraint] derives from the state bounds and
    from the input bounds of node [k]. *)
Definition state_bound_rows (k : nat) (s : IterativeLQR) : list CtgRow :=
  if Nat.eqb k 0 && fixed_initial_state s then []
  else
    map (fun i => mk_CtgRow (Unit (_nx s) i) (repeat 0 (_nu s))
                            (coef (_xtrj s) i k - coef (_x_lb s) i k))
        (List.filter (fun i => Qeq_bool (coef (_x_lb s) i k) (coef (_x_ub s) i k))
                     (seq 0 (_nx s))).

Definition input_bound_rows (k : nat) (s : IterativeLQR) : list CtgRow :=
  if Nat.eqb k (_N s) then []
  else
    map (fun i => mk_CtgRow (repeat 0 (_nx s)) (Unit (_nu s) i)
                            (coef (_utrj s) i k - coef (_u_lb s) i k))
        (List.filter (fun i => Qeq_bool (coef (_u_lb s) i k) (coef (_u_ub s) i k))
                     (seq 0 (_nu s))).

(** The members that the backward pass reads without writing them. *)
Definition problem_data (s : IterativeLQR) :=
  (_nx s, _nu s, _N s, _cost s, _constraint s, _dyn s, _xtrj s, _utrj s,
   (_x_lb s, _x_ub s, _u_lb s, _u_ub s),
   (_fp_res s, _lam_x s, _lam_g s, reports s),
   (_huu_reg s, _kkt_reg s, _hxx_reg_base s, _hxx_reg_growth_factor s,
    _svd_threshold s, _constraint_violation_threshold s,
    _kkt_decomp_type s, _constr_decomp_type s)).

(** Between [s] and [s'] the array of value functions keeps its length and
    changes at most at stage [i]. *)
Definition value_changes_at (i : nat) (s s' : IterativeLQR) : Prop :=
  length (_value s') = length (_value s) /\
  forall j, j <> i -> _value s' !!! j = _value s !!! j.

(** [m] cannot return while the solver satisfies [P]: it ends in an
    exception. *)
Definition never_returns (P : IterativeLQR -> Prop) {A : Type} (m : M A) : Prop :=
  forall s, P s -> forall a s', m s <> (inr a, s').

(** The KKT decomposition configured is one that [backward_pass_iter] does
    not offer. *)
Definition unsupported_kkt (s : IterativeLQR) : Prop :=
  _kkt_decomp_type s = Cod \/ _kkt_decomp_type s = Svd.

(** The displacement of the initial state onto its bound. *)
Definition initial_displacement (s : IterativeLQR) : Mat :=
  msub (col (_x_lb s) 0) (state s 0).

(** The residual that the rows still to be treated leave at that
    displacement. *)
Definition initial_residual (s : IterativeLQR) : Mat :=
  madd (mmul (ctg_C (_nx s) (_constraint_to_go s)) (initial_displacement s))
       (ctg_h (_constraint_to_go s)).

(** The residual of row [i] of [C*dx + h] at the computed [dx]. *)
Definition row_residual (Cinf hinf : Mat) (dx : DMat) (i : nat) : dbl :=
  dcoef (dresidual (row Cinf i) dx (row hinf i)) 0 0.

(** Row [i] is not satisfied within the threshold [thr]. *)
Definition still_violated (thr : Q) (Cinf hinf : Mat) (dx : DMat) (i : nat) : bool :=
  negb (dlt (dabs (row_residual Cinf hinf dx i)) (Fin thr)).

(** The KKT system of the initial state and what the configured
    decomposition returns for it. *)
Definition initial_state_kkt (s : IterativeLQR) : Mat * Mat :=
  let S := val_S (_value s !!! 0%nat) in
  let s0 := val_s (_value s !!! 0%nat) in
  let C := ctg_C (_nx s) (_constraint_to_go s) in
  let h := ctg_h (_constraint_to_go s) in
  (vstack (hstack S (transpose C)) (hstack C (setZero (rows C) (rows C))),
   vstack (mneg s0) (mneg h)).

Definition initial_state_solution `{Externals} (s : IterativeLQR) : DMat :=
  let '(K, k) := initial_state_kkt s in
  match _kkt_decomp_type s with
  | Lu => kkt_solve Lu K k
  | Qr => x_qr_solve k
  | Ldlt => kkt_solve Ldlt K k
  | _ => inhabitant
  end.

(** The quadratised cost of stage [i] as the data model describes it -- Q
    and R symmetric -- with the dimensions of the problem: Q is nx x nx, R
    is nu x nu, P is nu x nx, and the Jacobians A and B have nx rows. *)
Definition symmetric_stage (s : IterativeLQR) (i : nat) : Prop :=
  is_symmetric (cost_Q (_cost s !!! i)) /\
  is_symmetric (cost_R (_cost s !!! i)) /\
  cols (cost_Q (_cost s !!! i)) = _nx s /\
  cols (cost_R (_cost s !!! i)) = _nu s /\
  rows (cost_P (_cost s !!! i)) = _nu s /\
  rows (dyn_A (_dyn s !!! i)) = _nx s /\
  rows (dyn_B (_dyn s !!! i)) = _nx s.

(** Every stage is so, the final cost has a symmetric nx x nx Hessian, and
    the array of value functions has its N + 1 entries. *)
Definition symmetric_costs (s : IterativeLQR) : Prop :=
  length (_value s) = S (_N s) /\
  is_symmetric (cost_Q (List.last (_cost s) inhabitant)) /\
  cols (cost_Q (List.last (_cost s) inhabitant)) = _nx s /\
  forall i, (i < _N s)%nat -> symmetric_stage s i.

(** The value matrices of the stages [k], ..., N are symmetric nx x nx
    matrices. *)
Definition symmetric_from (k : nat) (s : IterativeLQR) : Prop :=
  forall j, (k <= j <= _N s)%nat ->
    is_symmetric (val_S (_value s !!! j)) /\ cols (val_S (_value s !!! j)) = _nx s.

(** Everything the earlier solver holds besides its costs. *)
Definition legacy_rest (q : Legacy.IterativeLQR) :=
  (Legacy._nx q, Legacy._nu q, Legacy._N q, Legacy._f q, Legacy._constraint q,
   Legacy._value q, Legacy._dyn q, Legacy._bp_res q, Legacy._constraint_to_go q,
   Legacy._fp_res q, Legacy._xtrj q, Legacy._utrj q, Legacy._tmp q).

(* ================================================================== *)
(** ** Concrete inputs *)

Definition identity (n : nat) : Mat := add_diagonal 1 (setZero n n).

(** The solution of a 1x1 system [K x = rhs]; a zero [K] gives the
    infinities and NaN of a singular solve. *)
Definition solve_1x1 (K rhs : Mat) : DMat :=
  mk_dmat (rows rhs) (cols rhs) (fun i j => ddiv (coef rhs i j) (coef K 0 0)).

(** Collaborators for the concrete inputs below: a linear solve that is
    exact for 1x1 systems, factorisations that are exact for a zero matrix
    (rank 0, largest pivot 0, orthogonal factor the identity), a norm that
    is exact for matrices with at most one non-zero coefficient, and
    [THROW_NAN] compiled to nothing. *)
Definition ext0 : Externals :=
  mk_Externals
    (fun _ => false)
    (fun _ K rhs => solve_1x1 K rhs)
    (fun rhs => fin_mat rhs)
    (fun _ D => mk_PivotingDecomposition 0 0 (identity (rows D)))
    (fun _ D => mk_PivotingDecomposition 0 0 (identity (rows D)))
    (fun _ D => mk_SvdDecomposition 0 (repeat 0 (Nat.min (rows D) (cols D)))
                                    (identity (rows D)))
    cwiseAbs_sum.

Definition fp0 : ForwardPassResult :=
  mk_ForwardPassResult (setZero 1 2) (setZero 1 1) false 0 0 0 0 0 0 0 0 0.

Definition zero_cost : IntermediateCost :=
  mk_IntermediateCost (fun _ _ => 0) (setZero 1 1) (setZero 1 1) (setZero 1 1)
                      (setZero 1 1) (setZero 1 1).

Definition no_constraint : Constraint :=
  mk_Constraint false (fun _ _ => setZero 0 1) (setZero 0 1) (setZero 0 1) (setZero 0 1).

Definition bp0 : BackwardPassResult :=
  mk_BackwardPassResult (setZero 1 1) (setZero 1 1) (setZero 1 1) (setZero 0 1)
                        (setZero 0 1) 0 (fin_mat (setZero 1 1)) (fin_mat (setZero 0 1)).

(** One stage, one state, one input; stage cost [c0], dynamics Jacobians
    A = 0 and B = [B0], no constraint, bounds -1 < 1 on every coordinate,
    all other data zero. *)
Definition solver_of (c0 : IntermediateCost) (B0 : Mat) : IterativeLQR :=
  mk_IterativeLQR 1 1 1
    [c0; zero_cost]
    [no_constraint; no_constraint]
    [mk_ValueFunction (setZero 1 1) (setZero 1 1);
     mk_ValueFunction (setZero 1 1) (setZero 1 1)]
    [mk_Dynamics (fun x _ => x) (setZero 1 1) B0 (setZero 1 1)]
    [bp0]
    []
    fp0
    (setZero 1 2) (setZero 1 1)
    [mk_Temporaries (setZero 1 1) (setZero 1 1) (setZero 1 1)]
    (setZero 1 1) [setZero 0 1]
    (mk_mat 1 2 (fun _ _ => - (1))) (mk_mat 1 2 (fun _ _ => 1))
    (mk_mat 1 1 (fun _ _ => - (1))) (mk_mat 1 1 (fun _ _ => 1))
    0 0 0 0 10 (1 # 1000000000000) lit_1em6
    Lu Svd [] [].

Definition solver0 : IterativeLQR := solver_of zero_cost (setZero 1 1).

(** Stage cost l(x,u) = u^2/2 + u, quadratised at u = 0: R = 1, r = 1. *)
Definition solver_lqr : IterativeLQR :=
  solver_of (mk_IntermediateCost
               (fun _ u => (1 # 2) * (coef u 0 0 * coef u 0 0) + coef u 0 0)
               (setZero 1 1) (of_rows 1 [[1]]) (setZero 1 1)
               (setZero 1 1) (of_rows 1 [[1]]))
            (setZero 1 1).

(** Zero cost and B = 1: without regularisation the input Hessian
    Huu = R + B' S B is zero and the KKT system of stage 0 is singular. *)
Definition solver_singular : IterativeLQR :=
  solver_of zero_cost (of_rows 1 [[1]]).

(** The earlier solver on one stage with one state and one input: all data
    zero except the defect d_0 = 1. *)
Definition legacy_solver_defect : Legacy.IterativeLQR :=
  Legacy.mk_IterativeLQR 1 1 1
    (Legacy.mk_DynFunction 1 1 (fun x _ => x))
    [Legacy.mk_IntermediateCost None; Legacy.mk_IntermediateCost None]
    [Legacy.mk_Constraint false (setZero 0 1) (setZero 0 1);
     Legacy.mk_Constraint false (setZero 0 1) (setZero 0 1)]
    [Legacy.mk_ValueFunction (setZero 1 1) (setZero 1 1);
     Legacy.mk_ValueFunction (setZero 1 1) (setZero 1 1)]
    [Legacy.mk_Dynamics None (setZero 1 1) (setZero 1 1) (of_rows 1 [[1]])]
    [Legacy.mk_BackwardPassResult (setZero 1 1) (setZero 1 1)]
    (Legacy.ConstraintToGo_ctor 1)
    (Legacy.mk_ForwardPassResult (setZero 1 1) (setZero 1 1))
    (setZero 1 2) (setZero 1 1)
    [Legacy.mk_Temporaries (setZero 1 1)].

(** The accumulator holds two rows on x_1 when stage 0 is handled:
    x_1 + 1 = 0 and x_1 + 0 = 0.  With A = B = 0 and d = 0 they propagate to
    0*x_0 + 0*u_0 + 1 = 0 and 0*x_0 + 0*u_0 + 0 = 0. *)
Definition solver_two_rows : IterativeLQR :=
  with_constraint_to_go [mk_CtgRow [1] [0] 1; mk_CtgRow [1] [0] 0] solver0.

(** A final constraint of eleven rows on one state: x_N = 0, eleven times,
    linearised at x_N = 0. *)
Definition eleven_rows : Legacy.Constraint :=
  Legacy.mk_Constraint true (mk_mat 11 1 (fun _ _ => 1)) (setZero 11 1).

(** Dynamics x+ = x + u on one state and one input. *)
Definition integrator : Legacy.DynFunction :=
  Legacy.mk_DynFunction 1 1 (fun x u => madd x u).

(** The solver [s] with other regularisation settings. *)
Definition with_regularization (reg base growth : Q) (s : IterativeLQR) : IterativeLQR :=
  mk_IterativeLQR (_nx s) (_nu s) (_N s) (_cost s) (_constraint s) (_value s) (_dyn s)
    (_bp_res s) (_constraint_to_go s) (_fp_res s) (_xtrj s) (_utrj s) (_tmp s)
    (_lam_x s) (_lam_g s) (_x_lb s) (_x_ub s) (_u_lb s) (_u_ub s) reg
    (_huu_reg s) (_kkt_reg s) base growth
    (_svd_threshold s) (_constraint_violation_threshold s) (_kkt_decomp_type s)
    (_constr_decomp_type s) (reports s) (stdout s).

(** The solver [s] with other decomposition types. *)
Definition with_decomp_types (kkt constr : DecompositionType) (s : IterativeLQR)
    : IterativeLQR :=
  mk_IterativeLQR (_nx s) (_nu s) (_N s) (_cost s) (_constraint s) (_value s) (_dyn s)
    (_bp_res s) (_constraint_to_go s) (_fp_res s) (_xtrj s) (_utrj s) (_tmp s)
    (_lam_x s) (_lam_g s) (_x_lb s) (_x_ub s) (_u_lb s) (_u_ub s) (_hxx_reg s)
    (_huu_reg s) (_kkt_reg s) (_hxx_reg_base s) (_hxx_reg_growth_factor s)
    (_svd_threshold s) (_constraint_violation_threshold s) kkt constr
    (reports s) (stdout s).

(** The solver [s] with other state bounds. *)
Definition with_state_bounds (lb ub : Mat) (s : IterativeLQR) : IterativeLQR :=
  mk_IterativeLQR (_nx s) (_nu s) (_N s) (_cost s) (_constraint s) (_value s) (_dyn s)
    (_bp_res s) (_constraint_to_go s) (_fp_res s) (_xtrj s) (_utrj s) (_tmp s)
    (_lam_x s) (_lam_g s) lb ub (_u_lb s) (_u_ub s) (_hxx_reg s)
    (_huu_reg s) (_kkt_reg s) (_hxx_reg_base s) (_hxx_reg_growth_factor s)
    (_svd_threshold s) (_constraint_violation_threshold s) (_kkt_decomp_type s)
    (_constr_decomp_type s) (reports s) (stdout s).

(** A cube root that is exact at 8. *)
Definition libm0 : Libm := mk_Libm (fun _ => 2).

(** Regularisation 1, no floor, growth factor 8. *)
Definition solver_growth8 : IterativeLQR := with_regularization 1 0 8 solver0.

(** The KKT system is to be solved by a complete orthogonal decomposition,
    which [backward_pass_iter] does not offer. *)
Definition solver_kkt_cod : IterativeLQR := with_decomp_types Cod Svd solver0.

(** Two rows to treat and an LU decomposition configured for them, which
    [handle_constraints] does not offer. *)
Definition solver_constr_lu : IterativeLQR := with_decomp_types Lu Lu solver_two_rows.

(** The two rows x_1 + 1 = 0 and x_1 + 0 = 0 left over at the initial state,
    which is fixed at 0 by equal bounds. *)
Definition solver_fixed : IterativeLQR :=
  with_state_bounds (setZero 1 2) (setZero 1 2) solver_two_rows.

(** The one-stage problem with stage cost u^2/2 + u after stage 0 of the
    backward pass: feedforward step l_0 = -1. *)
Definition solver_lqr_solved : IterativeLQR := snd (@backward_pass_iter ext0 0 solver_lqr).

(** The earlier solver on one stage of the integrator x+ = x + u, with
    x_0 = 1, u_0 = 2, x_1 = 0 and the defect of stage 0 computed there. *)
Definition legacy_solver_gap : Legacy.IterativeLQR :=
  let xs := of_rows 2 [[1; 0]] in
  let us := of_rows 1 [[2]] in
  Legacy.mk_IterativeLQR 1 1 1
    integrator
    [Legacy.mk_IntermediateCost None; Legacy.mk_IntermediateCost None]
    [Legacy.mk_Constraint false (setZero 0 1) (setZero 0 1);
     Legacy.mk_Constraint false (setZero 0 1) (setZero 0 1)]
    [Legacy.mk_ValueFunction (setZero 1 1) (setZero 1 1);
     Legacy.mk_ValueFunction (setZero 1 1) (setZero 1 1)]
    [Legacy.mk_Dynamics (Some integrator) (setZero 1 1) (setZero 1 1)
                        (msub (Legacy.call integrator (col xs 0) (col us 0)) (col xs 1))]
    [Legacy.mk_BackwardPassResult (setZero 1 1) (setZero 1 1)]
    (Legacy.ConstraintToGo_ctor 1)
    (Legacy.mk_ForwardPassResult xs us)
    xs us
    [Legacy.mk_Temporaries (setZero 1 1)].

(** A free initial state (bounds -1 < 1), nothing left in the
    constraint-to-go, and the value function S_0 = 1, s_0 = 1 at stage 0. *)
Definition solver_free : IterativeLQR :=
  with_value [mk_ValueFunction (of_rows 1 [[1]]) (of_rows 1 [[1]]);
              mk_ValueFunction (setZero 1 1) (setZero 1 1)] solver0.

(** The same collaborators with [THROW_NAN] taken at its word: it throws
    on a matrix that holds a NaN or an infinite coefficient, and on no
    other. *)
Definition ext_nan : Externals :=
  mk_Externals
    (fun m => hasNaN m || negb (allFinite m))
    (@kkt_solve ext0) (@x_qr_solve ext0)
    (@ccod_compute ext0) (@cqr_compute ext0) (@csvd_compute ext0)
    (@norm ext0).

(** One stage, [nx] states and one input: stage cost [c0], final cost [cN],
    dynamics [dyn], current trajectory [xs], [us], whose cost [c] and defect
    norm [dn] the forward-pass result holds.  The initial state is fixed
    by equal bounds; every other bound is -10 < 10.  No constraint, no
    regularisation, LU for the KKT systems. *)
Definition one_stage (nx : nat) (c0 cN : IntermediateCost) (dyn : Dynamics)
    (xs us : Mat) (c dn : Q) : IterativeLQR :=
  mk_IterativeLQR nx 1 1
    [c0; cN]
    [no_constraint; no_constraint]
    [mk_ValueFunction (setZero nx nx) (setZero nx 1);
     mk_ValueFunction (setZero nx nx) (setZero nx 1)]
    [dyn]
    [mk_BackwardPassResult (setZero 1 nx) (setZero 1 1) (setZero 1 1) (setZero 0 1)
                           (setZero 0 1) 0 (fin_mat (setZero nx 1)) (fin_mat (setZero 0 1))]
    []
    (mk_ForwardPassResult xs us false 0 0 c 0 dn 0 0 0 0)
    xs us
    [mk_Temporaries (setZero nx 1) (setZero 1 1) (setZero nx 1)]
    (setZero nx 1) [setZero 0 1]
    (mk_mat nx 2 (fun i j => if Nat.eqb j 0 then coef xs i 0 else - (10)))
    (mk_mat nx 2 (fun i j => if Nat.eqb j 0 then coef xs i 0 else 10))
    (mk_mat 1 1 (fun _ _ => - (10))) (mk_mat 1 1 (fun _ _ => 10))
    0 0 0 0 10 (1 # 1000000000000) lit_1em6
    Lu Svd [] [].

(** The integrator x+ = x + u linearised (A = 1, B = 1) on a trajectory
    that leaves the defect [d]. *)
Definition integrator_dynamics (d : Q) : Dynamics :=
  mk_Dynamics (fun x u => madd x u) (of_rows 1 [[1]]) (of_rows 1 [[1]]) (of_rows 1 [[d]]).

(** Stage cost u^2/2 quadratised at u = 0 (R = 1, r = 0) and final cost
    l_N(x) = x (q = 1) on the integrator, from the trajectory x_0 = 0,
    x_1 = 1, u_0 = 0: the defect is d_0 = f(x_0,u_0) - x_1 = -1, the cost
    l(x_0,u_0) + l_N(x_1) is 1 and the defect norm is 1. *)
Definition solver_downhill : IterativeLQR :=
  one_stage 1
    (mk_IntermediateCost (fun _ u => (1 # 2) * (coef u 0 0 * coef u 0 0))
                         (setZero 1 1) (of_rows 1 [[1]]) (setZero 1 1)
                         (setZero 1 1) (setZero 1 1))
    (mk_IntermediateCost (fun x _ => coef x 0 0)
                         (setZero 1 1) (setZero 1 1) (setZero 1 1)
                         (of_rows 1 [[1]]) (setZero 1 1))
    (integrator_dynamics (- (1)))
    (of_rows 2 [[0; 1]]) (of_rows 1 [[0]]) 1 1.

(** No cost at all on the integrator, from the feasible trajectory
    x_0 = x_1 = 0, u_0 = 0: every input is optimal and the input Hessian
    Huu = R + B' S B is zero. *)
Definition solver_flat : IterativeLQR :=
  one_stage 1 zero_cost zero_cost (integrator_dynamics 0)
            (of_rows 2 [[0; 0]]) (of_rows 1 [[0]]) 0 0.

(** Stage cost l(u) = 1 + u + u^2/2 + u^4/8 quadratised at u = 0 (R = 1,
    r = 1) and final cost l_N(x) = x (q = 1) on the integrator, from the
    feasible trajectory x_0 = x_1 = 0, u_0 = 0 of cost 1.  The Newton step
    is l_0 = -2, where the cost l(-2) + l_N(-2) = 3 - 2 is again 1. *)
Definition solver_quartic : IterativeLQR :=
  one_stage 1
    (mk_IntermediateCost
       (fun _ u => let v := coef u 0 0 in
                   1 + v + (1 # 2) * (v * v) + (1 # 8) * (v * v * v * v))
       (setZero 1 1) (of_rows 1 [[1]]) (setZero 1 1)
       (setZero 1 1) (of_rows 1 [[1]]))
    (mk_IntermediateCost (fun x _ => coef x 0 0)
                         (setZero 1 1) (setZero 1 1) (setZero 1 1)
                         (of_rows 1 [[1]]) (setZero 1 1))
    (integrator_dynamics 0)
    (of_rows 2 [[0; 0]]) (of_rows 1 [[0]]) 1 0.

(** Two states that stay where they are (A = I, B = 0), one input with
    R = 1, and a stage cost whose state Hessian is [Q]; everything else is
    zero. *)
Definition two_states (Q : Mat) : IterativeLQR :=
  one_stage 2
    (mk_IntermediateCost (fun _ _ => 0) Q (of_rows 1 [[1]]) (setZero 1 2)
                         (setZero 2 1) (setZero 1 1))
    (mk_IntermediateCost (fun _ _ => 0) (setZero 2 2) (setZero 1 1) (setZero 1 2)
                         (setZero 2 1) (setZero 1 1))
    (mk_Dynamics (fun x _ => x) (identity 2) (setZero 2 1) (setZero 2 1))
    (setZero 2 2) (setZero 1 1) 0 0.


(** A symmetric state Hessian coupling the two states. *)
Definition solver_coupled : IterativeLQR := two_states (of_rows 2 [[2; 1]; [1; 2]]).

(** The solver that a run of the backward pass leaves behind. *)
Definition solver_after {A : Type} (run : option (A * IterativeLQR)) : IterativeLQR :=
  match run with
  | Some (_, s) => s
  | None => solver0
  end.

(** [solver_downhill] after one backward pass, and after the line search
    of iteration 0 that follows it. *)
Definition solver_downhill_solved : IterativeLQR :=
  solver_after (@backward_pass ext_nan 1 solver_downhill).

Definition solver_downhill_searched : IterativeLQR :=
  default solver0 (line_search 11 0 solver_downhill_solved).

(** [solver_quartic] after one backward pass, and after the line search of
    iteration 0 that follows it. *)
Definition solver_quartic_solved : IterativeLQR :=
  solver_after (@backward_pass ext_nan 1 solver_quartic).

Definition solver_quartic_searched : IterativeLQR :=
  default solver0 (line_search 11 0 solver_quartic_solved).

(* ================================================================== *)
(** ** Properties: scalars *)

Lemma Qltb_lt (x y : Q) : Qltb x y = true <-> x < y.
Proof.
  unfold Qltb. rewrite negb_true_iff.
  split.
  - intros Hb. apply Qnot_le_lt. intros Hle.
    apply Qle_bool_iff in Hle. congruence.
  - intros Hlt. destruct (Qle_bool y x) eqn:E; [|reflexivity].
    apply Qle_bool_iff in E. lra.
Qed.

Lemma Qltb_ge (x y : Q) : Qltb x y = false <-> y <= x.
Proof.
  unfold Qltb. rewrite negb_false_iff. apply Qle_bool_iff.
Qed.

Lemma dgt_ddiv (a b c : Q) :
  dgt (ddiv a b) (Fin c) = true <->
  (~ b == 0 /\ c < a / b) \/ (b == 0 /\ 0 < a).
Proof.
  unfold dgt, ddiv.
  destruct (Qeq_bool b 0) eqn:Eb.
  - apply Qeq_bool_iff in Eb.
    destruct (Qltb 0 a) eqn:Ea.
    + apply Qltb_lt in Ea. simpl. split; [intros _; right; split; assumption | reflexivity].
    + apply Qltb_ge in Ea.
      split.
      * intros Hd. destruct (Qltb a 0); discriminate Hd.
      * intros [[Hb _] | [_ Ha]]; [contradiction | lra].
  - simpl. rewrite Qltb_lt.
    assert (Hb : ~ b == 0) by (intros Hb; apply Qeq_bool_iff in Hb; congruence).
    split; [intros Hc; left; split; assumption|].
    intros [[_ Hc] | [Hz _]]; [assumption | contradiction].
Qed.

Lemma dlt_ddiv (a b c : Q) :
  dlt (ddiv a b) (Fin c) = true <->
  (~ b == 0 /\ a / b < c) \/ (b == 0 /\ a < 0).
Proof.
  unfold ddiv.
  destruct (Qeq_bool b 0) eqn:Eb.
  - apply Qeq_bool_iff in Eb.
    destruct (Qltb 0 a) eqn:Ea.
    + apply Qltb_lt in Ea. simpl.
      split; [discriminate|]. intros [[Hb _] | [_ Ha]]; [contradiction | lra].
    + destruct (Qltb a 0) eqn:Ea'.
      * apply Qltb_lt in Ea'. simpl. split; [intros _; right; split; assumption | reflexivity].
      * apply Qltb_ge in Ea'. simpl.
        split; [discriminate|]. intros [[Hb _] | [_ Ha]]; [contradiction | lra].
  - simpl. rewrite Qltb_lt.
    assert (Hb : ~ b == 0) by (intros Hb; apply Qeq_bool_iff in Hb; congruence).
    split; [intros Hc; left; split; assumption|].
    intros [[_ Hc] | [Hz _]]; [assumption | contradiction].
Qed.

(* ================================================================== *)
(** ** Properties: the stopping rule *)

(** What [should_stop] tests: it answers true exactly when the constraint
    violation and the defect norm of the latest forward pass are both at
    most 1e-6 and, in addition, the signed quotient merit_der / merit is
    above -1e-9 or the quotient step_length / ||u|| is below 1e-9; as soon
    as the constraint violation or the defect norm exceeds 1e-6 the answer
    is false. *)
Lemma should_stop_iff `{Externals} (s : IterativeLQR) :
  (should_stop s = true <->
     constraint_violation (_fp_res s) <= lit_1em6 /\
     defect_norm (_fp_res s) <= lit_1em6 /\
     (slope_test (merit_der (_fp_res s)) (merit (_fp_res s)) \/
      step_test (step_length (_fp_res s)) (norm (_utrj s)))) /\
  (lit_1em6 < constraint_violation (_fp_res s) \/
   lit_1em6 < defect_norm (_fp_res s) -> should_stop s = false).
Proof.
  unfold should_stop, slope_test, step_test.
  destruct (Qltb lit_1em6 (constraint_violation (_fp_res s))) eqn:Ecv.
  { apply Qltb_lt in Ecv. split; [|reflexivity].
    split; [discriminate|]. intros (Hcv & _). lra. }
  apply Qltb_ge in Ecv.
  destruct (Qltb lit_1em6 (defect_norm (_fp_res s))) eqn:Edn.
  { apply Qltb_lt in Edn. split; [|reflexivity].
    split; [discriminate|]. intros (_ & Hdn & _). lra. }
  apply Qltb_ge in Edn.
  split; [|intros [Hc | Hd]; lra].
  destruct (dgt (ddiv (merit_der (_fp_res s)) (merit (_fp_res s))) (Fin (- lit_1em9)))
    eqn:Eder.
  { apply dgt_ddiv in Eder. split; [|reflexivity]. intros _. auto. }
  destruct (dlt (ddiv (step_length (_fp_res s)) (norm (_utrj s))) (Fin lit_1em9))
    eqn:Estep.
  { apply dlt_ddiv in Estep. split; [|reflexivity]. intros _. auto. }
  split; [discriminate|].
  intros (_ & _ & [Hs | Hs]).
  - apply dgt_ddiv in Hs. congruence.
  - apply dlt_ddiv in Hs. congruence.
Qed.

(** On the expected range -- a positive merit and a slope that is not
    positive -- the one-sided test is the two-sided test of the
    specification. *)
Lemma slope_test_two_sided (merit_der merit : Q) :
  0 < merit -> merit_der <= 0 ->
  (slope_test merit_der merit <-> Qabs merit_der / Qabs merit < lit_1em9).
Proof.
  intros Hm Hd. unfold slope_test.
  rewrite (Qabs_neg merit_der Hd), (Qabs_pos merit) by lra.
  unfold Qdiv.
  assert (Hi : 0 < / merit) by (apply Qinv_lt_0_compat; exact Hm).
  assert (Hneg : - merit_der * / merit == - (merit_der * / merit)) by ring.
  rewrite Hneg.
  split.
  - intros [[_ Hlt] | [Hz _]]; [unfold Qdiv in Hlt; lra | lra].
  - intros Hlt. left. split; [lra | unfold Qdiv; lra].
Qed.

(** A run that ends in [r] leaves the solver [solver_after] names. *)
Lemma solver_after_run {A : Type} (run : option (A * IterativeLQR)) (r : A) :
  fst <$> run = Some r -> run = Some (r, solver_after run).
Proof. destruct run as [[a s]|]; simpl; intros Heq; [|discriminate Heq]. congruence. Qed.

Lemma default_is_Some {A : Type} (o : option A) (d : A) :
  match o with Some _ => true | None => false end = true -> o = Some (default d o).
Proof. destruct o; [reflexivity | discriminate]. Qed.

(** With a negative merit the sign of the quotient is reversed: a
    negative slope of any size passes the test. *)
Lemma should_stop_negative_merit `{Externals} (s : IterativeLQR) :
  constraint_violation (_fp_res s) <= lit_1em6 ->
  defect_norm (_fp_res s) <= lit_1em6 ->
  merit (_fp_res s) < 0 -> merit_der (_fp_res s) < 0 ->
  should_stop s = true.
Proof.
  intros Hcv Hdn Hm Hd.
  apply (proj1 (should_stop_iff s)).
  split; [exact Hcv|]. split; [exact Hdn|].
  left. left. split; [lra|].
  assert (Hq : merit_der (_fp_res s) / merit (_fp_res s)
               == (- merit_der (_fp_res s)) * / (- merit (_fp_res s))).
  { field. lra. }
  rewrite Hq.
  assert (Hi : 0 < / (- merit (_fp_res s))) by (apply Qinv_lt_0_compat; lra).
  assert (Hpos : 0 < (- merit_der (_fp_res s)) * / (- merit (_fp_res s))).
  { apply Qmult_lt_0_compat; [lra | exact Hi]. }
  unfold lit_1em9. lra.
Qed.

(** C1, evaluation at the failing input.  [should_stop] compares the
    signed quotient merit_der / merit with -1e-9, although its comment
    announces a test of closeness to zero: a feasible result with a
    negative merit and a negative slope stops the solver whatever the size
    of the slope.  On the integrator with stage cost u^2/2 and final cost
    x, started at x_0 = 0, x_1 = 1, u_0 = 0, the backward pass and the line
    search of iteration 0 end feasible with merit -1/2, slope -2, step
    length 1 and ||u|| = 1: [should_stop] answers true, while
    |m'|/|m| = 4 and step/||u|| = 1 are both far above 1e-9. *)
Theorem should_stop_failing_input :
  (forall (ext : Externals) (s : IterativeLQR),
     constraint_violation (_fp_res s) <= lit_1em6 ->
     defect_norm (_fp_res s) <= lit_1em6 ->
     merit (_fp_res s) < 0 -> merit_der (_fp_res s) < 0 ->
     should_stop s = true) /\
  @backward_pass ext_nan 1 solver_downhill = Some (inr tt, solver_downhill_solved) /\
  line_search 11 0 solver_downhill_solved = Some solver_downhill_searched /\
  let s := solver_downhill_searched in
  constraint_violation (_fp_res s) == 0 /\ defect_norm (_fp_res s) == 0 /\
  merit (_fp_res s) == - (1 # 2) /\ merit_der (_fp_res s) == - (2) /\
  step_length (_fp_res s) == 1 /\ @norm ext_nan (_utrj s) == 1 /\
  @should_stop ext_nan s = true /\ ~ @spec_should_stop ext_nan s.
Proof.
  split; [intros ext s; apply should_stop_negative_merit|].
  split.
  { unfold solver_downhill_solved. apply solver_after_run. vm_compute. reflexivity. }
  split.
  { unfold solver_downhill_searched. apply default_is_Some. vm_compute. reflexivity. }
  cbv zeta. repeat split; try (vm_compute; reflexivity).
  unfold spec_should_stop. intros (_ & _ & [Hd | Hs]).
  - vm_compute in Hd. discriminate Hd.
  - vm_compute in Hs. discriminate Hs.
Qed.

(* ================================================================== *)
(** ** Properties: the forward pass *)

Lemma Qsum_ext (n : nat) (f g : nat -> Q) :
  (forall k, (k < n)%nat -> f k = g k) -> Qsum n f = Qsum n g.
Proof.
  induction n as [|n IH]; intros Hfg; [reflexivity|].
  simpl. rewrite IH by (intros k Hk; apply Hfg; lia).
  rewrite Hfg by lia. reflexivity.
Qed.

Lemma fold_left_seq_S {A : Type} (f : A -> nat -> A) (k : nat) (a : A) :
  fold_left f (seq 0 (S k)) a = f (fold_left f (seq 0 k) a) k.
Proof. rewrite seq_S, fold_left_app. reflexivity. Qed.

Lemma coef_set_col_ne (M v : Mat) (j k r : nat) :
  k <> j -> coef (set_col M j v) r k = coef M r k.
Proof.
  intros Hne. simpl. destruct (Nat.eqb_spec k j); [contradiction | reflexivity].
Qed.

Lemma coef_set_col_eq (M v : Mat) (j r : nat) :
  coef (set_col M j v) r j = coef v r O.
Proof. simpl. rewrite Nat.eqb_refl. reflexivity. Qed.

Section ForwardPassFacts.

Lemma same_problem_refl s : same_problem s s.
Proof. repeat split. Qed.

Lemma spec_input_update_ext s s' a x1 x2 i :
  same_problem s s' ->
  (forall k, coef x1 k i = coef x2 k i) ->
  forall r, coef (spec_input_update s' a x1 i) r O = coef (spec_input_update s a x2 i) r O.
Proof.
  intros (_ & Hx & Hu & _ & Hb) Hcol r.
  unfold spec_input_update, spec_dx, state, input. rewrite Hx, Hu, Hb. simpl.
  f_equal. apply Qsum_ext. intros k _. rewrite Hcol. reflexivity.
Qed.

Lemma spec_state_update_ext s s' a x1 x2 i :
  same_problem s s' ->
  (forall k, coef x1 k i = coef x2 k i) ->
  forall r, coef (spec_state_update s' a x1 i) r O = coef (spec_state_update s a x2 i) r O.
Proof.
  intros (_ & Hx & _ & Hd & Hb) Hcol r.
  unfold spec_state_update, spec_dx, state. rewrite Hx, Hd, Hb. simpl.
  do 3 f_equal. apply Qsum_ext. intros k _. rewrite Hcol. reflexivity.
Qed.

Lemma forward_pass_iter_same_problem i a s :
  same_problem s (forward_pass_iter i a s).
Proof. repeat split. Qed.

Lemma forward_pass_iter_xtrj i a s :
  fp_xtrj (_fp_res (forward_pass_iter i a s)) =
  set_col (fp_xtrj (_fp_res s)) (i + 1) (spec_state_update s a (fp_xtrj (_fp_res s)) i).
Proof. reflexivity. Qed.

Lemma forward_pass_iter_utrj i a s :
  fp_utrj (_fp_res (forward_pass_iter i a s)) =
  set_col (fp_utrj (_fp_res s)) i (spec_input_update s a (fp_xtrj (_fp_res s)) i).
Proof. reflexivity. Qed.

(** After the first [k] stages every stage below [k] satisfies the update
    equations, and column 0 is still the one the pass started from. *)
Lemma forward_pass_stages a s0 k :
  let s := fold_left (fun s i => forward_pass_iter i a s) (seq 0 k) s0 in
  same_problem s0 s /\
  (forall r, coef (fp_xtrj (_fp_res s)) r O = coef (fp_xtrj (_fp_res s0)) r O) /\
  forall i, (i < k)%nat ->
    (forall r, coef (fp_utrj (_fp_res s)) r i =
               coef (spec_input_update s0 a (fp_xtrj (_fp_res s)) i) r O) /\
    (forall r, coef (fp_xtrj (_fp_res s)) r (i + 1) =
               coef (spec_state_update s0 a (fp_xtrj (_fp_res s)) i) r O).
Proof.
  induction k as [|k IH].
  - simpl. split; [apply same_problem_refl|]. split; [reflexivity|]. intros i Hi. lia.
  - rewrite fold_left_seq_S.
    set (s := fold_left (fun s i => forward_pass_iter i a s) (seq 0 k) s0) in *.
    cbv zeta in IH. destruct IH as (Hsame & Hcol0 & Hst).
    cbv zeta.
    assert (Hsame' : same_problem s0 (forward_pass_iter k a s)).
    { destruct Hsame as (H1 & H2 & H3 & H4 & H5).
      destruct (forward_pass_iter_same_problem k a s) as (G1 & G2 & G3 & G4 & G5).
      repeat split; congruence. }
    split; [exact Hsame'|].
    rewrite forward_pass_iter_xtrj, forward_pass_iter_utrj.
    split.
    { intros r. rewrite coef_set_col_ne by lia. apply Hcol0. }
    intros i Hi.
    assert (Hkeep : forall j, (j <= k)%nat -> forall r,
               coef (set_col (fp_xtrj (_fp_res s)) (k + 1)
                             (spec_state_update s a (fp_xtrj (_fp_res s)) k)) r j =
               coef (fp_xtrj (_fp_res s)) r j).
    { intros j Hj r. apply coef_set_col_ne. lia. }
    destruct (Nat.eq_dec i k) as [-> | Hne].
    + split; intros r.
      * rewrite coef_set_col_eq.
        apply spec_input_update_ext; [exact Hsame|].
        intros r'. symmetry. apply Hkeep. lia.
      * rewrite coef_set_col_eq.
        apply spec_state_update_ext; [exact Hsame|].
        intros r'. symmetry. apply Hkeep. lia.
    + destruct (Hst i ltac:(lia)) as (Hu & Hx).
      split; intros r.
      * rewrite coef_set_col_ne by lia. rewrite Hu.
        apply spec_input_update_ext; [apply same_problem_refl|].
        intros r'. symmetry. apply Hkeep. lia.
      * rewrite coef_set_col_ne by lia. rewrite Hx.
        apply spec_state_update_ext; [apply same_problem_refl|].
        intros r'. symmetry. apply Hkeep. lia.
Qed.

Lemma compute_constr_frame x u s :
  _fp_res (snd (compute_constr x u s)) = _fp_res s /\
  same_problem s (snd (compute_constr x u s)).
Proof.
  unfold compute_constr.
  destruct (compute_constr_at x u (_N s) (_N s - 1) _) as [c cs].
  simpl. repeat split.
Qed.

Lemma compute_defect_frame x u s :
  _fp_res (snd (compute_defect x u s)) = _fp_res s /\
  same_problem s (snd (compute_defect x u s)).
Proof.
  unfold compute_defect.
  destruct (fold_left _ (seq 0 (_N s)) (0, _tmp s)) as [c ts].
  simpl. repeat split.
Qed.

Lemma forward_pass_scores_frame s :
  fp_xtrj (_fp_res (forward_pass_scores s)) = fp_xtrj (_fp_res s) /\
  fp_utrj (_fp_res (forward_pass_scores s)) = fp_utrj (_fp_res s) /\
  alpha (_fp_res (forward_pass_scores s)) = alpha (_fp_res s) /\
  same_problem s (forward_pass_scores s).
Proof.
  unfold forward_pass_scores.
  pose proof (compute_constr_frame (fp_xtrj (_fp_res s)) (fp_utrj (_fp_res s)) s)
    as (Hfp2 & Hsame2).
  destruct (compute_constr (fp_xtrj (_fp_res s)) (fp_utrj (_fp_res s)) s)
    as [cv s2]. simpl in Hfp2, Hsame2.
  pose proof (compute_defect_frame (fp_xtrj (_fp_res s2)) (fp_utrj (_fp_res s2)) s2)
    as (Hfp3 & Hsame3).
  destruct (compute_defect (fp_xtrj (_fp_res s2)) (fp_utrj (_fp_res s2)) s2)
    as [dn s3]. simpl in Hfp3, Hsame3.
  simpl. rewrite Hfp3, Hfp2.
  repeat split; try reflexivity;
    destruct Hsame2 as (G1 & G2 & G3 & G4 & G5);
    destruct Hsame3 as (K1 & K2 & K3 & K4 & K5); simpl in *; congruence.
Qed.

Lemma forward_pass_trajectories a s :
  let s1 := fold_left (fun s i => forward_pass_iter i a s) (seq 0 (_N s))
                      (forward_pass_start a s) in
  fp_xtrj (_fp_res (forward_pass a s)) = fp_xtrj (_fp_res s1) /\
  fp_utrj (_fp_res (forward_pass a s)) = fp_utrj (_fp_res s1) /\
  alpha (_fp_res (forward_pass a s)) = alpha (_fp_res s1) /\
  same_problem s (forward_pass a s).
Proof.
  cbv zeta. unfold forward_pass.
  change (_N (forward_pass_start a s)) with (_N s).
  set (s1 := fold_left _ (seq 0 (_N s)) (forward_pass_start a s)).
  pose proof (forward_pass_stages a (forward_pass_start a s) (_N s)) as Hst.
  cbv zeta in Hst. fold s1 in Hst. destruct Hst as (Hsame & _).
  destruct (forward_pass_scores_frame s1) as (Hx & Hu & Ha & Hsame2).
  repeat split; try assumption;
    destruct Hsame as (H1 & H2 & H3 & H4 & H5);
    destruct Hsame2 as (G1 & G2 & G3 & G4 & G5); simpl in *; congruence.
Qed.

End ForwardPassFacts.

Section LegacyForwardPassFacts.

Lemma legacy_input_update_ext q q' a x1 x2 i :
  legacy_same_problem q q' ->
  (forall k, coef x1 k i = coef x2 k i) ->
  forall r, coef (legacy_input_update q' a x1 i) r O =
            coef (legacy_input_update q a x2 i) r O.
Proof.
  intros (Hx & Hu & _ & Hb) Hcol r.
  unfold legacy_input_update, Legacy.state, Legacy.input. rewrite Hx, Hu, Hb. simpl.
  f_equal. apply Qsum_ext. intros k _. rewrite Hcol. reflexivity.
Qed.

Lemma legacy_state_update_ext q q' a x1 x2 i :
  legacy_same_problem q q' ->
  (forall k, coef x1 k i = coef x2 k i) ->
  forall r, coef (legacy_state_update q' a x1 i) r O =
            coef (legacy_state_update q a x2 i) r O.
Proof.
  intros (Hx & _ & Hd & Hb) Hcol r.
  unfold legacy_state_update, Legacy.state. rewrite Hx, Hd, Hb. simpl.
  do 3 f_equal. apply Qsum_ext. intros k _. rewrite Hcol. reflexivity.
Qed.

Lemma legacy_forward_pass_stages a q0 k :
  let q := fold_left (fun q i => Legacy.forward_pass_iter i a q) (seq 0 k) q0 in
  legacy_same_problem q0 q /\
  forall i, (i < k)%nat ->
    (forall r, coef (Legacy.utrj (Legacy._fp_res q)) r i =
               coef (legacy_input_update q0 a (Legacy.xtrj (Legacy._fp_res q)) i) r O) /\
    (forall r, coef (Legacy.xtrj (Legacy._fp_res q)) r (i + 1) =
               coef (legacy_state_update q0 a (Legacy.xtrj (Legacy._fp_res q)) i) r O).
Proof.
  induction k as [|k IH].
  - simpl. split; [repeat split|]. intros i Hi. lia.
  - rewrite fold_left_seq_S.
    set (q := fold_left (fun q i => Legacy.forward_pass_iter i a q) (seq 0 k) q0) in *.
    cbv zeta in IH. destruct IH as (Hsame & Hst).
    cbv zeta.
    assert (Hsame' : legacy_same_problem q0 (Legacy.forward_pass_iter k a q)).
    { destruct Hsame as (H1 & H2 & H3 & H4). repeat split; simpl; assumption. }
    split; [exact Hsame'|].
    change (Legacy.xtrj (Legacy._fp_res (Legacy.forward_pass_iter k a q)))
      with (set_col (Legacy.xtrj (Legacy._fp_res q)) (k + 1)
                    (legacy_state_update q a (Legacy.xtrj (Legacy._fp_res q)) k)).
    change (Legacy.utrj (Legacy._fp_res (Legacy.forward_pass_iter k a q)))
      with (set_col (Legacy.utrj (Legacy._fp_res q)) k
                    (legacy_input_update q a (Legacy.xtrj (Legacy._fp_res q)) k)).
    intros i Hi.
    assert (Hkeep : forall j, (j <= k)%nat -> forall r,
               coef (set_col (Legacy.xtrj (Legacy._fp_res q)) (k + 1)
                             (legacy_state_update q a (Legacy.xtrj (Legacy._fp_res q)) k))
                    r j =
               coef (Legacy.xtrj (Legacy._fp_res q)) r j).
    { intros j Hj r. apply coef_set_col_ne. lia. }
    destruct (Nat.eq_dec i k) as [-> | Hne].
    + split; intros r.
      * rewrite coef_set_col_eq.
        apply legacy_input_update_ext; [exact Hsame|].
        intros r'. symmetry. apply Hkeep. lia.
      * rewrite coef_set_col_eq.
        apply legacy_state_update_ext; [exact Hsame|].
        intros r'. symmetry. apply Hkeep. lia.
    + destruct (Hst i ltac:(lia)) as (Hu & Hx).
      split; intros r.
      * rewrite coef_set_col_ne by lia. rewrite Hu.
        apply legacy_input_update_ext; [repeat split|].
        intros r'. symmetry. apply Hkeep. lia.
      * rewrite coef_set_col_ne by lia. rewrite Hx.
        apply legacy_state_update_ext; [repeat split|].
        intros r'. symmetry. apply Hkeep. lia.
Qed.

End LegacyForwardPassFacts.

(** C4, as amended.  For every stage i < N the line-search forward pass
    with step size alpha leaves in the candidate trajectory
    uhat_i = u_i + alpha*l_i + L_i*dx_i and
    xhat_{i+1} = x_{i+1} + (A_i + B_i*L_i)*dx_i + B_i*alpha*l_i + alpha*d_i
    with dx_i = xhat_i - x_i: the defect enters multiplied by alpha.  The
    forward pass of the earlier solver computes the same uhat_j, and adds
    the defect d_j to xhat_{j+1} in full, not multiplied by alpha. *)
Theorem forward_pass_update (s : IterativeLQR) (q : Legacy.IterativeLQR)
    (a : Q) (i j : nat) :
  (i < _N s)%nat ->
  (j < Legacy._N q)%nat ->
  let xhat := fp_xtrj (_fp_res (forward_pass a s)) in
  let uhat := fp_utrj (_fp_res (forward_pass a s)) in
  let xold := Legacy.xtrj (Legacy._fp_res (Legacy.forward_pass a q)) in
  let uold := Legacy.utrj (Legacy._fp_res (Legacy.forward_pass a q)) in
  (forall r, coef uhat r i = coef (spec_input_update s a xhat i) r O) /\
  (forall r, coef xhat r (i + 1) = coef (spec_state_update s a xhat i) r O) /\
  (forall r, coef uold r j = coef (legacy_input_update q a xold j) r O) /\
  (forall r, coef xold r (j + 1) = coef (legacy_state_update q a xold j) r O).
Proof.
  intros Hi Hj. cbv zeta.
  destruct (forward_pass_trajectories a s) as (Hx & Hu & _ & _).
  rewrite Hx, Hu.
  pose proof (forward_pass_stages a (forward_pass_start a s) (_N s)) as Hst.
  cbv zeta in Hst. destruct Hst as (_ & _ & Hst).
  destruct (Hst i Hi) as (Hui & Hxi).
  pose proof (legacy_forward_pass_stages a
                (Legacy.with_fp_res
                   (Legacy.mk_ForwardPassResult (Legacy._xtrj q) (Legacy._utrj q)) q)
                (Legacy._N q)) as Hlg.
  cbv zeta in Hlg. destruct Hlg as (_ & Hlg).
  destruct (Hlg j Hj) as (Huj & Hxj).
  repeat split; intros r.
  - rewrite Hui. apply spec_input_update_ext; [repeat split | reflexivity].
  - rewrite Hxi. apply spec_state_update_ext; [repeat split | reflexivity].
  - exact (Huj r).
  - exact (Hxj r).
Qed.

Lemma forward_pass_update_witness :
  (0 < _N solver0)%nat /\ (0 < Legacy._N legacy_solver_defect)%nat /\
  let xhat := fp_xtrj (_fp_res (forward_pass (1 # 2) solver0)) in
  let uhat := fp_utrj (_fp_res (forward_pass (1 # 2) solver0)) in
  let xold := Legacy.xtrj (Legacy._fp_res (Legacy.forward_pass (1 # 2) legacy_solver_defect)) in
  let uold := Legacy.utrj (Legacy._fp_res (Legacy.forward_pass (1 # 2) legacy_solver_defect)) in
  (forall r, coef uhat r 0%nat = coef (spec_input_update solver0 (1 # 2) xhat 0) r O) /\
  (forall r, coef xhat r (0 + 1)%nat = coef (spec_state_update solver0 (1 # 2) xhat 0) r O) /\
  (forall r, coef uold r 0%nat = coef (legacy_input_update legacy_solver_defect (1 # 2) xold 0) r O) /\
  (forall r, coef xold r (0 + 1)%nat =
             coef (legacy_state_update legacy_solver_defect (1 # 2) xold 0) r O).
Proof.
  split; [simpl; lia|]. split; [simpl; lia|].
  apply (forward_pass_update solver0 legacy_solver_defect (1 # 2) 0%nat 0%nat);
    simpl; lia.
Defined.

(** C4, as stated, fails on the earlier forward pass: with one stage, zero
    Jacobians and gains, defect d_0 = 1 and alpha = 1/2 it leaves
    xhat_1 = 1, while the claimed update gives alpha*d_0 = 1/2. *)
Lemma forward_pass_update_counterexample :
  let xold := Legacy.xtrj (Legacy._fp_res (Legacy.forward_pass (1 # 2) legacy_solver_defect)) in
  coef xold 0 1 == 1 /\
  coef (legacy_spec_state_update legacy_solver_defect (1 # 2) xold 0) 0 0 == 1 # 2 /\
  ~ coef xold 0 1 == coef (legacy_spec_state_update legacy_solver_defect (1 # 2) xold 0) 0 0.
Proof.
  cbv zeta. split; [vm_compute; reflexivity|]. split; [vm_compute; reflexivity|].
  intros Heq. vm_compute in Heq. discriminate Heq.
Qed.

(* ================================================================== *)
(** ** Properties: exceptions and frames *)

Lemma bind_inv {A B : Type} (m : M A) (k : A -> M B) s r s' :
  bind m k s = (r, s') ->
  (exists e, m s = (inl e, s') /\ r = inl e) \/
  (exists a s1, m s = (inr a, s1) /\ k a s1 = (r, s')).
Proof.
  unfold bind. destruct (m s) as [[e | a] s1] eqn:E; intros Heq.
  - left. exists e. inversion Heq; subst. split; reflexivity.
  - right. exists a, s1. split; [reflexivity | exact Heq].
Qed.

Lemma bind_ok_inv {A B : Type} (m : M A) (k : A -> M B) s b s' :
  bind m k s = (inr b, s') ->
  exists a s1, m s = (inr a, s1) /\ k a s1 = (inr b, s').
Proof.
  intros Heq. apply bind_inv in Heq as [(e & _ & He) | Hok]; [discriminate He | exact Hok].
Qed.

Section Preserves.

Context {ext : Externals}.
Variable R : IterativeLQR -> IterativeLQR -> Prop.
Hypothesis R_refl : forall s, R s s.
Hypothesis R_trans : forall s1 s2 s3, R s1 s2 -> R s2 s3 -> R s1 s3.

Lemma preserves_ret {A : Type} (a : A) : preserves R (ret a).
Proof. intros s r s' Heq. inversion Heq; subst. apply R_refl. Qed.

Lemma preserves_throw {A : Type} (e : Exn) : preserves R (@throw A e).
Proof. intros s r s' Heq. inversion Heq; subst. apply R_refl. Qed.

Lemma preserves_get : preserves R get.
Proof. intros s r s' Heq. inversion Heq; subst. apply R_refl. Qed.

Lemma preserves_throw_nan (m : DMat) : preserves R (throw_nan m).
Proof.
  intros s r s' Heq. unfold throw_nan in Heq.
  destruct (THROW_NAN m); inversion Heq; subst; apply R_refl.
Qed.

Lemma preserves_modify (f : IterativeLQR -> IterativeLQR) :
  (forall s, R s (f s)) -> preserves R (modify f).
Proof. intros Hf s r s' Heq. inversion Heq; subst. apply Hf. Qed.

Lemma preserves_bind {A B : Type} (m : M A) (k : A -> M B) :
  preserves R m -> (forall a, preserves R (k a)) -> preserves R (bind m k).
Proof.
  intros Hm Hk s r s' Heq.
  apply bind_inv in Heq as [(e & Hms & _) | (a & s1 & Hms & Hks)].
  - exact (Hm _ _ _ Hms).
  - exact (R_trans _ _ _ (Hm _ _ _ Hms) (Hk a _ _ _ Hks)).
Qed.

(** A loop over stage or row indices that keeps [R] at every turn. *)
Lemma fold_left_keeps {I : Type} (f : IterativeLQR -> I -> IterativeLQR) (l : list I) :
  (forall s i, R s (f s i)) -> forall s, R s (fold_left f l s).
Proof.
  intros Hf. induction l as [|i l IH]; intros s; simpl; [apply R_refl|].
  exact (R_trans _ _ _ (Hf s i) (IH (f s i))).
Qed.

End Preserves.

Ltac preserves_step :=
  first
    [ apply preserves_bind; [assumption | | intros ? ]
    | apply preserves_ret; assumption
    | apply preserves_throw; assumption
    | apply preserves_get; assumption
    | apply preserves_throw_nan; assumption
    | apply preserves_modify ].

Section Frame.

Context {ext : Externals} {T : Type} (proj : IterativeLQR -> T).

Hypothesis proj_ctg : forall c s, proj (with_constraint_to_go c s) = proj s.
Hypothesis proj_stdout : forall o s, proj (with_stdout o s) = proj s.
Hypothesis proj_tmp : forall t s, proj (with_tmp t s) = proj s.
Hypothesis proj_bp_res :
  forall g i s, (forall r, bp_lz (g r) = bp_lz r) ->
                proj (with_bp_res (alter g i (_bp_res s)) s) = proj s.

Lemma keeps_refl s : keeps proj s s.
Proof. reflexivity. Qed.

Lemma keeps_trans s1 s2 s3 :
  keeps proj s1 s2 -> keeps proj s2 s3 -> keeps proj s1 s3.
Proof. unfold keeps. congruence. Qed.

Lemma add_bound_constraint_keeps k s : proj (add_bound_constraint k s) = proj s.
Proof. unfold add_bound_constraint. apply proj_ctg. Qed.

Lemma stack_constraints_keeps i s : proj (stack_constraints i s) = proj s.
Proof.
  unfold stack_constraints. cbv zeta.
  rewrite proj_bp_res by reflexivity.
  rewrite add_bound_constraint_keeps, !proj_ctg. reflexivity.
Qed.

Lemma push_infeasible_keeps Cinf hinf s : proj (push_infeasible Cinf hinf s) = proj s.
Proof.
  unfold push_infeasible.
  rewrite <- (proj_ctg ctg_clear s).
  apply (fold_left_keeps (keeps proj) keeps_refl keeps_trans).
  intros s0 j. unfold keeps.
  destruct (linearly_dependent Cinf hinf j); [apply proj_stdout | apply proj_ctg].
Qed.

Lemma handle_constraints_keeps i : preserves (keeps proj) (handle_constraints i).
Proof.
  pose proof keeps_refl as Hr. pose proof keeps_trans as Ht.
  unfold handle_constraints.
  preserves_step.
  { preserves_step. intros s. apply stack_constraints_keeps. }
  preserves_step; [preserves_step|].
  destruct (Nat.eqb _ 0); [preserves_step|].
  do 3 (preserves_step; [preserves_step|]).
  destruct (constraint_rank _ _ _) as [e | [rank codQ]]; [preserves_step|].
  preserves_step; [preserves_step|].
  preserves_step; [|preserves_step].
  preserves_step. intros s. apply push_infeasible_keeps.
Qed.

Lemma solve_stage_keeps i : preserves (keeps proj) (solve_stage i).
Proof.
  pose proof keeps_refl as Hr. pose proof keeps_trans as Ht.
  unfold solve_stage.
  preserves_step; [apply handle_constraints_keeps|].
  preserves_step; [preserves_step|].
  do 2 (preserves_step; [preserves_step|]).
  preserves_step; [preserves_step; intros s; apply proj_tmp|].
  destruct (form_kkt _ _ _ _ _ _ _) as [K kx0].
  do 2 (preserves_step; [preserves_step|]).
  destruct (solve_kkt _ K kx0) as [e | u_lam]; preserves_step.
Qed.

Hypothesis proj_value : forall v s, proj (with_value v s) = proj s.

Lemma backward_pass_iter_keeps i : preserves (keeps proj) (backward_pass_iter i).
Proof.
  pose proof keeps_refl as Hr. pose proof keeps_trans as Ht.
  unfold backward_pass_iter.
  preserves_step; [apply solve_stage_keeps|].
  preserves_step; [preserves_step|].
  preserves_step; [preserves_step|].
  destruct (negb (allFinite (ks_u_lam a)) || hasNaN (ks_u_lam a)); [preserves_step|].
  preserves_step.
  { preserves_step. intros s. apply proj_bp_res. reflexivity. }
  preserves_step; [preserves_step; intros s; apply proj_value|].
  preserves_step; preserves_step.
Qed.

End Frame.

Section BackwardPassIter.

Context {ext : Externals}.

Lemma get_inv s r s' : get s = (r, s') -> r = inr s /\ s' = s.
Proof. intros Heq. inversion Heq; subst. split; reflexivity. Qed.

Lemma modify_inv f s r s' : modify f s = (r, s') -> r = inr tt /\ s' = f s.
Proof. intros Heq. inversion Heq; subst. split; reflexivity. Qed.

Lemma throw_nan_ok m s u s' :
  throw_nan m s = (inr u, s') -> s' = s /\ THROW_NAN m = false.
Proof.
  unfold throw_nan. destruct (THROW_NAN m); intros Heq; inversion Heq; subst.
  split; reflexivity.
Qed.

Lemma throw_nan_not_hessian m s s' :
  throw_nan m s <> (inl HessianIndefinite, s').
Proof. unfold throw_nan. destruct (THROW_NAN m); intros Heq; discriminate Heq. Qed.

Lemma map_lz_alter (g : BackwardPassResult -> BackwardPassResult) i l :
  (forall r, bp_lz (g r) = bp_lz r) ->
  map bp_lz (alter g i l) = map bp_lz l.
Proof.
  intros Hg. revert i. induction l as [|r l IH]; intros [|i]; simpl; try reflexivity.
  - rewrite Hg. reflexivity.
  - f_equal. apply IH.
Qed.

(** The backward pass never writes the member [lz]. *)
Lemma backward_pass_iter_keeps_lz i : preserves (keeps all_lz) (backward_pass_iter i).
Proof.
  apply backward_pass_iter_keeps; try reflexivity.
  intros g j s Hg. unfold all_lz. simpl. apply map_lz_alter, Hg.
Qed.

Lemma solve_stage_keeps_value i : preserves (keeps _value) (solve_stage i).
Proof. apply solve_stage_keeps; reflexivity. Qed.

Lemma solve_stage_keeps_options i : preserves (keeps reg_options) (solve_stage i).
Proof. apply solve_stage_keeps; reflexivity. Qed.

Lemma backward_pass_iter_keeps_options i :
  preserves (keeps reg_options) (backward_pass_iter i).
Proof. apply backward_pass_iter_keeps; reflexivity. Qed.

End BackwardPassIter.

(* ================================================================== *)
(** ** Properties: merit slope *)

(** C5, evaluation at the failing input.  The backward pass never writes
    the member [lz] that [compute_merit_slope] reads.  On the one-stage
    problem with stage cost u^2/2 + u it saves the feedforward step
    l_0 = -1 and the input gradient hu_0 = 1 while [lz] is still zero, so
    the slope returned is 0 whereas
    sum l' * hu - mu_f*|D| - mu_c*|G| is -1. *)
Theorem compute_merit_slope_failing_input :
  (forall (ext : Externals) (i : nat) (s s' : IterativeLQR) (out : Exn + unit),
     backward_pass_iter i s = (out, s') -> all_lz s' = all_lz s) /\
  let r := @backward_pass_iter ext0 0 solver_lqr in
  fst r = inr tt /\
  coef (bp_lu (_bp_res (snd r) !!! 0%nat)) 0 0 == - (1) /\
  coef (tmp_hu (_tmp (snd r) !!! 0%nat)) 0 0 == 1 /\
  compute_merit_slope 0 0 0 0 (snd r) == 0 /\
  spec_merit_slope 0 0 0 0 (snd r) == - (1).
Proof.
  split.
  - intros ext i s s' out Hrun.
    exact (backward_pass_iter_keeps_lz i s out s' Hrun).
  - cbv zeta. repeat split; vm_compute; reflexivity.
Qed.

(* ================================================================== *)
(** ** Properties: symmetry of the value function *)

Section ValueSymmetry.

Context {ext : Externals}.

Lemma Qsum_eq (n : nat) (f g : nat -> Q) :
  (forall k, (k < n)%nat -> f k == g k) -> Qsum n f == Qsum n g.
Proof.
  induction n as [|n IH]; intros Hfg; simpl; [reflexivity|].
  rewrite IH by (intros k Hk; apply Hfg; lia).
  rewrite (Hfg n) by lia. reflexivity.
Qed.

Lemma Qsum_plus (n : nat) (f g : nat -> Q) :
  Qsum n (fun k => f k + g k) == Qsum n f + Qsum n g.
Proof. induction n as [|n IH]; simpl; [reflexivity|]. rewrite IH. ring. Qed.

Lemma Qsum_scale (n : nat) (c : Q) (f : nat -> Q) :
  Qsum n (fun k => c * f k) == c * Qsum n f.
Proof. induction n as [|n IH]; simpl; [ring|]. rewrite IH. ring. Qed.

Lemma Qsum_swap (n m : nat) (f : nat -> nat -> Q) :
  Qsum n (fun i => Qsum m (fun j => f i j)) == Qsum m (fun j => Qsum n (fun i => f i j)).
Proof.
  induction n as [|n IH]; simpl.
  - induction m as [|m IHm]; simpl; [reflexivity|]. rewrite <- IHm. ring.
  - rewrite IH, <- Qsum_plus. reflexivity.
Qed.

Lemma quadratic_form_symmetric (n : nat) (L H : nat -> nat -> Q) (a b : nat) :
  (forall k l, H k l == H l k) ->
  Qsum n (fun k => L k a * Qsum n (fun l => H k l * L l b)) ==
  Qsum n (fun k => L k b * Qsum n (fun l => H k l * L l a)).
Proof.
  intros Hsym.
  transitivity (Qsum n (fun k => Qsum n (fun l => L k a * (H k l * L l b)))).
  { apply Qsum_eq. intros k _. symmetry. apply Qsum_scale. }
  rewrite Qsum_swap.
  apply Qsum_eq. intros l _.
  rewrite <- Qsum_scale. apply Qsum_eq. intros k _.
  rewrite (Hsym l k). ring.
Qed.

(** With symmetric [Hxx] and [Huu] of matching dimension the matrix is
    symmetric already before the averaging [S = 0.5*(S + S')]. *)
Lemma update_S_raw_symmetric (Hxx Huu Hux Lu : Mat) :
  is_symmetric Hxx -> is_symmetric Huu ->
  cols Huu = rows Lu -> rows Hux = rows Lu ->
  is_symmetric (update_S_raw Hxx Huu Hux Lu).
Proof.
  intros HsymX HsymU Hdim1 Hdim2 a b.
  unfold update_S_raw. simpl. rewrite Hdim1, Hdim2.
  set (n := rows Lu).
  assert (Hsplit : forall c e,
            Qsum n (fun k => coef Lu k c *
                             (Qsum n (fun l => coef Huu k l * coef Lu l e) + coef Hux k e))
            == Qsum n (fun k => coef Lu k c * Qsum n (fun l => coef Huu k l * coef Lu l e))
               + Qsum n (fun k => coef Lu k c * coef Hux k e)).
  { intros c e. rewrite <- Qsum_plus. apply Qsum_eq. intros k _. ring. }
  rewrite !Hsplit.
  rewrite (quadratic_form_symmetric n (coef Lu) (coef Huu) a b HsymU).
  rewrite (HsymX a b).
  assert (Hcomm : forall c e,
            Qsum n (fun k => coef Hux k c * coef Lu k e)
            == Qsum n (fun k => coef Lu k e * coef Hux k c)).
  { intros c e. apply Qsum_eq. intros k _. ring. }
  rewrite (Hcomm a b), (Hcomm b a). ring.
Qed.

(** The averaging in place keeps a symmetric matrix symmetric and leaves
    a non-symmetric one non-symmetric: above the diagonal it stores
    (3*S_ij + S_ji)/4, below it (S_ij + S_ji)/2. *)
Lemma symmetrize_in_place_symmetric (S : Mat) :
  is_symmetric (symmetrize_in_place S) <-> is_symmetric S.
Proof.
  split; intros Hsym a b.
  - destruct (Nat.lt_trichotomy a b) as [Hlt | [-> | Hgt]]; [|reflexivity|].
    + specialize (Hsym a b). cbn [coef symmetrize_in_place] in Hsym.
      destruct (Nat.ltb_spec a b); [|lia].
      destruct (Nat.ltb_spec b a); [lia|]. lra.
    + specialize (Hsym b a). cbn [coef symmetrize_in_place] in Hsym.
      destruct (Nat.ltb_spec b a); [|lia].
      destruct (Nat.ltb_spec a b); [lia|]. lra.
  - pose proof (Hsym a b) as Hab. cbn [coef symmetrize_in_place].
    destruct (Nat.ltb_spec a b); destruct (Nat.ltb_spec b a); try lia; lra.
Qed.

Lemma update_S_symmetric (Hxx Huu Hux Lu : Mat) :
  is_symmetric Hxx -> is_symmetric Huu ->
  cols Huu = rows Lu -> rows Hux = rows Lu ->
  is_symmetric (update_S Hxx Huu Hux Lu).
Proof.
  intros HsymX HsymU Hdim1 Hdim2. unfold update_S.
  apply symmetrize_in_place_symmetric, update_S_raw_symmetric; assumption.
Qed.

Lemma add_diagonal_symmetric (a : Q) (M : Mat) :
  is_symmetric M -> is_symmetric (add_diagonal a M).
Proof.
  intros Hsym i j. cbn [coef add_diagonal].
  rewrite (Nat.eqb_sym j i). destruct (Nat.eqb i j); rewrite (Hsym i j); reflexivity.
Qed.

Lemma madd_symmetric (A B : Mat) :
  is_symmetric A -> is_symmetric B -> is_symmetric (madd A B).
Proof. intros HA HB i j. cbn [coef madd]. rewrite (HA i j), (HB i j). reflexivity. Qed.

(** [A' * (S * A)] is symmetric with [S]. *)
Lemma congruence_symmetric (A S : Mat) :
  is_symmetric S -> rows A = cols S ->
  is_symmetric (mmul (transpose A) (mmul S A)).
Proof.
  intros Hsym Hdim a b. cbn [coef mmul transpose rows cols]. rewrite Hdim.
  apply (quadratic_form_symmetric (cols S) (coef A) (coef S) a b). exact Hsym.
Qed.

(** [(B' * S) * B], as the input Hessian is formed. *)
Lemma congruence_symmetric_left (B S : Mat) :
  is_symmetric S -> rows B = cols S ->
  is_symmetric (mmul (mmul (transpose B) S) B).
Proof.
  intros Hsym Hdim a b. cbn [coef mmul transpose rows cols]. rewrite Hdim.
  set (n := cols S).
  assert (Hassoc : forall c e,
            Qsum n (fun l => Qsum n (fun k => coef B k c * coef S k l) * coef B l e)
            == Qsum n (fun k => coef B k c * Qsum n (fun l => coef S k l * coef B l e))).
  { intros c e.
    transitivity (Qsum n (fun l => Qsum n (fun k => coef B k c * (coef S k l * coef B l e)))).
    { apply Qsum_eq. intros l _.
      transitivity (coef B l e * Qsum n (fun k => coef B k c * coef S k l)); [ring|].
      rewrite <- Qsum_scale. apply Qsum_eq. intros k _. ring. }
    rewrite Qsum_swap. apply Qsum_eq. intros k _. apply Qsum_scale. }
  rewrite (Hassoc a b), (Hassoc b a).
  apply (quadratic_form_symmetric n (coef B) (coef S) a b). exact Hsym.
Qed.

(** The Hessians that a stage holds once its KKT system is solved. *)
Lemma solve_stage_hessians (i : nat) (s s1 : IterativeLQR) (k : KktStage) :
  solve_stage i s = (inr k, s1) ->
  let cost := _cost s !!! i in
  let dyn := _dyn s !!! i in
  let Snext := val_S (_value s !!! (i + 1)%nat) in
  ks_Hxx k = add_diagonal (_hxx_reg s)
               (madd (cost_Q cost)
                     (mmul (transpose (dyn_A dyn)) (mmul Snext (dyn_A dyn)))) /\
  ks_Huu k = add_diagonal (_huu_reg s)
               (madd (cost_R cost)
                     (mmul (mmul (transpose (dyn_B dyn)) Snext) (dyn_B dyn))) /\
  ks_Hux k = madd (cost_P cost) (mmul (transpose (dyn_B dyn)) (mmul Snext (dyn_A dyn))).
Proof.
  unfold solve_stage. intros H. cbv zeta.
  apply bind_ok_inv in H as (fc & s0 & Hh & H).
  assert (Hkeep : (_cost s0, _dyn s0, _value s0, _hxx_reg s0, _huu_reg s0)
                  = (_cost s, _dyn s, _value s, _hxx_reg s, _huu_reg s)).
  { apply (handle_constraints_keeps
             (fun s => (_cost s, _dyn s, _value s, _hxx_reg s, _huu_reg s))) in Hh;
      try reflexivity. exact Hh. }
  injection Hkeep as Hc Hd Hv Hx Hu.
  apply bind_ok_inv in H as (sg & s2 & Hg & H).
  apply get_inv in Hg as (Hg1 & Hg2). injection Hg1 as Hg1. subst sg s2.
  apply bind_ok_inv in H as (u1 & s3 & Hn & H). apply throw_nan_ok in Hn as (-> & _).
  apply bind_ok_inv in H as (u2 & s4 & Hn & H). apply throw_nan_ok in Hn as (-> & _).
  apply bind_ok_inv in H as (u3 & s5 & Hm & H). apply modify_inv in Hm as (_ & ->).
  destruct (form_kkt _ _ _ _ _ _ _) as [K kx0].
  apply bind_ok_inv in H as (u4 & s6 & Hn & H). apply throw_nan_ok in Hn as (-> & _).
  apply bind_ok_inv in H as (u5 & s7 & Hn & H). apply throw_nan_ok in Hn as (-> & _).
  destruct (solve_kkt _ K kx0) as [e | u_lam]; [discriminate H|].
  injection H as <- _. cbn [ks_Hxx ks_Huu ks_Hux].
  rewrite Hc, Hd, Hv, Hx, Hu. repeat split; reflexivity.
Qed.

(** A successful [backward_pass_iter] stores at stage [i] the value matrix
    computed by [update_S] from the Hessians of the stage and the feedback
    gain read off the KKT solution. *)
Lemma backward_pass_iter_stores_S i s s' :
  backward_pass_iter i s = (inr tt, s') ->
  exists k s1 sv,
    solve_stage i s = (inr k, s1) /\
    _value s' =
      <[i := mk_ValueFunction
               (update_S (ks_Hxx k) (ks_Huu k) (ks_Hux k)
                         (topLeftCorner (finite_part (ks_u_lam k)) (_nu s) (_nx s)))
               sv]> (_value s).
Proof.
  unfold backward_pass_iter. intros H.
  apply bind_ok_inv in H as (k & s1 & Hst & H).
  pose proof Hst as Hkeep.
  apply (solve_stage_keeps (fun s => (_value s, _nu s, _nx s))) in Hkeep;
    try reflexivity.
  unfold keeps in Hkeep. injection Hkeep as Hv Hnu Hnx.
  apply bind_ok_inv in H as (sg & s2 & Hg & H).
  apply get_inv in Hg as (Hg1 & Hg2). injection Hg1 as Hg1. subst sg s2.
  apply bind_ok_inv in H as (u1 & s3 & Hn & H). apply throw_nan_ok in Hn as (-> & _).
  destruct (negb (allFinite (ks_u_lam k)) || hasNaN (ks_u_lam k)); [discriminate H|].
  apply bind_ok_inv in H as (u2 & s4 & Hm & H). apply modify_inv in Hm as (_ & ->).
  apply bind_ok_inv in H as (u3 & s5 & Hm & H). apply modify_inv in Hm as (_ & ->).
  apply bind_ok_inv in H as (u4 & s6 & Hn & H). apply throw_nan_ok in Hn as (-> & _).
  apply throw_nan_ok in H as (-> & _).
  exists k, s1. eexists. split; [exact Hst|].
  simpl. rewrite Hv, Hnu, Hnx. reflexivity.
Qed.

(** At a stage whose cost Hessians and successor value matrix are
    symmetric, of the dimensions of the problem, a successful
    [backward_pass_iter] stores a symmetric value matrix: the update is
    symmetric before the averaging, which then changes nothing. *)
Lemma backward_pass_iter_symmetric i s s' :
  backward_pass_iter i s = (inr tt, s') ->
  (i < length (_value s))%nat ->
  let cost := _cost s !!! i in
  let dyn := _dyn s !!! i in
  let Snext := val_S (_value s !!! (i + 1)%nat) in
  is_symmetric (cost_Q cost) -> is_symmetric (cost_R cost) -> is_symmetric Snext ->
  rows (dyn_A dyn) = cols Snext -> rows (dyn_B dyn) = cols Snext ->
  cols (cost_R cost) = _nu s -> rows (cost_P cost) = _nu s ->
  is_symmetric (val_S (_value s' !!! i)) /\
  cols (val_S (_value s' !!! i)) = cols (cost_Q cost).
Proof.
  intros Hrun Hi. cbv zeta. intros HQ HR HS HA HB HdimR HdimP.
  apply backward_pass_iter_stores_S in Hrun as (k & s1 & sv & Hst & Hval).
  destruct (solve_stage_hessians i s s1 k Hst) as (Hxx & Huu & Hux).
  cbv zeta in Hxx, Huu, Hux.
  rewrite Hval, list_lookup_total_insert_eq by lia. cbn [val_S].
  split.
  - apply update_S_symmetric.
    + rewrite Hxx. apply add_diagonal_symmetric, madd_symmetric; [exact HQ|].
      apply congruence_symmetric; assumption.
    + rewrite Huu. apply add_diagonal_symmetric, madd_symmetric; [exact HR|].
      apply congruence_symmetric_left; assumption.
    + rewrite Huu. exact HdimR.
    + rewrite Hux. exact HdimP.
  - rewrite Hxx. reflexivity.
Qed.

End ValueSymmetry.


(* ================================================================== *)
(** ** Properties: regularisation retry *)

Lemma forallb_lt_true (n : nat) (p : nat -> bool) :
  forallb_lt n p = true <-> forall k, (k < n)%nat -> p k = true.
Proof.
  induction n as [|n IH]; simpl.
  - split; [intros _ k Hk; lia | reflexivity].
  - rewrite andb_true_iff, IH. split.
    + intros [Hlt Hn] k Hk. destruct (Nat.eq_dec k n) as [-> | Hne]; [exact Hn|].
      apply Hlt. lia.
    + intros Hall. split; [intros k Hk; apply Hall; lia | apply Hall; lia].
Qed.

Lemma allFinite_false (A : DMat) : has_non_finite A -> allFinite A = false.
Proof.
  intros (a & b & Ha & Hb & Hnf).
  destruct (allFinite A) eqn:E; [|reflexivity].
  unfold allFinite in E. rewrite forallb_lt_true in E.
  specialize (E a Ha). rewrite forallb_lt_true in E.
  specialize (E b Hb). congruence.
Qed.

Lemma allFinite_true (A : DMat) :
  allFinite A = true ->
  forall a b, (a < drows A)%nat -> (b < dcols A)%nat -> isfinite (dcoef A a b) = true.
Proof.
  unfold allFinite. rewrite forallb_lt_true. intros Hall a b Ha Hb.
  specialize (Hall a Ha). rewrite forallb_lt_true in Hall. exact (Hall b Hb).
Qed.

Section NoHessian.

Context {ext : Externals}.

Lemma no_hessian_ret {A : Type} (a : A) : no_hessian (ret a).
Proof. intros s s' Heq. discriminate Heq. Qed.

Lemma no_hessian_get : no_hessian get.
Proof. intros s s' Heq. discriminate Heq. Qed.

Lemma no_hessian_modify f : no_hessian (modify f).
Proof. intros s s' Heq. discriminate Heq. Qed.

Lemma no_hessian_throw {A : Type} (e : Exn) :
  e <> HessianIndefinite -> no_hessian (@throw A e).
Proof. intros He s s' Heq. inversion Heq. contradiction. Qed.

Lemma no_hessian_throw_nan m : no_hessian (throw_nan m).
Proof. intros s s'. apply throw_nan_not_hessian. Qed.

Lemma no_hessian_bind {A B : Type} (m : M A) (k : A -> M B) :
  no_hessian m -> (forall a, no_hessian (k a)) -> no_hessian (bind m k).
Proof.
  intros Hm Hk s s' Heq.
  apply bind_inv in Heq as [(e & Hms & He) | (a & s1 & Hms & Hks)].
  - injection He as <-. exact (Hm _ _ Hms).
  - exact (Hk a _ _ Hks).
Qed.

Lemma handle_constraints_no_hessian i : no_hessian (handle_constraints i).
Proof.
  unfold handle_constraints.
  apply no_hessian_bind; [apply no_hessian_modify | intros _].
  apply no_hessian_bind; [apply no_hessian_get | intros s].
  destruct (Nat.eqb _ 0); [apply no_hessian_ret|].
  do 3 (apply no_hessian_bind; [apply no_hessian_throw_nan | intros _]).
  destruct (constraint_rank _ _ _) as [e | [rank codQ]] eqn:Hrank.
  - apply no_hessian_throw.
    unfold constraint_rank in Hrank.
    destruct (_constr_decomp_type s); inversion Hrank; discriminate.
  - apply no_hessian_bind; [apply no_hessian_throw_nan | intros _].
    apply no_hessian_bind; [apply no_hessian_modify | intros _].
    apply no_hessian_ret.
Qed.

Lemma solve_stage_no_hessian i : no_hessian (solve_stage i).
Proof.
  unfold solve_stage.
  apply no_hessian_bind; [apply handle_constraints_no_hessian | intros fc].
  apply no_hessian_bind; [apply no_hessian_get | intros s].
  do 2 (apply no_hessian_bind; [apply no_hessian_throw_nan | intros _]).
  apply no_hessian_bind; [apply no_hessian_modify | intros _].
  destruct (form_kkt _ _ _ _ _ _ _) as [K kx0].
  do 2 (apply no_hessian_bind; [apply no_hessian_throw_nan | intros _]).
  destruct (solve_kkt _ K kx0) as [e | u_lam] eqn:Hsolve.
  - apply no_hessian_throw. unfold solve_kkt in Hsolve.
    destruct (_kkt_decomp_type s); inversion Hsolve; discriminate.
  - apply no_hessian_ret.
Qed.

Lemma optimize_initial_state_no_hessian : no_hessian optimize_initial_state.
Proof.
  unfold optimize_initial_state.
  apply no_hessian_bind; [apply no_hessian_get|]. intros s.
  destruct (fixed_initial_state s); [apply no_hessian_modify|].
  do 2 (apply no_hessian_bind; [apply no_hessian_throw_nan | intros _]).
  destruct (_kkt_decomp_type s);
    try (apply no_hessian_throw; discriminate);
    (apply no_hessian_bind; [apply no_hessian_throw_nan | intros _];
     apply no_hessian_bind; [apply no_hessian_modify | intros _];
     apply no_hessian_modify).
Qed.

Lemma backward_pass_finish_no_hessian : no_hessian backward_pass_finish.
Proof.
  unfold backward_pass_finish.
  apply no_hessian_bind; [apply optimize_initial_state_no_hessian | intros _].
  apply no_hessian_modify.
Qed.

(** [HessianIndefinite] never leaves [backward_pass]. *)
Lemma backward_pass_never_hessian fuel :
  forall s r s', backward_pass fuel s = Some (r, s') -> r <> inl HessianIndefinite.
Proof.
  induction fuel as [|fuel IH]; intros s r s' Heq; [discriminate Heq|].
  simpl in Heq.
  destruct (backward_pass_stages (_N s) (backward_pass_init s)) as [[e | u] s1].
  - destruct e.
    + exact (IH _ _ _ Heq).
    + injection Heq as <- <-. discriminate.
    + injection Heq as <- <-. discriminate.
  - intros ->. injection Heq as Heq. exact (backward_pass_finish_no_hessian _ _ Heq).
Qed.

End NoHessian.

Section Retry.

Context {ext : Externals}.

Lemma backward_pass_init_options s : reg_options (backward_pass_init s) = reg_options s.
Proof. reflexivity. Qed.

Lemma stage_reached_options s0 k s :
  stage_reached s0 k s -> reg_options s = reg_options s0.
Proof.
  induction 1 as [|i s s' _ IH Hrun].
  - apply backward_pass_init_options.
  - apply backward_pass_iter_keeps_options in Hrun. unfold keeps in Hrun. congruence.
Qed.

Lemma stage_reached_stages s0 k s :
  stage_reached s0 k s ->
  backward_pass_stages (_N s0) (backward_pass_init s0) = backward_pass_stages k s.
Proof.
  induction 1 as [|i s s' _ IH Hrun]; [reflexivity|].
  rewrite IH. simpl. unfold bind. rewrite Hrun. reflexivity.
Qed.

(** A KKT solution with a NaN or an infinite coefficient, let through by
    [THROW_NAN], makes the stage throw [HessianIndefinite]. *)
Lemma backward_pass_iter_raises i s k s1 :
  solve_stage i s = (inr k, s1) ->
  THROW_NAN (ks_u_lam k) = false ->
  has_non_finite (ks_u_lam k) ->
  backward_pass_iter i s = (inl HessianIndefinite, s1).
Proof.
  intros Hsolve Hmacro Hnf.
  unfold backward_pass_iter, bind. rewrite Hsolve. simpl.
  unfold throw_nan. rewrite Hmacro.
  rewrite (allFinite_false _ Hnf). reflexivity.
Qed.

Lemma increase_regularization_reg s :
  _hxx_reg (increase_regularization s) =
  (let r := (if Qltb (_hxx_reg s) lit_1em6 then 1 else _hxx_reg s)
            * _hxx_reg_growth_factor s in
   if Qltb r (_hxx_reg_base s) then _hxx_reg_base s else r).
Proof. reflexivity. Qed.

Lemma increase_regularization_base s :
  _hxx_reg_base s <= _hxx_reg (increase_regularization s).
Proof.
  rewrite increase_regularization_reg. cbv zeta.
  destruct (Qltb _ (_hxx_reg_base s)) eqn:E; [apply Qle_refl|].
  apply Qltb_ge in E. exact E.
Qed.

End Retry.

(** What the explicit test after the solve would do if it were reached.
    Let the loop of [backward_pass], entered on [s0], arrive at stage i,
    let the KKT solution of that stage contain a NaN or an infinite
    coefficient, and let [THROW_NAN] let it through (a macro compiled to
    nothing, for instance).  Then the stage throws [HessianIndefinite];
    [backward_pass] catches it and continues as [backward_pass] on the
    solver with [_hxx_reg] increased -- set to 1 if it was below 1e-6,
    multiplied by the growth factor, and raised to [_hxx_reg_base] if it
    is still below it -- which starts again at stage N; and the outcome of
    [backward_pass] is never [HessianIndefinite]. *)
Lemma hessian_indefinite_retry `{Externals} (fuel i : nat)
    (s0 s s1 : IterativeLQR) (k : KktStage) :
  stage_reached s0 (S i) s ->
  solve_stage i s = (inr k, s1) ->
  THROW_NAN (ks_u_lam k) = false ->
  has_non_finite (ks_u_lam k) ->
  let s2 := increase_regularization s1 in
  let r := (if Qltb (_hxx_reg s0) lit_1em6 then 1 else _hxx_reg s0)
           * _hxx_reg_growth_factor s0 in
  backward_pass_iter i s = (inl HessianIndefinite, s1) /\
  backward_pass (S fuel) s0 = backward_pass fuel s2 /\
  _hxx_reg s2 = (if Qltb r (_hxx_reg_base s0) then _hxx_reg_base s0 else r) /\
  _hxx_reg_base s0 <= _hxx_reg s2 /\
  stage_reached s2 (_N s0) (backward_pass_init s2) /\
  forall out s', backward_pass (S fuel) s0 = Some (out, s') ->
                 out <> inl HessianIndefinite.
Proof.
  intros Hreach Hsolve Hmacro Hnf. cbv zeta.
  pose proof (backward_pass_iter_raises i s k s1 Hsolve Hmacro Hnf) as Hraise.
  pose proof (stage_reached_options _ _ _ Hreach) as Hopt.
  pose proof (solve_stage_keeps_options i _ _ _ Hsolve) as Hopt1.
  unfold keeps in Hopt1. rewrite Hopt in Hopt1.
  unfold reg_options in Hopt1. injection Hopt1 as HN Hreg Hbase Hgrow.
  split; [exact Hraise|].
  split.
  { simpl. rewrite (stage_reached_stages _ _ _ Hreach).
    simpl. unfold bind. rewrite Hraise. reflexivity. }
  split.
  { rewrite increase_regularization_reg. cbv zeta. rewrite Hreg, Hbase, Hgrow.
    reflexivity. }
  split.
  { rewrite <- Hbase. apply increase_regularization_base. }
  split.
  { rewrite <- HN.
    change (_N s1) with (_N (increase_regularization s1)). constructor. }
  intros out s'. apply backward_pass_never_hessian.
Qed.

Lemma hessian_indefinite_retry_witness :
  let s := backward_pass_init solver_singular in
  let s1 := snd (@solve_stage ext0 0 s) in
  let s2 := increase_regularization s1 in
  @backward_pass_iter ext0 0 s = (inl HessianIndefinite, s1) /\
  @backward_pass ext0 2 solver_singular = @backward_pass ext0 1 s2 /\
  _hxx_reg s2 = 1 * 10 /\
  fst <$> @backward_pass ext0 2 solver_singular = Some (inr tt).
Proof.
  cbv zeta.
  assert (Hfinal : fst <$> @backward_pass ext0 2 solver_singular = Some (inr tt))
    by (vm_compute; reflexivity).
  assert (Hok : is_ok (fst (@solve_stage ext0 0 (backward_pass_init solver_singular)))
                = true) by (vm_compute; reflexivity).
  assert (Hnan : match fst (@solve_stage ext0 0 (backward_pass_init solver_singular)) with
                 | inr k => isfinite (dcoef (ks_u_lam k) 0 0) = false /\
                            (0 < drows (ks_u_lam k))%nat /\ (0 < dcols (ks_u_lam k))%nat
                 | inl _ => True
                 end).
  { vm_compute. repeat split; lia. }
  destruct (@solve_stage ext0 0 (backward_pass_init solver_singular))
    as [[e | k] s1] eqn:Hsolve; [discriminate Hok|].
  cbv beta iota delta [fst snd] in Hnan |- *.
  destruct Hnan as (Hnf & Hr & Hc).
  destruct (@hessian_indefinite_retry ext0 1 0 solver_singular
              (backward_pass_init solver_singular) s1 k)
    as (Hraise & Hretry & Hreg & _).
  - apply (@reached_first ext0 solver_singular).
  - exact Hsolve.
  - reflexivity.
  - exists 0%nat, 0%nat. repeat split; assumption.
  - split; [exact Hraise|]. split; [exact Hretry|]. split; [exact Hreg|].
    exact Hfinal.
Defined.

Lemma hasNaN_not_finite (A : DMat) : hasNaN A = true -> allFinite A = false.
Proof.
  intros Hnan. destruct (allFinite A) eqn:Efin; [|reflexivity].
  exfalso. unfold hasNaN in Hnan. apply negb_true_iff in Hnan.
  assert (Hall : forallb_lt (drows A)
                   (fun i => forallb_lt (dcols A) (fun j => negb (isnan (dcoef A i j))))
                 = true).
  { apply forallb_lt_true. intros i Hi. apply forallb_lt_true. intros j Hj.
    pose proof (allFinite_true A Efin i j Hi Hj) as Hf.
    destruct (dcoef A i j); try discriminate Hf. reflexivity. }
  congruence.
Qed.

Section MacroBeforeTest.

Context {ext : Externals}.

(** [THROW_NAN] does what its name says at least on the matrices that the
    explicit test rejects. *)
Hypothesis THROW_NAN_non_finite : forall m, allFinite m = false -> THROW_NAN m = true.

(** The macro stands before the test: a stage never throws
    [HessianIndefinite]. *)
Lemma backward_pass_iter_no_hessian i : no_hessian (backward_pass_iter i).
Proof.
  unfold backward_pass_iter.
  apply no_hessian_bind; [apply solve_stage_no_hessian | intros k].
  apply no_hessian_bind; [apply no_hessian_get | intros s].
  cbv zeta.
  destruct (negb (allFinite (ks_u_lam k)) || hasNaN (ks_u_lam k)) eqn:Etest.
  - assert (Hfin : allFinite (ks_u_lam k) = false).
    { apply orb_true_iff in Etest as [Hf | Hn].
      - apply negb_true_iff in Hf. exact Hf.
      - apply hasNaN_not_finite. exact Hn. }
    intros s0 s' Hrun. unfold bind, throw_nan in Hrun.
    rewrite (THROW_NAN_non_finite _ Hfin) in Hrun. discriminate Hrun.
  - apply no_hessian_bind; [apply no_hessian_throw_nan | intros _].
    apply no_hessian_bind; [apply no_hessian_modify | intros _].
    apply no_hessian_bind; [apply no_hessian_modify | intros _].
    apply no_hessian_bind; [apply no_hessian_throw_nan | intros _].
    apply no_hessian_throw_nan.
Qed.

Lemma backward_pass_stages_no_hessian k : no_hessian (backward_pass_stages k).
Proof.
  induction k as [|k IH]; simpl.
  - apply no_hessian_ret.
  - apply no_hessian_bind; [apply backward_pass_iter_no_hessian | intros _; exact IH].
Qed.

(** So the catch of [backward_pass] is never entered: the first attempt
    decides, whatever the fuel. *)
Lemma backward_pass_no_retry fuel s :
  backward_pass (S fuel) s = backward_pass 1 s.
Proof.
  simpl.
  destruct (backward_pass_stages (_N s) (backward_pass_init s)) as [[e | u] s1] eqn:Hst;
    [|reflexivity].
  destruct e; try reflexivity.
  exfalso. exact (backward_pass_stages_no_hessian _ _ _ Hst).
Qed.

End MacroBeforeTest.

(** C2, evaluation at the failing input.  [THROW_NAN(u_lam)] stands before
    the test [if(!u_lam.allFinite() || u_lam.hasNaN())]: with a macro that
    throws on the matrices this test rejects, the test is never reached
    with such a matrix, no stage throws [HessianIndefinite] and
    [backward_pass] never retries.  On the integrator without any cost
    the KKT matrix of stage 0 is zero and its solution is NaN: the stage
    ends in the exception of the macro, which [backward_pass] does not
    catch; it leaves [backward_pass] at the first attempt, with [_hxx_reg]
    at 0 as before. *)
Theorem hessian_indefinite_failing_input :
  (forall ext : Externals,
     (forall m, allFinite m = false -> THROW_NAN m = true) ->
     (forall i, no_hessian (backward_pass_iter i)) /\
     (forall fuel s, backward_pass (S fuel) s = backward_pass 1 s)) /\
  let s := backward_pass_init solver_flat in
  match fst (@solve_stage ext_nan 0 s) with
  | inr k => hasNaN (ks_u_lam k) = true
  | inl _ => False
  end /\
  fst (@backward_pass_iter ext_nan 0 s) = inl NanDetected /\
  forall fuel,
    @backward_pass ext_nan (S fuel) solver_flat
    = Some (inl NanDetected, solver_after (@backward_pass ext_nan 1 solver_flat)) /\
    _hxx_reg (solver_after (@backward_pass ext_nan 1 solver_flat)) = _hxx_reg solver_flat.
Proof.
  split.
  { intros ext Hmacro. split.
    - intros i. apply backward_pass_iter_no_hessian. exact Hmacro.
    - intros fuel s. apply backward_pass_no_retry. exact Hmacro. }
  cbv zeta. split; [vm_compute; reflexivity|].
  split; [vm_compute; reflexivity|].
  intros fuel. split; [|vm_compute; reflexivity].
  rewrite (@backward_pass_no_retry ext_nan).
  - apply solver_after_run. vm_compute. reflexivity.
  - intros m Hfin. cbn [THROW_NAN ext_nan]. rewrite Hfin. apply orb_true_r.
Qed.

(* ================================================================== *)
(** ** Properties: line search *)

Lemma backtrack_alpha_power (k : nat) : backtrack_alpha k == (1 # 2) ^ Z.of_nat k.
Proof.
  induction k as [|k IH]; [reflexivity|].
  rewrite Nat2Z.inj_succ, <- Z.add_1_r.
  rewrite Qpower_plus by (intros Hz; discriminate Hz).
  simpl backtrack_alpha. rewrite IH. reflexivity.
Qed.

Lemma backtrack_alpha_in_range (k : nat) :
  (k <= 9)%nat -> Qle_bool alpha_min (backtrack_alpha k) = true.
Proof.
  intros Hk.
  do 10 (destruct k as [|k]; [vm_compute; reflexivity|]).
  lia.
Qed.

Lemma backtrack_alpha_out_of_range : Qle_bool alpha_min (backtrack_alpha 10) = false.
Proof. vm_compute. reflexivity. Qed.

Section LineSearchFacts.

Lemma forward_pass_iter_alpha i a s :
  alpha (_fp_res (forward_pass_iter i a s)) = alpha (_fp_res s) /\
  reports (forward_pass_iter i a s) = reports s.
Proof. split; reflexivity. Qed.

Lemma forward_pass_alpha a s :
  alpha (_fp_res (forward_pass a s)) = a /\ reports (forward_pass a s) = reports s.
Proof.
  unfold forward_pass.
  set (s0 := forward_pass_start a s).
  assert (H0 : alpha (_fp_res s0) = a /\ reports s0 = reports s) by (split; reflexivity).
  assert (Hloop : forall l s1,
             alpha (_fp_res (fold_left (fun s i => forward_pass_iter i a s) l s1))
             = alpha (_fp_res s1) /\
             reports (fold_left (fun s i => forward_pass_iter i a s) l s1) = reports s1).
  { induction l as [|i l IH]; intros s1; simpl; [split; reflexivity|].
    destruct (IH (forward_pass_iter i a s1)) as (H1 & H2).
    rewrite H1, H2. apply forward_pass_iter_alpha. }
  destruct (Hloop (seq 0 (_N s0)) s0) as (H1 & H2).
  set (s1 := fold_left _ (seq 0 (_N s0)) s0) in *.
  destruct (forward_pass_scores_frame s1) as (_ & _ & Ha & _).
  assert (Hrep : reports (forward_pass_scores s1) = reports s1).
  { unfold forward_pass_scores.
    unfold compute_constr.
    destruct (compute_constr_at _ _ (_N s1) (_N s1 - 1) _) as [c cs].
    unfold compute_defect. simpl.
    destruct (fold_left _ (seq 0 (_N s1)) (0, _tmp s1)) as [df ts]. reflexivity. }
  destruct H0 as (H01 & H02). split; congruence.
Qed.

Variables mu_f mu_c merit0 merit_der0 : Q.

Local Abbreviation trial := (armijo_trial mu_f mu_c merit0 merit_der0).
Local Abbreviation loop := (fun fuel => line_search_loop fuel mu_f mu_c merit0 merit_der0).

Lemma armijo_trial_alpha a s : alpha (_fp_res (trial a s)) = a.
Proof. unfold armijo_trial. simpl. apply forward_pass_alpha. Qed.

Lemma armijo_trial_accepted a s :
  accepted (_fp_res (trial a s)) =
  Qle_bool (merit (_fp_res (trial a s))) (merit0 + eta * a * merit_der0).
Proof. reflexivity. Qed.

Lemma armijo_trial_merit a s :
  merit (_fp_res (trial a s)) =
  compute_merit_value mu_f mu_c (cost (_fp_res (forward_pass a s)))
                      (defect_norm (_fp_res (forward_pass a s)))
                      (constraint_violation (_fp_res (forward_pass a s))).
Proof. reflexivity. Qed.

Lemma armijo_trial_trajectory a s :
  fp_xtrj (_fp_res (trial a s)) = fp_xtrj (_fp_res (forward_pass a s)) /\
  fp_utrj (_fp_res (trial a s)) = fp_utrj (_fp_res (forward_pass a s)).
Proof. split; reflexivity. Qed.

Lemma armijo_trial_reports a s :
  reports (trial a s) = reports s ++ [_fp_res (trial a s)].
Proof.
  unfold armijo_trial, report_result. simpl.
  destruct (forward_pass_alpha a s) as (_ & Hrep). rewrite Hrep. reflexivity.
Qed.

Lemma line_search_loop_S fuel a s :
  line_search_loop (S fuel) mu_f mu_c merit0 merit_der0 a s =
  if Qle_bool alpha_min a then
    if accepted (_fp_res (trial a s)) then Some (trial a s)
    else line_search_loop fuel mu_f mu_c merit0 merit_der0
                          (a * step_reduction_factor) (trial a s)
  else Some s.
Proof. reflexivity. Qed.

(** The loop entered at its [j]-th turn ends after some turn [m - 1] <= 9:
    the turns before were rejected, the last one is accepted unless it is
    the tenth. *)
Lemma line_search_loop_from (s : IterativeLQR) (n : nat) :
  forall j fuel, (j + n = 10)%nat -> (n < fuel)%nat ->
  exists m, (j <= m <= 10)%nat /\
    loop fuel (backtrack_alpha j) (trials j mu_f mu_c merit0 merit_der0 s)
    = Some (trials m mu_f mu_c merit0 merit_der0 s) /\
    (m = j -> j = 10%nat) /\
    (forall i, (j <= i)%nat -> (S i < m)%nat ->
               accepted (_fp_res (trials (S i) mu_f mu_c merit0 merit_der0 s)) = false) /\
    ((j < m)%nat -> accepted (_fp_res (trials m mu_f mu_c merit0 merit_der0 s)) = true
                    \/ m = 10%nat).
Proof.
  induction n as [|n IH]; intros j fuel Hj Hfuel.
  - assert (j = 10%nat) as -> by lia.
    exists 10%nat. destruct fuel as [|fuel]; [lia|].
    rewrite line_search_loop_S, backtrack_alpha_out_of_range.
    repeat split; intros; try reflexivity; lia.
  - destruct fuel as [|fuel]; [lia|].
    rewrite line_search_loop_S, backtrack_alpha_in_range by lia.
    change (trial (backtrack_alpha j) (trials j mu_f mu_c merit0 merit_der0 s))
      with (trials (S j) mu_f mu_c merit0 merit_der0 s).
    destruct (accepted (_fp_res (trials (S j) mu_f mu_c merit0 merit_der0 s))) eqn:Eacc.
    + exists (S j). repeat split; try lia. intros _. left. exact Eacc.
    + destruct (IH (S j) fuel ltac:(lia) ltac:(lia))
        as (m & Hm & Hrun & Hstay & Hrej & Hlast).
      exists m. split; [lia|].
      change (backtrack_alpha j * step_reduction_factor) with (backtrack_alpha (S j)).
      split; [exact Hrun|].
      split; [lia|].
      split.
      * intros i Hi Him. destruct (Nat.eq_dec i j) as [-> | Hne]; [exact Eacc|].
        apply Hrej; lia.
      * intros _. destruct (Nat.eq_dec m (S j)) as [Heq | Hne].
        -- right. apply Hstay in Heq. lia.
        -- apply Hlast. lia.
Qed.

Lemma line_search_end_spec (t : IterativeLQR) :
  let s' := line_search_end t in
  _xtrj s' = fp_xtrj (_fp_res t) /\ _utrj s' = fp_utrj (_fp_res t) /\
  fp_xtrj (_fp_res s') = fp_xtrj (_fp_res t) /\
  fp_utrj (_fp_res s') = fp_utrj (_fp_res t) /\
  alpha (_fp_res s') = alpha (_fp_res t) /\
  accepted (_fp_res s') = true /\
  (accepted (_fp_res t) = true -> reports s' = reports t) /\
  (accepted (_fp_res t) = false -> reports s' = reports t ++ [_fp_res s']).
Proof.
  unfold line_search_end. cbv zeta.
  destruct (accepted (_fp_res t)) eqn:Eacc; simpl; repeat split; try assumption;
    intros; congruence.
Qed.

End LineSearchFacts.

(** The shape of the loop of [line_search], for whatever weights, initial
    merit and slope [line_search] has computed before it.  It runs the
    turns 0, ..., k for some k <= 9, with step sizes 1, 1/2, 1/4, ... that
    never fall below alpha_min = 1e-3; each turn runs the forward pass at
    its step size and flags it accepted exactly when its merit is at most
    merit0 + eta*alpha*merit_der0 with eta = 1e-4; the turns before k are
    rejected and turn k is the first accepted one, or the tenth.  When
    turn k is rejected too its trajectory is accepted all the same, after
    the callback has been given the rejected result and then the result
    marked accepted.  In every case the current trajectory becomes the
    trajectory of the last forward pass. *)
Lemma line_search_backtracking (n iter : nat) (s : IterativeLQR) :
  let '(mu_f, mu_c, merit0, merit_der0, s0) := line_search_begin iter s in
  let t := fun k => trials k mu_f mu_c merit0 merit_der0 s0 in
  let fp := fun k => _fp_res (t k) in
  exists (k : nat) (s' : IterativeLQR),
    (k <= 9)%nat /\
    line_search (11 + n) iter s = Some s' /\
    (forall j, (j <= k)%nat ->
       let a := alpha (fp (S j)) in
       let pass := _fp_res (forward_pass a (t j)) in
       a == (1 # 2) ^ Z.of_nat j /\ alpha_min <= a /\
       fp_xtrj (fp (S j)) = fp_xtrj pass /\
       fp_utrj (fp (S j)) = fp_utrj pass /\
       merit (fp (S j)) =
         compute_merit_value mu_f mu_c (cost pass) (defect_norm pass)
                             (constraint_violation pass) /\
       (accepted (fp (S j)) = true <->
        merit (fp (S j)) <= merit0 + eta * a * merit_der0)) /\
    (forall j, (j < k)%nat -> accepted (fp (S j)) = false) /\
    (accepted (fp (S k)) = true \/ k = 9%nat) /\
    _xtrj s' = fp_xtrj (fp (S k)) /\
    _utrj s' = fp_utrj (fp (S k)) /\
    fp_xtrj (_fp_res s') = fp_xtrj (fp (S k)) /\
    fp_utrj (_fp_res s') = fp_utrj (fp (S k)) /\
    alpha (_fp_res s') = alpha (fp (S k)) /\
    accepted (_fp_res s') = true /\
    (accepted (fp (S k)) = false ->
     reports s' = reports (t k) ++ [fp (S k); _fp_res s']).
Proof.
  destruct (line_search_begin iter s) as [[[[mu_f mu_c] merit0] merit_der0] s0] eqn:Ebegin.
  cbv zeta.
  destruct (line_search_loop_from mu_f mu_c merit0 merit_der0 s0 10 0 (11 + n))
    as (m & Hm & Hrun & Hstay & Hrej & Hlast); [lia | lia |].
  destruct m as [|k]; [specialize (Hstay eq_refl); lia|].
  exists k, (line_search_end (trials (S k) mu_f mu_c merit0 merit_der0 s0)).
  split; [lia|].
  split.
  { unfold line_search. rewrite Ebegin.
    change (trials 0 mu_f mu_c merit0 merit_der0 s0) with s0 in Hrun.
    change (backtrack_alpha 0) with 1 in Hrun.
    rewrite Hrun. reflexivity. }
  split.
  { intros j Hj. cbv zeta. cbn [trials].
    rewrite (armijo_trial_alpha mu_f mu_c merit0 merit_der0 (backtrack_alpha j)).
    split; [apply backtrack_alpha_power|].
    split; [apply Qle_bool_iff, backtrack_alpha_in_range; lia|].
    split; [reflexivity|]. split; [reflexivity|]. split; [reflexivity|].
    rewrite armijo_trial_accepted. apply Qle_bool_iff. }
  split; [intros j Hj; apply Hrej; lia|].
  split; [destruct (Hlast ltac:(lia)) as [Hacc | Hten]; [left; exact Hacc | right; lia]|].
  destruct (line_search_end_spec (trials (S k) mu_f mu_c merit0 merit_der0 s0))
    as (H1 & H2 & H3 & H4 & H5 & H6 & _ & H8).
  repeat (split; [assumption|]).
  intros Hno. rewrite (H8 Hno). cbn [trials].
  rewrite armijo_trial_reports, <- app_assoc. reflexivity.
Qed.

(** C3, evaluation at the failing input.  The slope that [line_search]
    puts into Armijo's condition is the one [compute_merit_slope] returns,
    without the term sum l_i' * hu_i (the defect of C5).  On the integrator
    with stage cost 1 + u + u^2/2 + u^4/8 and final cost x, from x = 0 and
    u = 0, the backward pass gives the step l_0 = -2 with hu_0 = 2, the
    weight mu_f = 2 and the slope m'(0) = l_0 * hu_0 = -4, while
    [line_search] computes the slope 0.  The full step leaves the merit at
    m(1) = 1 = m(0): it fails m(1) <= m(0) + eta * 1 * m'(0) = 1 - 4e-4,
    and alpha = 1/2 is the first step size that satisfies the condition;
    yet [line_search] accepts alpha = 1 at its first trial and makes
    u_0 = -2 the current input. *)
Theorem line_search_failing_input :
  let s1 := solver_quartic_solved in
  let b := line_search_begin 0 s1 in
  let mu_f := fst (fst (fst (fst b))) in
  let mu_c := snd (fst (fst (fst b))) in
  let merit0 := snd (fst (fst b)) in
  let merit_der0 := snd (fst b) in
  let slope := spec_merit_slope mu_f mu_c (defect_norm (_fp_res s1))
                                (constraint_violation (_fp_res s1)) s1 in
  let half := armijo_trial mu_f mu_c merit0 merit_der0 (1 # 2) (snd b) in
  let s2 := solver_quartic_searched in
  @backward_pass ext_nan 1 solver_quartic = Some (inr tt, s1) /\
  line_search 11 0 s1 = Some s2 /\
  coef (bp_lu (_bp_res s1 !!! 0%nat)) 0 0 == - (2) /\
  coef (tmp_hu (_tmp s1 !!! 0%nat)) 0 0 == 2 /\
  mu_f == 2 /\ mu_c == 0 /\
  merit0 == 1 /\ merit_der0 == 0 /\ slope == - (4) /\
  alpha (_fp_res s2) == 1 /\ accepted (_fp_res s2) = true /\
  merit (_fp_res s2) == 1 /\
  ~ merit (_fp_res s2) <= merit0 + eta * 1 * slope /\
  merit (_fp_res half) <= merit0 + eta * (1 # 2) * slope /\
  length (reports s2) = 2%nat /\
  coef (_utrj s2) 0 0 == - (2).
Proof.
  cbv zeta.
  split.
  { unfold solver_quartic_solved. apply solver_after_run. vm_compute. reflexivity. }
  split.
  { unfold solver_quartic_searched. apply default_is_Some. vm_compute. reflexivity. }
  repeat split; try (vm_compute; reflexivity).
  - intros Hle. vm_compute in Hle. apply Hle. reflexivity.
  - vm_compute. discriminate.
Qed.

(* ================================================================== *)
(** ** Properties: constraint handling *)

Lemma Qmaxn_lt (n : nat) (f : nat -> Q) (c : Q) :
  0 < c -> (Qmaxn n f < c <-> forall k, (k < n)%nat -> f k < c).
Proof.
  intros Hc. induction n as [|n IH].
  - simpl. split; [intros _ k Hk; lia | intros _; exact Hc].
  - destruct n as [|n].
    + simpl. split.
      * intros Hf k Hk. assert (k = 0%nat) as -> by lia. exact Hf.
      * intros Hall. apply Hall. lia.
    + change (Qmaxn (S (S n)) f) with (Qmax (Qmaxn (S n) f) (f (S n))).
      rewrite Q.max_lub_lt_iff, IH. split.
      * intros [Hlt Hn] k Hk.
        destruct (Nat.eq_dec k (S n)) as [-> | Hne]; [exact Hn | apply Hlt; lia].
      * intros Hall. split; [intros k Hk; apply Hall; lia | apply Hall; lia].
Qed.

Lemma linearly_dependent_iff (Cinf hinf : Mat) (j : nat) :
  linearly_dependent Cinf hinf j = true <->
  Qabs (coef hinf j O) < lit_1em9 /\
  cwiseAbs_maxCoeff (row Cinf j) < lit_1em9.
Proof.
  unfold linearly_dependent. rewrite andb_true_iff, !Qltb_lt. reflexivity.
Qed.

Lemma row_infinity_norm_lt (Cinf : Mat) (j : nat) :
  cwiseAbs_maxCoeff (row Cinf j) < lit_1em9 <->
  forall k, (k < cols Cinf)%nat -> Qabs (coef Cinf j k) < lit_1em9.
Proof.
  unfold cwiseAbs_maxCoeff. simpl. apply Qmaxn_lt. reflexivity.
Qed.

Section HandleConstraints.

Context {ext : Externals}.

(** What the loop over the infeasible rows leaves behind. *)
Lemma push_infeasible_spec (Cinf hinf : Mat) (s : IterativeLQR) :
  let s' := push_infeasible Cinf hinf s in
  _constraint_to_go s' =
    map (infeasible_row (_nu s) Cinf hinf)
        (List.filter (fun j => negb (linearly_dependent Cinf hinf j))
                     (seq 0 (rows hinf))) /\
  stdout s' =
    stdout s ++ map WarnLinearlyDependent
                    (List.filter (linearly_dependent Cinf hinf) (seq 0 (rows hinf))).
Proof.
  cbv zeta. unfold push_infeasible.
  set (f := fun s j => _).
  assert (H : forall l s0,
             _nu (fold_left f l s0) = _nu s0 /\
             _constraint_to_go (fold_left f l s0) =
               _constraint_to_go s0 ++
               map (infeasible_row (_nu s0) Cinf hinf)
                   (List.filter (fun j => negb (linearly_dependent Cinf hinf j)) l) /\
             stdout (fold_left f l s0) =
               stdout s0 ++ map WarnLinearlyDependent
                                (List.filter (linearly_dependent Cinf hinf) l)).
  { induction l as [|j l IH]; intros s0.
    - simpl. rewrite !app_nil_r. repeat split.
    - simpl fold_left. destruct (IH (f s0 j)) as (Hnu & Hctg & Hout).
      rewrite Hnu, Hctg, Hout. unfold f. simpl List.filter.
      destruct (linearly_dependent Cinf hinf j); simpl.
      + repeat split. rewrite <- app_assoc. reflexivity.
      + repeat split. unfold ctg_add2, ctg_add3, rows_of. simpl.
        rewrite <- app_assoc. reflexivity. }
  destruct (H (seq 0 (rows hinf)) (with_constraint_to_go ctg_clear s))
    as (_ & Hctg & Hout).
  split; [exact Hctg | exact Hout].
Qed.

(** The two ways in which [handle_constraints] returns. *)
Lemma handle_constraints_ok (i : nat) (s s' : IterativeLQR) (fc : FeasibleConstraint) :
  let s1 := stack_constraints i s in
  let nc := ctg_dim (_constraint_to_go s1) in
  let C := ctg_C (_nx s1) (_constraint_to_go s1) in
  let D := ctg_D (_nu s1) (_constraint_to_go s1) in
  let h := ctg_h (_constraint_to_go s1) in
  handle_constraints i s = (inr fc, s') ->
  (nc = 0%nat /\ s' = s1 /\ rows (fc_h fc) = 0%nat) \/
  (nc <> 0%nat /\
   exists rank codQ,
     constraint_rank (_constr_decomp_type s1) (_svd_threshold s1) D = inr (rank, codQ) /\
     fc = mk_FeasibleConstraint (mmul (transpose (leftCols codQ rank)) C)
                                (mmul (transpose (leftCols codQ rank)) D)
                                (mmul (transpose (leftCols codQ rank)) h) /\
     s' = push_infeasible (mmul (transpose (rightCols codQ (nc - rank))) C)
                          (mmul (transpose (rightCols codQ (nc - rank))) h) s1).
Proof.
  cbv zeta. unfold handle_constraints. intros H.
  apply bind_ok_inv in H as (u & s1 & Hm & H). apply modify_inv in Hm as (_ & ->).
  apply bind_ok_inv in H as (sg & s2 & Hg & H).
  apply get_inv in Hg as (Hg1 & Hg2). injection Hg1 as Hg1. subst sg s2.
  destruct (Nat.eqb_spec (ctg_dim (_constraint_to_go (stack_constraints i s))) 0)
    as [Hz | Hnz].
  - left. inversion H; subst. repeat split. exact Hz.
  - right. split; [exact Hnz|].
    apply bind_ok_inv in H as (u1 & s3 & Hn & H). apply throw_nan_ok in Hn as (-> & _).
    apply bind_ok_inv in H as (u2 & s4 & Hn & H). apply throw_nan_ok in Hn as (-> & _).
    apply bind_ok_inv in H as (u3 & s5 & Hn & H). apply throw_nan_ok in Hn as (-> & _).
    destruct (constraint_rank _ _ _) as [e | [rank codQ]]; [discriminate H|].
    apply bind_ok_inv in H as (u4 & s6 & Hn & H). apply throw_nan_ok in Hn as (-> & _).
    apply bind_ok_inv in H as (u5 & s7 & Hm & H). apply modify_inv in Hm as (_ & ->).
    inversion H; subst.
    exists rank, codQ. repeat split.
Qed.

Lemma stack_constraints_config (i : nat) (s : IterativeLQR) :
  _constr_decomp_type (stack_constraints i s) = _constr_decomp_type s /\
  _svd_threshold (stack_constraints i s) = _svd_threshold s.
Proof. split; reflexivity. Qed.

Lemma constraint_rank_spec (ty : DecompositionType) (thr : Q) (D : Mat) :
  ty = Svd \/ ty = Qr \/ ty = Cod ->
  constraint_rank ty thr D =
  inr (if Qltb (largest_pivot ty thr D) thr then O else decomposition_rank ty thr D,
       orthogonal_factor ty thr D).
Proof. intros [-> | [-> | ->]]; reflexivity. Qed.

Lemma constraint_rank_ok (ty : DecompositionType) (thr : Q) (D : Mat) rank codQ :
  constraint_rank ty thr D = inr (rank, codQ) -> ty = Svd \/ ty = Qr \/ ty = Cod.
Proof. destruct ty; intros Heq; try discriminate Heq; auto. Qed.

End HandleConstraints.

(** C6.  Whenever [handle_constraints] at stage i has rows to treat and
    returns, the decomposition type is one of SVD, column-pivoted QR and
    COD; the rank it uses is the one Eigen reports for the stacked input
    Jacobian D under the configured threshold, replaced by 0 when the
    largest pivot (largest singular value, for SVD) is below that
    threshold; and with rank 0 the feasible block has no row while all nc
    rows, rotated by the full orthogonal factor, go through the loop over
    the infeasible rows. *)
Theorem rank_zero_below_threshold `{Externals} (i : nat) (s s' : IterativeLQR)
    (fc : FeasibleConstraint) :
  let s1 := stack_constraints i s in
  let nc := ctg_dim (_constraint_to_go s1) in
  let C := ctg_C (_nx s1) (_constraint_to_go s1) in
  let D := ctg_D (_nu s1) (_constraint_to_go s1) in
  let h := ctg_h (_constraint_to_go s1) in
  let ty := _constr_decomp_type s in
  let thr := _svd_threshold s in
  let rank := if Qltb (largest_pivot ty thr D) thr then O
              else decomposition_rank ty thr D in
  handle_constraints i s = (inr fc, s') ->
  nc <> 0%nat ->
  (ty = Svd \/ ty = Qr \/ ty = Cod) /\
  constraint_rank ty thr D = inr (rank, orthogonal_factor ty thr D) /\
  rows (fc_h fc) = rank /\
  (largest_pivot ty thr D < thr ->
   rank = 0%nat /\
   rows (fc_C fc) = 0%nat /\ rows (fc_D fc) = 0%nat /\ rows (fc_h fc) = 0%nat /\
   let Q2 := rightCols (orthogonal_factor ty thr D) nc in
   rows (mmul (transpose Q2) h) = nc /\
   s' = push_infeasible (mmul (transpose Q2) C) (mmul (transpose Q2) h) s1).
Proof.
  cbv zeta. intros Hrun Hnc.
  apply handle_constraints_ok in Hrun. cbv zeta in Hrun.
  pose proof (stack_constraints_config i s) as (Hty1 & Hthr1).
  set (s1 := stack_constraints i s) in *.
  set (C := ctg_C (_nx s1) (_constraint_to_go s1)) in *.
  set (D := ctg_D (_nu s1) (_constraint_to_go s1)) in *.
  set (h := ctg_h (_constraint_to_go s1)) in *.
  set (nc := ctg_dim (_constraint_to_go s1)) in *.
  destruct Hrun as [(Hz & _) | (_ & rank & codQ & Hrank & Hfc & Hs')]; [contradiction|].
  rewrite Hty1, Hthr1 in Hrank.
  pose proof (constraint_rank_ok _ _ _ _ _ Hrank) as Hty.
  rewrite (constraint_rank_spec _ _ _ Hty) in Hrank.
  injection Hrank as Hr Hq.
  split; [exact Hty|].
  split; [apply constraint_rank_spec; exact Hty|].
  split; [rewrite Hfc; simpl; symmetry; exact Hr|].
  intros Hlt. apply Qltb_lt in Hlt. rewrite Hlt in Hr |- *.
  subst rank codQ. rewrite Nat.sub_0_r in Hs'.
  rewrite Hfc. repeat split. exact Hs'.
Qed.

Lemma rank_zero_below_threshold_witness :
  let r := @handle_constraints ext0 0 solver_two_rows in
  match fst r with
  | inr fc => rows (fc_C fc) = 0%nat /\ rows (fc_h fc) = 0%nat
  | inl _ => False
  end /\
  length (_constraint_to_go (snd r)) = 1%nat.
Proof.
  cbv zeta.
  assert (Hok : is_ok (fst (@handle_constraints ext0 0 solver_two_rows)) = true)
    by (vm_compute; reflexivity).
  assert (Hlen : length (_constraint_to_go (snd (@handle_constraints ext0 0 solver_two_rows)))
                 = 1%nat) by (vm_compute; reflexivity).
  destruct (@handle_constraints ext0 0 solver_two_rows) as [[e | fc] s'] eqn:Hrun;
    [discriminate Hok|].
  cbv beta iota delta [fst snd] in Hlen |- *.
  destruct (@rank_zero_below_threshold ext0 0 solver_two_rows s' fc Hrun)
    as (_ & _ & _ & Hzero).
  - vm_compute. discriminate.
  - destruct Hzero as (_ & HC & _ & Hrows & _).
    + vm_compute. reflexivity.
    + split; [split; [exact HC | exact Hrows] | exact Hlen].
Defined.

(** C7.  Whenever [handle_constraints] at stage i has rows to treat and
    returns, the constraint-to-go it leaves for stage i-1 consists of the
    infeasible rows (the rows rotated by Q2') in their order, without
    those rows j for which both |hinf_j| < 1e-9 and every coefficient of
    row j of Cinf is below 1e-9 in absolute value (its infinity norm is
    < 1e-9); each such row is dropped with one warning; every other row is
    in the accumulator. *)
Theorem infeasible_rows_pushed_back `{Externals} (i : nat) (s s' : IterativeLQR)
    (fc : FeasibleConstraint) :
  let s1 := stack_constraints i s in
  let nc := ctg_dim (_constraint_to_go s1) in
  let C := ctg_C (_nx s1) (_constraint_to_go s1) in
  let D := ctg_D (_nu s1) (_constraint_to_go s1) in
  let h := ctg_h (_constraint_to_go s1) in
  let ty := _constr_decomp_type s in
  let thr := _svd_threshold s in
  let rank := if Qltb (largest_pivot ty thr D) thr then O
              else decomposition_rank ty thr D in
  let Q2 := rightCols (orthogonal_factor ty thr D) (nc - rank) in
  let Cinf := mmul (transpose Q2) C in
  let hinf := mmul (transpose Q2) h in
  let dropped := linearly_dependent Cinf hinf in
  handle_constraints i s = (inr fc, s') ->
  nc <> 0%nat ->
  _constraint_to_go s' =
    map (infeasible_row (_nu s) Cinf hinf)
        (List.filter (fun j => negb (dropped j)) (seq 0 (nc - rank))) /\
  stdout s' =
    stdout s ++ map WarnLinearlyDependent (List.filter dropped (seq 0 (nc - rank))) /\
  (forall j, dropped j = true <->
             Qabs (coef hinf j O) < lit_1em9 /\
             cwiseAbs_maxCoeff (row Cinf j) < lit_1em9) /\
  (forall j, cwiseAbs_maxCoeff (row Cinf j) < lit_1em9 <->
             forall k, (k < cols Cinf)%nat -> Qabs (coef Cinf j k) < lit_1em9) /\
  (forall j, (j < nc - rank)%nat -> dropped j = false ->
             In (infeasible_row (_nu s) Cinf hinf j) (_constraint_to_go s')).
Proof.
  cbv zeta. intros Hrun Hnc.
  apply handle_constraints_ok in Hrun. cbv zeta in Hrun.
  pose proof (stack_constraints_config i s) as (Hty1 & Hthr1).
  assert (Hnu : _nu (stack_constraints i s) = _nu s) by reflexivity.
  assert (Hout : stdout (stack_constraints i s) = stdout s) by reflexivity.
  set (s1 := stack_constraints i s) in *.
  set (C := ctg_C (_nx s1) (_constraint_to_go s1)) in *.
  set (D := ctg_D (_nu s1) (_constraint_to_go s1)) in *.
  set (h := ctg_h (_constraint_to_go s1)) in *.
  set (nc := ctg_dim (_constraint_to_go s1)) in *.
  destruct Hrun as [(Hz & _) | (_ & rank & codQ & Hrank & Hfc & Hs')]; [contradiction|].
  rewrite Hty1, Hthr1 in Hrank.
  pose proof (constraint_rank_ok _ _ _ _ _ Hrank) as Hty.
  rewrite (constraint_rank_spec _ _ _ Hty) in Hrank.
  injection Hrank as Hr Hq. rewrite Hr, Hq.
  set (Cinf := mmul (transpose (rightCols codQ (nc - rank))) C) in *.
  set (hinf := mmul (transpose (rightCols codQ (nc - rank))) h) in *.
  destruct (push_infeasible_spec Cinf hinf s1) as (Hctg & Hstd).
  rewrite <- Hs' in Hctg, Hstd. rewrite Hnu in Hctg. rewrite Hout in Hstd.
  change (rows hinf) with (nc - rank)%nat in Hctg, Hstd.
  split; [exact Hctg|]. split; [exact Hstd|].
  split; [intros j; apply linearly_dependent_iff|].
  split; [intros j; apply row_infinity_norm_lt|].
  intros j Hj Hkeep. rewrite Hctg. apply in_map, filter_In.
  split; [apply in_seq; lia | rewrite Hkeep; reflexivity].
Qed.

Lemma infeasible_rows_pushed_back_witness :
  let r := @handle_constraints ext0 0 solver_two_rows in
  is_ok (fst r) = true /\
  map row_h (_constraint_to_go (snd r)) = [1] /\
  stdout (snd r) = [WarnLinearlyDependent 1].
Proof.
  cbv zeta.
  assert (Hok : is_ok (fst (@handle_constraints ext0 0 solver_two_rows)) = true)
    by (vm_compute; reflexivity).
  destruct (@handle_constraints ext0 0 solver_two_rows) as [[e | fc] s'] eqn:Hrun;
    [discriminate Hok|].
  cbv beta iota delta [fst snd].
  destruct (@infeasible_rows_pushed_back ext0 0 solver_two_rows s' fc Hrun)
    as (Hctg & Hstd & _).
  - vm_compute. discriminate.
  - split; [reflexivity|]. split.
    + rewrite Hctg. vm_compute. reflexivity.
    + rewrite Hstd. vm_compute. reflexivity.
Defined.

(* ================================================================== *)
(** ** Properties: the fixed-capacity constraint-to-go of the earlier solver *)

Lemma legacy_set_dim (C h : Mat) (c : Legacy.ConstraintToGo) :
  Legacy.dim (Legacy.set C h c) = rows h /\
  Legacy.capacity (Legacy.set C h c) = Legacy.capacity c.
Proof. split; reflexivity. Qed.

Lemma legacy_ctor_capacity (nx : nat) :
  Legacy.capacity (Legacy.ConstraintToGo_ctor nx) = (nx * 10)%nat /\
  Legacy.dim (Legacy.ConstraintToGo_ctor nx) = 0%nat.
Proof. split; reflexivity. Qed.

(** C8, evaluation at the failing input.  [set] takes the dimension from
    its argument whatever the capacity fixed by the constructor.  With
    nx = 1 the accumulator is built with capacity 10; [set] on a final
    constraint of eleven rows, the first statement of the constraint
    initialisation in [backward_pass], leaves the dimension at 11 while the
    capacity is still 10. *)
Theorem constraint_to_go_overflow :
  (forall (nx : nat) (constr : Legacy.Constraint),
     Legacy.is_valid constr = true ->
     let c := Legacy.set_constraint constr (Legacy.ConstraintToGo_ctor nx) in
     Legacy.dim c = rows (Legacy.h constr) /\ Legacy.capacity c = (nx * 10)%nat) /\
  let c0 := Legacy.ConstraintToGo_ctor 1 in
  let c1 := Legacy.set_constraint eleven_rows c0 in
  Legacy.capacity c0 = 10%nat /\
  Legacy.capacity c1 = 10%nat /\
  Legacy.dim c1 = 11%nat /\
  rows (Legacy.ctg_C c1) = 11%nat /\
  (Legacy.capacity c1 < Legacy.dim c1)%nat.
Proof.
  split.
  - intros nx constr Hvalid. cbv zeta. unfold Legacy.set_constraint.
    rewrite Hvalid. simpl negb. cbv iota.
    destruct (legacy_set_dim (Legacy.C constr) (Legacy.h constr)
                             (Legacy.ConstraintToGo_ctor nx)) as (Hdim & Hcap).
    rewrite Hdim, Hcap. split; [reflexivity | apply legacy_ctor_capacity].
  - cbv zeta. repeat split. vm_compute. lia.
Qed.

(* ================================================================== *)
(** ** Properties: the default cost *)

Section DefaultCost.

Lemma legacy_set_costs (costs : list Legacy.CostFunction) (q0 : Legacy.IterativeLQR)
    (k : nat) :
  let q := fold_left
             (fun q i => match costs !! i with
                         | Some c => Legacy.with_cost
                                       (alter (Legacy.setCost c) i (Legacy._cost q)) q
                         | None => q
                         end)
             (seq 0 k) q0 in
  (k <= length costs)%nat ->
  length (Legacy._cost q) = length (Legacy._cost q0) /\
  forall i,
    Legacy._cost q !! i =
    if (i <? k)%nat then
      match Legacy._cost q0 !! i with
      | Some _ => Legacy.mk_IntermediateCost <$> (Some <$> costs !! i)
      | None => None
      end
    else Legacy._cost q0 !! i.
Proof.
  cbv zeta. induction k as [|k IH]; intros Hk.
  - simpl. split; [reflexivity | intros i; reflexivity].
  - rewrite fold_left_seq_S.
    destruct (IH ltac:(lia)) as (Hlen & Hlook).
    set (q := fold_left _ (seq 0 k) q0) in *.
    destruct (lookup_lt_is_Some_2 costs k ltac:(lia)) as [c Hc].
    rewrite Hc. simpl.
    split; [rewrite length_alter; exact Hlen|].
    intros i. destruct (Nat.eq_dec i k) as [-> | Hne].
    + rewrite list_lookup_alter_eq, Hlook.
      assert ((k <? k)%nat = false) as -> by (apply Nat.ltb_ge; lia).
      assert ((k <? S k)%nat = true) as -> by (apply Nat.ltb_lt; lia).
      rewrite Hc. destruct (Legacy._cost q0 !! k); reflexivity.
    + rewrite list_lookup_alter_ne by congruence. rewrite Hlook.
      destruct (Nat.ltb_spec i k); destruct (Nat.ltb_spec i (S k)); try lia; reflexivity.
Qed.

End DefaultCost.

(** C10.  Right after [IterativeLQR(fdyn, N)] -- which does not throw --
    the solver holds N + 1 costs: at every stage k < N the function
    (x, u) |-> 0.5 * sumsqr(u) and at stage N the function
    (x, u) |-> 0.5 * sumsqr(x), so every stage has a cost before any setter
    is called. *)
Theorem default_cost_after_construction (fdyn : Legacy.DynFunction) (N k : nat) :
  (k < N)%nat ->
  exists q : Legacy.IterativeLQR,
    Legacy.IterativeLQR_ctor fdyn N = inr q /\
    length (Legacy._cost q) = (N + 1)%nat /\
    Legacy._cost q !! k = Some (Legacy.mk_IntermediateCost (Some Legacy.dfl_cost)) /\
    Legacy._cost q !! N = Some (Legacy.mk_IntermediateCost (Some Legacy.dfl_cost_final)) /\
    (forall x u, Legacy.dfl_cost x u = (1 # 2) * sumsqr u) /\
    (forall x u, Legacy.dfl_cost_final x u = (1 # 2) * sumsqr x).
Proof.
  intros Hk.
  unfold Legacy.IterativeLQR_ctor, Legacy.set_default_cost, Legacy.setIntermediateCost.
  cbv zeta.
  set (q0 := Legacy.mk_IterativeLQR _ _ N fdyn _ _ _ _ _ _ _ _ _ _).
  change (Legacy._N q0) with N.
  rewrite length_replicate, Nat.eqb_refl. simpl negb. cbv iota.
  pose proof (legacy_set_costs (replicate N Legacy.dfl_cost) q0 N) as Hset.
  cbv zeta in Hset. rewrite length_replicate in Hset.
  destruct (Hset (le_n N)) as (Hlen & Hlook).
  set (q1 := fold_left _ (seq 0 N) q0) in *.
  change (Legacy._cost q0) with (replicate (N + 1) (Legacy.mk_IntermediateCost None))
    in Hlen, Hlook.
  rewrite length_replicate in Hlen.
  eexists. split; [reflexivity|].
  unfold Legacy.setFinalCost. simpl Legacy._cost.
  rewrite length_alter, Hlen.
  assert ((N + 1 - 1)%nat = N) as -> by lia.
  split; [reflexivity|].
  split.
  { rewrite list_lookup_alter_ne by lia. rewrite Hlook.
    assert ((k <? N)%nat = true) as -> by (apply Nat.ltb_lt; lia).
    rewrite !lookup_replicate_2 by lia. reflexivity. }
  split.
  { rewrite list_lookup_alter_eq, Hlook.
    assert ((N <? N)%nat = false) as -> by (apply Nat.ltb_ge; lia).
    rewrite lookup_replicate_2 by lia. reflexivity. }
  split; intros x u; reflexivity.
Qed.

Lemma default_cost_after_construction_witness :
  (0 < 2)%nat /\
  exists q : Legacy.IterativeLQR,
    Legacy.IterativeLQR_ctor integrator 2 = inr q /\
    length (Legacy._cost q) = (2 + 1)%nat /\
    Legacy._cost q !! 0%nat = Some (Legacy.mk_IntermediateCost (Some Legacy.dfl_cost)) /\
    Legacy._cost q !! 2%nat = Some (Legacy.mk_IntermediateCost (Some Legacy.dfl_cost_final)) /\
    (forall x u, Legacy.dfl_cost x u = (1 # 2) * sumsqr u) /\
    (forall x u, Legacy.dfl_cost_final x u = (1 # 2) * sumsqr x).
Proof.
  split; [lia|].
  apply (default_cost_after_construction integrator 2 0). lia.
Defined.

(* ================================================================== *)
(** ** Further properties: sums and norms *)

Lemma Qsum_zero (n : nat) (f : nat -> Q) :
  (forall k, (k < n)%nat -> f k == 0) -> Qsum n f == 0.
Proof.
  induction n as [|n IH]; intros Hf; simpl; [reflexivity|].
  rewrite IH by (intros k Hk; apply Hf; lia).
  rewrite (Hf n) by lia. reflexivity.
Qed.

Lemma Qsum_nonneg (n : nat) (f : nat -> Q) :
  (forall k, (k < n)%nat -> 0 <= f k) -> 0 <= Qsum n f.
Proof.
  induction n as [|n IH]; intros Hf; simpl; [apply Qle_refl|].
  specialize (IH ltac:(intros k Hk; apply Hf; lia)).
  specialize (Hf n ltac:(lia)). lra.
Qed.

Lemma Qsum_zero_iff (n : nat) (f : nat -> Q) :
  (forall k, (k < n)%nat -> 0 <= f k) ->
  (Qsum n f == 0 <-> forall k, (k < n)%nat -> f k == 0).
Proof.
  intros Hf. split; [|apply Qsum_zero].
  induction n as [|n IH]; intros Hz k Hk; [lia|].
  simpl in Hz.
  pose proof (Qsum_nonneg n f ltac:(intros j Hj; apply Hf; lia)) as Hs.
  pose proof (Hf n ltac:(lia)) as Hn.
  destruct (Nat.eq_dec k n) as [-> | Hne]; [lra|].
  apply IH; [intros j Hj; apply Hf; lia | lra | lia].
Qed.

Lemma Qabs_zero_iff (x : Q) : Qabs x == 0 <-> x == 0.
Proof.
  split; intros H.
  - destruct (Qlt_le_dec x 0) as [Hn | Hp].
    + rewrite Qabs_neg in H by lra. lra.
    + rewrite Qabs_pos in H by lra. exact H.
  - rewrite H. reflexivity.
Qed.

Lemma cwiseAbs_sum_nonneg (M : Mat) : 0 <= cwiseAbs_sum M.
Proof.
  unfold cwiseAbs_sum. apply Qsum_nonneg. intros i _.
  apply Qsum_nonneg. intros j _. apply Qabs_nonneg.
Qed.

Lemma cwiseAbs_sum_zero_iff (M : Mat) :
  cwiseAbs_sum M == 0 <->
  forall i j, (i < rows M)%nat -> (j < cols M)%nat -> coef M i j == 0.
Proof.
  unfold cwiseAbs_sum.
  rewrite Qsum_zero_iff
    by (intros i _; apply Qsum_nonneg; intros j _; apply Qabs_nonneg).
  split.
  - intros H i j Hi Hj. specialize (H i Hi).
    rewrite Qsum_zero_iff in H by (intros k _; apply Qabs_nonneg).
    apply Qabs_zero_iff, H, Hj.
  - intros H i Hi. apply Qsum_zero. intros j Hj. apply Qabs_zero_iff, H; assumption.
Qed.

Lemma cwiseAbs_sum_scale (a : Q) (M : Mat) :
  cwiseAbs_sum (mscale a M) == Qabs a * cwiseAbs_sum M.
Proof.
  unfold cwiseAbs_sum. simpl.
  rewrite <- Qsum_scale. apply Qsum_eq. intros i _.
  rewrite <- Qsum_scale. apply Qsum_eq. intros j _.
  apply Qabs_Qmult.
Qed.

Lemma Qmaxn_ge (n : nat) (f : nat -> Q) (k : nat) :
  (k < n)%nat -> f k <= Qmaxn n f.
Proof.
  induction n as [|n IH]; intros Hk; [lia|].
  destruct n as [|n].
  - assert (k = 0%nat) as -> by lia. apply Qle_refl.
  - change (Qmaxn (S (S n)) f) with (Qmax (Qmaxn (S n) f) (f (S n))).
    destruct (Nat.eq_dec k (S n)) as [-> | Hne].
    + apply Q.le_max_r.
    + eapply Qle_trans; [apply IH; lia | apply Q.le_max_l].
Qed.

Lemma cwiseAbs_maxCoeff_ge (M : Mat) (r j : nat) :
  (r < rows M)%nat -> (j < cols M)%nat -> Qabs (coef M r j) <= cwiseAbs_maxCoeff M.
Proof.
  intros Hr Hj. unfold cwiseAbs_maxCoeff.
  eapply Qle_trans; [|apply (Qmaxn_ge (rows M) _ r Hr)].
  apply (Qmaxn_ge (cols M) (fun j => Qabs (coef M r j)) j Hj).
Qed.

Lemma std_max_ge (a b : Q) : a <= std_max a b /\ b <= std_max a b.
Proof.
  unfold std_max. destruct (Qltb a b) eqn:E.
  - apply Qltb_lt in E. split; lra.
  - apply Qltb_ge in E. split; lra.
Qed.

Lemma horizon_pos (s : IterativeLQR) : (0 < _N s)%nat -> 0 < horizon s.
Proof.
  intros HN. unfold horizon.
  change 0 with (inject_Z 0). rewrite <- Zlt_Qlt. lia.
Qed.

Lemma Qdiv_nonneg (x y : Q) : 0 <= x -> 0 < y -> 0 <= x / y.
Proof.
  intros Hx Hy. unfold Qdiv.
  pose proof (Qinv_lt_0_compat y Hy) as Hi.
  apply Qmult_le_0_compat; lra.
Qed.

Lemma Qdiv_zero_iff (x y : Q) : 0 < y -> (x / y == 0 <-> x == 0).
Proof.
  intros Hy. split; intros H.
  - assert (Hx : x == x / y * y) by (field; lra).
    rewrite Hx, H. ring.
  - rewrite H. unfold Qdiv. ring.
Qed.

Lemma filter_length_le {I : Type} (p : I -> bool) (l : list I) :
  (length (List.filter p l) <= length l)%nat.
Proof.
  induction l as [|i l IH]; simpl; [lia|]. destruct (p i); simpl; lia.
Qed.

Lemma filter_partition_length {I : Type} (p : I -> bool) (l : list I) :
  (length (List.filter p l) + length (List.filter (fun i => negb (p i)) l) = length l)%nat.
Proof.
  induction l as [|i l IH]; simpl; [reflexivity|].
  destruct (p i); simpl; lia.
Qed.

Lemma filter_nil {I : Type} (p : I -> bool) (l : list I) :
  (forall i, In i l -> p i = false) -> List.filter p l = [].
Proof.
  induction l as [|i l IH]; intros Hp; simpl; [reflexivity|].
  rewrite (Hp i) by (left; reflexivity).
  apply IH. intros j Hj. apply Hp. right. exact Hj.
Qed.

(* ================================================================== *)
(** ** Further properties: the forward pass and its scores *)

Lemma forward_pass_column0 (a : Q) (s : IterativeLQR) (r : nat) :
  coef (fp_xtrj (_fp_res (forward_pass a s))) r 0 = coef (_xtrj s) r 0.
Proof.
  destruct (forward_pass_trajectories a s) as (Hx & _).
  pose proof (forward_pass_stages a (forward_pass_start a s) (_N s)) as Hst.
  cbv zeta in Hst. destruct Hst as (_ & Hcol & _).
  rewrite Hx, Hcol. simpl. reflexivity.
Qed.

Lemma forward_pass_scores_flags s :
  accepted (_fp_res (forward_pass_scores s)) = accepted (_fp_res s) /\
  step_length (_fp_res (forward_pass_scores s)) = step_length (_fp_res s).
Proof.
  unfold forward_pass_scores.
  pose proof (compute_constr_frame (fp_xtrj (_fp_res s)) (fp_utrj (_fp_res s)) s)
    as (Hfp2 & _).
  destruct (compute_constr (fp_xtrj (_fp_res s)) (fp_utrj (_fp_res s)) s)
    as [cv s2]. simpl in Hfp2.
  pose proof (compute_defect_frame (fp_xtrj (_fp_res s2)) (fp_utrj (_fp_res s2)) s2)
    as (Hfp3 & _).
  destruct (compute_defect (fp_xtrj (_fp_res s2)) (fp_utrj (_fp_res s2)) s2)
    as [dn s3]. simpl in Hfp3.
  simpl. rewrite Hfp3, Hfp2. split; reflexivity.
Qed.

(** The loop of [forward_pass] leaves the flag [accepted] alone and adds
    the l1 norm of every scaled feedforward step to [step_length]. *)
Lemma forward_pass_loop_flags a s0 k :
  let s := fold_left (fun s i => forward_pass_iter i a s) (seq 0 k) s0 in
  accepted (_fp_res s) = accepted (_fp_res s0) /\
  (step_length (_fp_res s0) = 0 ->
   step_length (_fp_res s) =
   Qsum k (fun i => cwiseAbs_sum (mscale a (bp_lu (_bp_res s0 !!! i))))).
Proof.
  induction k as [|k IH].
  - simpl. split; [reflexivity | intros H; exact H].
  - rewrite fold_left_seq_S.
    pose proof (forward_pass_stages a s0 k) as Hst. cbv zeta in Hst.
    destruct Hst as ((_ & _ & _ & _ & Hbp) & _).
    set (s := fold_left (fun s i => forward_pass_iter i a s) (seq 0 k) s0) in *.
    cbv zeta in IH |- *. destruct IH as (Hacc & Hlen).
    split; [exact Hacc|].
    intros H0. simpl. rewrite (Hlen H0), Hbp. reflexivity.
Qed.

(** X1.  [forward_pass] at step size alpha starts the candidate from the
    current initial state (column 0 of the candidate is column 0 of the
    current state trajectory), clears the flag [accepted], records alpha,
    and leaves the current trajectory, the linearised dynamics, the
    backward-pass results and the horizon as they were. *)
Theorem forward_pass_initial_state (a : Q) (s : IterativeLQR) :
  let s' := forward_pass a s in
  (forall r, coef (fp_xtrj (_fp_res s')) r 0 = coef (_xtrj s) r 0) /\
  accepted (_fp_res s') = false /\
  alpha (_fp_res s') = a /\
  _xtrj s' = _xtrj s /\ _utrj s' = _utrj s /\
  _dyn s' = _dyn s /\ _bp_res s' = _bp_res s /\ _N s' = _N s.
Proof.
  cbv zeta.
  destruct (forward_pass_trajectories a s) as (_ & _ & _ & (HN & Hxt & Hut & Hd & Hb)).
  split; [intros r; apply forward_pass_column0|].
  split.
  { unfold forward_pass.
    destruct (forward_pass_scores_flags
                (fold_left (fun s i => forward_pass_iter i a s)
                           (seq 0 (_N (forward_pass_start a s))) (forward_pass_start a s)))
      as (Hacc & _).
    rewrite Hacc.
    destruct (forward_pass_loop_flags a (forward_pass_start a s)
                (_N (forward_pass_start a s))) as (Hacc2 & _).
    rewrite Hacc2. reflexivity. }
  split; [apply forward_pass_alpha|].
  repeat split; assumption.
Qed.

(** X2.  When the scaled feedforward steps alpha*l_i and the scaled
    defects alpha*d_i vanish at every stage -- at alpha = 0, or at a
    stationary, dynamically feasible trajectory -- [forward_pass] returns
    the current trajectory as the candidate: xhat_i = x_i for i <= N and
    uhat_i = u_i for i < N, whatever the feedback gains. *)
Theorem forward_pass_fixed_point (a : Q) (s : IterativeLQR) :
  (forall i r, (i < _N s)%nat -> a * coef (bp_lu (_bp_res s !!! i)) r 0 == 0) ->
  (forall i r, (i < _N s)%nat -> a * coef (dyn_d (_dyn s !!! i)) r 0 == 0) ->
  let s' := forward_pass a s in
  (forall i r, (i <= _N s)%nat ->
     coef (fp_xtrj (_fp_res s')) r i == coef (_xtrj s) r i) /\
  (forall i r, (i < _N s)%nat ->
     coef (fp_utrj (_fp_res s')) r i == coef (_utrj s) r i).
Proof.
  intros Hl Hd. cbv zeta.
  destruct (forward_pass_trajectories a s) as (Hx & Hu & _ & _).
  rewrite Hx, Hu.
  pose proof (forward_pass_stages a (forward_pass_start a s) (_N s)) as Hst.
  cbv zeta in Hst. destruct Hst as (_ & Hcol & Hst).
  set (s1 := fold_left _ (seq 0 (_N s)) (forward_pass_start a s)) in *.
  assert (Hstate : forall i, (i <= _N s)%nat ->
            forall r, coef (fp_xtrj (_fp_res s1)) r i == coef (_xtrj s) r i).
  { induction i as [|i IH]; intros Hi r.
    - rewrite Hcol. simpl. reflexivity.
    - destruct (Hst i ltac:(lia)) as (_ & Hnext).
      replace (S i) with (i + 1)%nat by lia.
      rewrite Hnext.
      unfold spec_state_update, spec_dx, state.
      change (_xtrj (forward_pass_start a s)) with (_xtrj s).
      change (_bp_res (forward_pass_start a s)) with (_bp_res s).
      change (_dyn (forward_pass_start a s)) with (_dyn s).
      cbn [coef madd mmul msub mscale col rows cols].
      rewrite Qsum_zero.
      2:{ intros k _. rewrite (IH ltac:(lia) k). ring. }
      rewrite Qsum_zero.
      2:{ intros k _. rewrite (Hl i k ltac:(lia)). ring. }
      rewrite (Hd i r ltac:(lia)). ring. }
  split; [intros i r Hi; apply Hstate; exact Hi|].
  intros i r Hi.
  destruct (Hst i Hi) as (Hin & _). rewrite Hin.
  unfold spec_input_update, spec_dx, state, input.
  change (_xtrj (forward_pass_start a s)) with (_xtrj s).
  change (_utrj (forward_pass_start a s)) with (_utrj s).
  change (_bp_res (forward_pass_start a s)) with (_bp_res s).
  cbn [coef madd mmul msub mscale col rows cols].
  rewrite Qsum_zero.
  2:{ intros k _. rewrite (Hstate i ltac:(lia) k). ring. }
  rewrite (Hl i r Hi). ring.
Qed.

Lemma forward_pass_fixed_point_witness :
  coef (bp_lu (_bp_res solver_lqr_solved !!! 0%nat)) 0 0 == - (1) /\
  let s' := forward_pass 0 solver_lqr_solved in
  (forall i r, (i <= _N solver_lqr_solved)%nat ->
     coef (fp_xtrj (_fp_res s')) r i == coef (_xtrj solver_lqr_solved) r i) /\
  (forall i r, (i < _N solver_lqr_solved)%nat ->
     coef (fp_utrj (_fp_res s')) r i == coef (_utrj solver_lqr_solved) r i).
Proof.
  split; [vm_compute; reflexivity|].
  apply (forward_pass_fixed_point 0 solver_lqr_solved); intros i r _; apply Qmult_0_l.
Defined.

(** X3.  The step length that [forward_pass] reports is |alpha| times the
    sum over the stages i < N of the l1 norm of the feedforward step l_i
    saved by the backward pass: the feedback part L_i*dx_i of the input
    update does not enter it. *)
Theorem forward_pass_step_length (a : Q) (s : IterativeLQR) :
  step_length (_fp_res (forward_pass a s)) ==
  Qabs a * Qsum (_N s) (fun i => cwiseAbs_sum (bp_lu (_bp_res s !!! i))).
Proof.
  unfold forward_pass.
  destruct (forward_pass_scores_flags
              (fold_left (fun s i => forward_pass_iter i a s)
                         (seq 0 (_N (forward_pass_start a s))) (forward_pass_start a s)))
    as (_ & Hlen).
  rewrite Hlen.
  destruct (forward_pass_loop_flags a (forward_pass_start a s)
              (_N (forward_pass_start a s))) as (_ & Hsum).
  rewrite (Hsum eq_refl).
  change (_N (forward_pass_start a s)) with (_N s).
  change (_bp_res (forward_pass_start a s)) with (_bp_res s).
  rewrite <- Qsum_scale. apply Qsum_eq. intros i _. apply cwiseAbs_sum_scale.
Qed.

(** The sum that the loop of [compute_defect] accumulates. *)
Lemma compute_defect_sum (xtrj utrj : Mat) (s : IterativeLQR) :
  fst (compute_defect xtrj utrj s) =
  Qsum (_N s)
       (fun i => cwiseAbs_sum (computeDefect (_dyn s !!! i) (col xtrj i) (col utrj i)
                                             (col xtrj (i + 1))))
  / horizon s.
Proof.
  unfold compute_defect.
  set (f := fun (acc : Q * list Temporaries) i => _).
  assert (H : forall k,
             fst (fold_left f (seq 0 k) (0, _tmp s)) =
             Qsum k (fun i => cwiseAbs_sum
                                (computeDefect (_dyn s !!! i) (col xtrj i) (col utrj i)
                                               (col xtrj (i + 1))))).
  { induction k as [|k IH]; [reflexivity|].
    rewrite fold_left_seq_S.
    destruct (fold_left f (seq 0 k) (0, _tmp s)) as [df ts].
    simpl in IH. subst df. reflexivity. }
  specialize (H (_N s)).
  destruct (fold_left f (seq 0 (_N s)) (0, _tmp s)) as [df ts].
  simpl in H |- *. rewrite H. reflexivity.
Qed.

(** X4.  On a horizon of at least one stage the defect norm that
    [compute_defect] returns for a trajectory is never negative, and it is
    zero exactly when the trajectory is dynamically feasible: at every
    stage i < N the integrated state f_i(x_i, u_i) equals x_{i+1},
    coefficient by coefficient. *)
Theorem compute_defect_zero_iff (xtrj utrj : Mat) (s : IterativeLQR) :
  (0 < _N s)%nat ->
  let defect := fst (compute_defect xtrj utrj s) in
  0 <= defect /\
  (defect == 0 <->
   forall i, (i < _N s)%nat ->
     let xint := dyn_f (_dyn s !!! i) (col xtrj i) (col utrj i) in
     forall r j, (r < rows xint)%nat -> (j < cols xint)%nat ->
       coef xint r j == coef xtrj r (i + 1)).
Proof.
  intros HN. cbv zeta. rewrite compute_defect_sum.
  pose proof (horizon_pos s HN) as Hpos.
  split.
  { apply Qdiv_nonneg; [|exact Hpos].
    apply Qsum_nonneg. intros i _. apply cwiseAbs_sum_nonneg. }
  rewrite Qdiv_zero_iff by exact Hpos.
  rewrite Qsum_zero_iff by (intros i _; apply cwiseAbs_sum_nonneg).
  split.
  - intros H i Hi r j Hr Hj.
    specialize (H i Hi). rewrite cwiseAbs_sum_zero_iff in H.
    specialize (H r j Hr Hj). unfold computeDefect in H. simpl in H. lra.
  - intros H i Hi. apply cwiseAbs_sum_zero_iff. intros r j Hr Hj.
    unfold computeDefect. simpl. rewrite (H i Hi r j Hr Hj). ring.
Qed.

Lemma compute_defect_zero_iff_witness :
  (0 < _N solver0)%nat /\
  let defect := fst (compute_defect (_xtrj solver0) (_utrj solver0) solver0) in
  0 <= defect /\
  (defect == 0 <->
   forall i, (i < _N solver0)%nat ->
     let xint := dyn_f (_dyn solver0 !!! i) (col (_xtrj solver0) i)
                       (col (_utrj solver0) i) in
     forall r j, (r < rows xint)%nat -> (j < cols xint)%nat ->
       coef xint r j == coef (_xtrj solver0) r (i + 1)).
Proof.
  split; [simpl; lia|].
  apply (compute_defect_zero_iff (_xtrj solver0) (_utrj solver0) solver0).
  simpl; lia.
Defined.

Lemma compute_constr_at_spec (xtrj utrj : Mat) (i iu : nat) (acc : Q)
    (cs : list Constraint) :
  let r := compute_constr_at xtrj utrj i iu (acc, cs) in
  fst r == acc + (if con_is_valid (cs !!! i)
                  then cwiseAbs_sum (con_f (cs !!! i) (col xtrj i) (col utrj iu))
                  else 0) /\
  forall j, j <> i -> snd r !!! j = cs !!! j.
Proof.
  cbv zeta. unfold compute_constr_at.
  destruct (con_is_valid (cs !!! i)); simpl.
  - split; [reflexivity|]. intros j Hj.
    apply list_lookup_total_insert_ne. congruence.
  - split; [ring | reflexivity].
Qed.

(** The sum that [compute_constr] accumulates: the nodes without a
    constraint contribute nothing. *)
Lemma compute_constr_sum (xtrj utrj : Mat) (s : IterativeLQR) :
  fst (compute_constr xtrj utrj s) ==
  Qsum (S (_N s))
       (fun i => if con_is_valid (_constraint s !!! i)
                 then cwiseAbs_sum (constraint_residual xtrj utrj s i) else 0)
  / horizon s.
Proof.
  unfold compute_constr.
  set (f := fun (acc : Q * list Constraint) i => compute_constr_at xtrj utrj i i acc).
  assert (H : forall k, (k <= _N s)%nat ->
             fst (fold_left f (seq 0 k) (0, _constraint s)) ==
             Qsum k (fun i => if con_is_valid (_constraint s !!! i)
                              then cwiseAbs_sum (constraint_residual xtrj utrj s i) else 0) /\
             forall j, (k <= j)%nat ->
               snd (fold_left f (seq 0 k) (0, _constraint s)) !!! j = _constraint s !!! j).
  { induction k as [|k IH]; intros Hk.
    - simpl. split; [reflexivity | intros j _; reflexivity].
    - rewrite fold_left_seq_S.
      destruct (IH ltac:(lia)) as (Hsum & Hrest).
      destruct (fold_left f (seq 0 k) (0, _constraint s)) as [acc cs].
      simpl in Hsum, Hrest. unfold f.
      destruct (compute_constr_at_spec xtrj utrj k k acc cs) as (Hv & Hcs).
      cbv zeta in Hv, Hcs.
      split.
      + rewrite Hv, Hsum, (Hrest k (le_n k)). simpl Qsum.
        unfold constraint_residual.
        assert ((k <? _N s)%nat = true) as -> by (apply Nat.ltb_lt; lia).
        reflexivity.
      + intros j Hj. rewrite Hcs by lia. apply Hrest. lia. }
  destruct (H (_N s) (le_n _)) as (Hsum & Hrest).
  destruct (fold_left f (seq 0 (_N s)) (0, _constraint s)) as [acc cs].
  simpl in Hsum, Hrest.
  destruct (compute_constr_at_spec xtrj utrj (_N s) (_N s - 1) acc cs) as (Hv & _).
  cbv zeta in Hv.
  destruct (compute_constr_at xtrj utrj (_N s) (_N s - 1) (acc, cs)) as [cv cs'].
  simpl in Hv |- *.
  assert (Hlast : constraint_residual xtrj utrj s (_N s) =
                  con_f (_constraint s !!! _N s) (col xtrj (_N s)) (col utrj (_N s - 1))).
  { unfold constraint_residual. rewrite Nat.ltb_irrefl. reflexivity. }
  rewrite Hv, Hsum, (Hrest (_N s) (le_n _)). cbn [Qsum]. rewrite Hlast.
  reflexivity.
Qed.

(** X5.  On a horizon of at least one stage the constraint violation that
    [compute_constr] returns for a trajectory is never negative, and it is
    zero exactly when every node i <= N that has a constraint satisfies it
    on the trajectory, h_i(x_i, u_i) = 0 coefficient by coefficient (the
    final node being evaluated at the last input u_{N-1}); nodes without a
    constraint play no part. *)
Theorem compute_constr_zero_iff (xtrj utrj : Mat) (s : IterativeLQR) :
  (0 < _N s)%nat ->
  let violation := fst (compute_constr xtrj utrj s) in
  0 <= violation /\
  (violation == 0 <->
   forall i, (i <= _N s)%nat -> con_is_valid (_constraint s !!! i) = true ->
     let h := constraint_residual xtrj utrj s i in
     forall r j, (r < rows h)%nat -> (j < cols h)%nat -> coef h r j == 0).
Proof.
  intros HN. cbv zeta. rewrite compute_constr_sum.
  pose proof (horizon_pos s HN) as Hpos.
  assert (Hnn : forall i, (i < S (_N s))%nat ->
            0 <= (if con_is_valid (_constraint s !!! i)
                  then cwiseAbs_sum (constraint_residual xtrj utrj s i) else 0)).
  { intros i _. destruct (con_is_valid _); [apply cwiseAbs_sum_nonneg | apply Qle_refl]. }
  split.
  { apply Qdiv_nonneg; [|exact Hpos]. apply Qsum_nonneg, Hnn. }
  rewrite Qdiv_zero_iff by exact Hpos.
  rewrite Qsum_zero_iff by exact Hnn.
  split.
  - intros H i Hi Hvalid r j Hr Hj.
    specialize (H i ltac:(lia)). rewrite Hvalid in H.
    rewrite cwiseAbs_sum_zero_iff in H. apply H; assumption.
  - intros H i Hi. destruct (con_is_valid (_constraint s !!! i)) eqn:Hvalid; [|reflexivity].
    apply cwiseAbs_sum_zero_iff. intros r j Hr Hj.
    apply (H i ltac:(lia) Hvalid r j Hr Hj).
Qed.

Lemma compute_constr_zero_iff_witness :
  let s := with_constraint
             [mk_Constraint true (fun x _ => x) (setZero 1 1) (setZero 1 1) (setZero 1 1);
              no_constraint] solver0 in
  (0 < _N s)%nat /\
  let violation := fst (compute_constr (_xtrj s) (_utrj s) s) in
  0 <= violation /\
  (violation == 0 <->
   forall i, (i <= _N s)%nat -> con_is_valid (_constraint s !!! i) = true ->
     let h := constraint_residual (_xtrj s) (_utrj s) s i in
     forall r j, (r < rows h)%nat -> (j < cols h)%nat -> coef h r j == 0).
Proof.
  cbv zeta. split; [simpl; lia|].
  apply (compute_constr_zero_iff
           (_xtrj solver0) (_utrj solver0)
           (with_constraint
              [mk_Constraint true (fun x _ => x) (setZero 1 1) (setZero 1 1) (setZero 1 1);
               no_constraint] solver0)).
  simpl; lia.
Defined.

(* ================================================================== *)
(** ** Further properties: merit weights and the line search *)

(** What the loop of [compute_merit_weights] accumulates: running maxima,
    starting from zero, which the safety factor then doubles. *)
Lemma compute_merit_weights_maxima (s : IterativeLQR) :
  exists lam_x_max lam_g_max,
    fst (compute_merit_weights s) = (lam_x_max * 2, lam_g_max * 2) /\
    0 <= lam_x_max /\ 0 <= lam_g_max /\
    (forall i r, (i < _N s)%nat -> (r < rows (_lam_x s))%nat ->
       Qabs (coef (val_s (_value s !!! i)) r 0) <= lam_x_max) /\
    (forall i r j, (i < _N s)%nat -> (0 < bp_nc (_bp_res s !!! i))%nat ->
       (r < rows (constraint_multiplier s i))%nat ->
       (j < cols (constraint_multiplier s i))%nat ->
       Qabs (coef (constraint_multiplier s i) r j) <= lam_g_max).
Proof.
  unfold compute_merit_weights.
  set (step := fun (acc : Q * Q * Mat * list Mat) (i : nat) => _).
  assert (H : forall k,
    let '(mx, mg, lx, lg) := fold_left step (seq 0 k) (0, 0, _lam_x s, _lam_g s) in
    0 <= mx /\ 0 <= mg /\ rows lx = rows (_lam_x s) /\
    (forall i r, (i < k)%nat -> (r < rows (_lam_x s))%nat ->
       Qabs (coef (val_s (_value s !!! i)) r 0) <= mx) /\
    (forall i r j, (i < k)%nat -> (0 < bp_nc (_bp_res s !!! i))%nat ->
       (r < rows (constraint_multiplier s i))%nat ->
       (j < cols (constraint_multiplier s i))%nat ->
       Qabs (coef (constraint_multiplier s i) r j) <= mg)).
  { induction k as [|k IH].
    - simpl. repeat split; try apply Qle_refl; intros; lia.
    - rewrite fold_left_seq_S.
      destruct (fold_left step (seq 0 k) (0, 0, _lam_x s, _lam_g s))
        as [[[mx mg] lx] lg].
      destruct IH as (Hmx & Hmg & Hrows & Hx & Hg).
      unfold step.
      set (lx' := set_col lx k (val_s (_value s !!! k))).
      set (mx' := std_max mx (cwiseAbs_maxCoeff (col lx' k))).
      destruct (std_max_ge mx (cwiseAbs_maxCoeff (col lx' k))) as (Hge1 & Hge2).
      fold mx' in Hge1, Hge2.
      assert (Hx' : forall i r, (i < S k)%nat -> (r < rows (_lam_x s))%nat ->
                 Qabs (coef (val_s (_value s !!! i)) r 0) <= mx').
      { intros i r Hi Hr. destruct (Nat.eq_dec i k) as [-> | Hne].
        - eapply Qle_trans; [|exact Hge2].
          pose proof (cwiseAbs_maxCoeff_ge (col lx' k) r 0) as Hc.
          simpl in Hc. rewrite Nat.eqb_refl in Hc. apply Hc; lia.
        - eapply Qle_trans; [apply Hx; [lia | exact Hr] | exact Hge1]. }
      destruct (Nat.ltb_spec 0 (bp_nc (_bp_res s !!! k))) as [Hnc | Hnc].
      + fold (constraint_multiplier s k).
        destruct (std_max_ge mg (cwiseAbs_maxCoeff (constraint_multiplier s k)))
          as (Hg1 & Hg2).
        repeat split; try assumption; try lra.
        intros i r j Hi Hpos Hr Hj. destruct (Nat.eq_dec i k) as [-> | Hne].
        * eapply Qle_trans; [apply cwiseAbs_maxCoeff_ge; assumption | exact Hg2].
        * eapply Qle_trans; [apply Hg; [lia | assumption..] | exact Hg1].
      + repeat split; try assumption; try lra.
        intros i r j Hi Hpos Hr Hj. destruct (Nat.eq_dec i k) as [-> | Hne]; [lia|].
        apply Hg; [lia | assumption..]. }
  specialize (H (_N s)).
  destruct (fold_left step (seq 0 (_N s)) (0, 0, _lam_x s, _lam_g s))
    as [[[mx mg] lx] lg].
  destruct H as (Hmx & Hmg & _ & Hx & Hg). cbn [fst snd].
  exists mx, mg. repeat split; assumption.
Qed.

(** X6.  The merit weights that [compute_merit_weights] returns are never
    negative; mu_f is at least twice the absolute value of every
    coefficient of every co-state s_i, i < N (within the rows of the
    co-state trajectory), and mu_c is at least twice the absolute value
    of every coefficient of the multiplier estimate glam_i + Gu_i*l_i of
    every stage i < N that had constraints. *)
Theorem merit_weights_dominate (s : IterativeLQR) :
  let mu_f := fst (fst (compute_merit_weights s)) in
  let mu_c := snd (fst (compute_merit_weights s)) in
  0 <= mu_f /\ 0 <= mu_c /\
  (forall i r, (i < _N s)%nat -> (r < rows (_lam_x s))%nat ->
     2 * Qabs (coef (val_s (_value s !!! i)) r 0) <= mu_f) /\
  (forall i r j, (i < _N s)%nat -> (0 < bp_nc (_bp_res s !!! i))%nat ->
     (r < rows (constraint_multiplier s i))%nat ->
     (j < cols (constraint_multiplier s i))%nat ->
     2 * Qabs (coef (constraint_multiplier s i) r j) <= mu_c).
Proof.
  cbv zeta.
  destruct (compute_merit_weights_maxima s) as (mx & mg & Hw & Hmx & Hmg & Hx & Hg).
  rewrite Hw. cbn [fst snd].
  split; [lra|]. split; [lra|].
  split.
  - intros i r Hi Hr. specialize (Hx i r Hi Hr). lra.
  - intros i r j Hi Hpos Hr Hj. specialize (Hg i r j Hi Hpos Hr Hj). lra.
Qed.

Lemma compute_merit_weights_frame (s : IterativeLQR) :
  let s' := snd (compute_merit_weights s) in
  reports s' = reports s /\ _xtrj s' = _xtrj s /\ _fp_res s' = _fp_res s.
Proof.
  cbv zeta. unfold compute_merit_weights.
  destruct (fold_left _ (seq 0 (_N s)) (0, 0, _lam_x s, _lam_g s)) as [[[mx mg] lx] lg].
  repeat split.
Qed.

Lemma line_search_begin_frame (iter : nat) (s : IterativeLQR) :
  let s0 := snd (line_search_begin iter s) in
  _xtrj s0 = _xtrj s /\
  exists first, reports s0 = reports s ++ first /\
                length first = (if Nat.eqb iter 0 then 1 else 0)%nat.
Proof.
  cbv zeta. unfold line_search_begin.
  pose proof (compute_merit_weights_frame s) as Hfr. cbv zeta in Hfr.
  destruct (compute_merit_weights s) as [[mu_f mu_c] s1].
  simpl in Hfr. destruct Hfr as (Hrep & Hx & _).
  destruct (Nat.eqb iter 0); simpl.
  - split; [exact Hx|]. eexists. rewrite Hrep. split; reflexivity.
  - split; [exact Hx|]. exists []. rewrite Hrep, app_nil_r. split; reflexivity.
Qed.

(** The first [k] turns of the line-search loop leave the current
    trajectory alone and call the iteration callback once each, the last
    time with the result of the last turn. *)
Lemma trials_frame (mu_f mu_c merit0 merit_der0 : Q) (s0 : IterativeLQR) (k : nat) :
  let t := trials k mu_f mu_c merit0 merit_der0 s0 in
  _xtrj t = _xtrj s0 /\
  exists seen, reports t = reports s0 ++ seen /\ length seen = k /\
               ((0 < k)%nat -> last seen = Some (_fp_res t)).
Proof.
  induction k as [|k IH].
  - simpl. split; [reflexivity|]. exists []. rewrite app_nil_r.
    repeat split. intros Hk. lia.
  - cbv zeta in IH |- *. destruct IH as (Hx & seen & Hrep & Hlen & _).
    cbn [trials].
    set (t := trials k mu_f mu_c merit0 merit_der0 s0) in *.
    split.
    + rewrite <- Hx. unfold armijo_trial. simpl.
      destruct (forward_pass_trajectories (backtrack_alpha k) t) as (_ & _ & _ & Hsame).
      destruct Hsame as (_ & Hxt & _). exact Hxt.
    + exists (seen ++ [_fp_res (armijo_trial mu_f mu_c merit0 merit_der0
                                   (backtrack_alpha k) t)]).
      rewrite armijo_trial_reports, Hrep, <- app_assoc.
      split; [reflexivity|]. split; [rewrite length_app, Hlen; simpl; lia|].
      intros _. apply last_snoc.
Qed.

(** X7.  With fuel for eleven turns [line_search] returns; it calls the
    iteration callback at least once and at most twelve times (eleven
    unless it is iteration 0), after whatever was reported before; the
    last call carries the final forward-pass result, which is flagged
    accepted; and column 0 of the state trajectory -- the initial state --
    is what it was before the line search. *)
Theorem line_search_callback (n iter : nat) (s : IterativeLQR) :
  exists (s' : IterativeLQR) (seen : list ForwardPassResult),
    line_search (11 + n) iter s = Some s' /\
    reports s' = reports s ++ seen /\
    (1 <= length seen <= 12)%nat /\
    (iter <> 0%nat -> (length seen <= 11)%nat) /\
    last seen = Some (_fp_res s') /\
    accepted (_fp_res s') = true /\
    forall r, coef (_xtrj s') r 0 = coef (_xtrj s) r 0.
Proof.
  pose proof (line_search_begin_frame iter s) as Hbegin. cbv zeta in Hbegin.
  unfold line_search.
  destruct (line_search_begin iter s) as [[[[mu_f mu_c] merit0] merit_der0] s0].
  simpl in Hbegin. destruct Hbegin as (Hx0 & first & Hrep0 & Hlen0).
  destruct (line_search_loop_from mu_f mu_c merit0 merit_der0 s0 10 0 (11 + n))
    as (m & Hm & Hrun & Hstay & _ & _); [lia | lia |].
  change (trials 0 mu_f mu_c merit0 merit_der0 s0) with s0 in Hrun.
  change (backtrack_alpha 0) with 1 in Hrun.
  rewrite Hrun.
  destruct m as [|k]; [specialize (Hstay eq_refl); lia|].
  pose proof (trials_frame mu_f mu_c merit0 merit_der0 s0 (S k)) as Htr.
  cbv zeta in Htr. destruct Htr as (Hxt & seen & Hrep & Hlen & Hlast).
  specialize (Hlast ltac:(lia)).
  assert (Hcol0 : forall r,
            coef (fp_xtrj (_fp_res (trials (S k) mu_f mu_c merit0 merit_der0 s0))) r 0
            = coef (_xtrj s) r 0).
  { intros r. cbn [trials].
    destruct (armijo_trial_trajectory mu_f mu_c merit0 merit_der0 (backtrack_alpha k)
                (trials k mu_f mu_c merit0 merit_der0 s0)) as (Heq & _).
    rewrite Heq, forward_pass_column0.
    destruct (trials_frame mu_f mu_c merit0 merit_der0 s0 k) as (Hxk & _).
    rewrite Hxk, Hx0. reflexivity. }
  generalize dependent (trials (S k) mu_f mu_c merit0 merit_der0 s0).
  intros t _ Hxt Hrep Hlast Hcol0.
  destruct (line_search_end_spec t) as (H1 & _ & _ & _ & _ & H6 & H7 & H8).
  assert (Hcol : forall r, coef (_xtrj (line_search_end t)) r 0 = coef (_xtrj s) r 0).
  { intros r. rewrite H1. apply Hcol0. }
  assert (Hfirst : (length first <= 1)%nat)
    by (rewrite Hlen0; destruct (Nat.eqb iter 0); lia).
  assert (Hfirst' : iter <> 0%nat -> length first = 0%nat).
  { intros Hne. rewrite Hlen0. destruct (Nat.eqb_spec iter 0); [contradiction | reflexivity]. }
  exists (line_search_end t).
  destruct (accepted (_fp_res t)) eqn:Eacc.
  - exists (first ++ seen).
    split; [reflexivity|].
    split; [rewrite (H7 eq_refl), Hrep, Hrep0, <- app_assoc; reflexivity|].
    split; [rewrite length_app; lia|].
    split; [intros Hne; rewrite length_app, (Hfirst' Hne); lia|].
    split.
    { assert (Hfp : _fp_res (line_search_end t) = _fp_res t).
      { unfold line_search_end. rewrite Eacc. reflexivity. }
      rewrite Hfp. destruct seen as [|x seen'] using rev_ind; [simpl in Hlen; lia|].
      rewrite app_assoc, last_snoc. rewrite last_snoc in Hlast. exact Hlast. }
    split; [exact H6 | exact Hcol].
  - exists (first ++ seen ++ [_fp_res (line_search_end t)]).
    split; [reflexivity|].
    split; [rewrite (H8 eq_refl), Hrep, Hrep0, <- !app_assoc; reflexivity|].
    split; [rewrite !length_app; simpl; lia|].
    split; [intros Hne; rewrite !length_app, (Hfirst' Hne); simpl; lia|].
    split; [rewrite !app_assoc; apply last_snoc|].
    split; [exact H6 | exact Hcol].
Qed.

(* ================================================================== *)
(** ** Further properties: the regularisation controller *)

Lemma increase_regularization_iter (s : IterativeLQR) (n : nat) :
  _hxx_reg_growth_factor (Nat.iter n increase_regularization s) = _hxx_reg_growth_factor s.
Proof. induction n as [|n IH]; [reflexivity | exact IH]. Qed.

Lemma reg_floor_spec (s : IterativeLQR) :
  lit_1em6 <= reg_floor s /\ _hxx_reg s <= reg_floor s /\
  (lit_1em6 <= _hxx_reg s -> reg_floor s = _hxx_reg s).
Proof.
  unfold reg_floor. destruct (Qltb (_hxx_reg s) lit_1em6) eqn:E.
  - apply Qltb_lt in E. unfold lit_1em6 in *. repeat split; lra.
  - apply Qltb_ge in E. repeat split; lra.
Qed.

Lemma increase_regularization_lower (s : IterativeLQR) :
  reg_floor s * _hxx_reg_growth_factor s <= _hxx_reg (increase_regularization s).
Proof.
  rewrite increase_regularization_reg. cbv zeta. fold (reg_floor s).
  destruct (Qltb _ (_hxx_reg_base s)) eqn:E; [apply Qltb_lt in E; lra | apply Qle_refl].
Qed.

Lemma increase_regularization_monotone (s : IterativeLQR) :
  1 <= _hxx_reg_growth_factor s ->
  _hxx_reg s <= _hxx_reg (increase_regularization s) /\
  (1 < _hxx_reg_growth_factor s -> _hxx_reg s < _hxx_reg (increase_regularization s)).
Proof.
  intros Hg.
  pose proof (increase_regularization_lower s) as H1.
  destruct (reg_floor_spec s) as (Ha & Hb & _).
  assert (Hpos : 0 < reg_floor s) by (unfold lit_1em6 in Ha; lra).
  split; [nra | intros Hg1; nra].
Qed.

Lemma Qpower_succ (g : Q) (n : nat) :
  ~ g == 0 -> g ^ Z.of_nat (S n) == g ^ Z.of_nat n * g.
Proof.
  intros Hg. rewrite Nat2Z.inj_succ, <- Z.add_1_r, Qpower_plus by exact Hg.
  reflexivity.
Qed.

(** X8.  With a growth factor g >= 1, [increase_regularization] never
    lowers [_hxx_reg], and raises it strictly when g > 1; after n + 1
    calls in a row [_hxx_reg] is at least 1e-6 * g^(n+1), so repeated
    retries regularise at least geometrically. *)
Theorem increase_regularization_grows (s : IterativeLQR) (n : nat) :
  1 <= _hxx_reg_growth_factor s ->
  let g := _hxx_reg_growth_factor s in
  _hxx_reg s <= _hxx_reg (increase_regularization s) /\
  (1 < g -> _hxx_reg s < _hxx_reg (increase_regularization s)) /\
  lit_1em6 * g ^ Z.of_nat (S n) <= _hxx_reg (Nat.iter (S n) increase_regularization s).
Proof.
  intros Hg. cbv zeta.
  pose proof (increase_regularization_lower s) as H1.
  destruct (reg_floor_spec s) as (Ha & Hb & _).
  assert (Hpos : 0 < reg_floor s) by (unfold lit_1em6 in Ha; lra).
  destruct (increase_regularization_monotone s Hg) as (Hle & Hlt).
  split; [exact Hle|].
  split; [exact Hlt|].
  assert (Hg0 : ~ _hxx_reg_growth_factor s == 0) by lra.
  induction n as [|n IH].
  - change (Nat.iter 1 increase_regularization s) with (increase_regularization s).
    rewrite Qpower_succ by exact Hg0. change (Z.of_nat 0) with 0%Z.
    rewrite Qpower_0_r. unfold lit_1em6 in *. nra.
  - change (Nat.iter (S (S n)) increase_regularization s)
      with (increase_regularization (Nat.iter (S n) increase_regularization s)).
    set (t := Nat.iter (S n) increase_regularization s) in *.
    pose proof (increase_regularization_lower t) as Ht.
    assert (Hgt : _hxx_reg_growth_factor t = _hxx_reg_growth_factor s)
      by apply increase_regularization_iter.
    rewrite Hgt in Ht.
    destruct (reg_floor_spec t) as (_ & Hbt & _).
    rewrite (Qpower_succ _ (S n)) by exact Hg0.
    assert (Hp : 0 <= _hxx_reg_growth_factor s ^ Z.of_nat (S n))
      by (apply Qpower_0_le; lra).
    unfold lit_1em6 in *. nra.
Qed.

Lemma increase_regularization_grows_witness :
  _hxx_reg solver0 < _hxx_reg (increase_regularization solver0) /\
  lit_1em6 * 10 ^ 2 <= _hxx_reg (Nat.iter 2 increase_regularization solver0).
Proof.
  destruct (increase_regularization_grows solver0 1) as (_ & Hlt & Hgeo).
  - vm_compute. discriminate.
  - split; [apply Hlt; vm_compute; reflexivity | exact Hgeo].
Defined.

(** X9.  Let the cube root c that the C library returns for the growth
    factor be exact (c^3 = growth factor) and at least 1, and let
    [_hxx_reg] be at least 1e-6 and at least [_hxx_reg_base].  Then three
    calls of [reduce_regularization] undo one call of
    [increase_regularization]: each of them returns, [_hxx_reg] goes down
    at every call and ends where it was before the increase. *)
Theorem reduce_regularization_undoes_increase `{Libm} (s : IterativeLQR) :
  let c := pow_third (_hxx_reg_growth_factor s) in
  c * c * c == _hxx_reg_growth_factor s ->
  1 <= c ->
  lit_1em6 <= _hxx_reg s ->
  _hxx_reg_base s <= _hxx_reg s ->
  exists s1 s2 s3,
    reduce_regularization (increase_regularization s) = Some s1 /\
    reduce_regularization s1 = Some s2 /\
    reduce_regularization s2 = Some s3 /\
    _hxx_reg s3 == _hxx_reg s /\
    _hxx_reg s3 <= _hxx_reg s2 /\ _hxx_reg s2 <= _hxx_reg s1 /\
    _hxx_reg s1 <= _hxx_reg (increase_regularization s).
Proof.
  cbv zeta. intros Hcube Hc Hreg Hbase.
  set (c := pow_third (_hxx_reg_growth_factor s)) in *.
  assert (Hc0 : Qeq_bool c 0 = false).
  { destruct (Qeq_bool c 0) eqn:E; [|reflexivity]. apply Qeq_bool_iff in E. lra. }
  assert (Hreduce : forall t, _hxx_reg_growth_factor t = _hxx_reg_growth_factor s ->
            _hxx_reg_base t = _hxx_reg_base s ->
            _hxx_reg_base s <= _hxx_reg t / c ->
            reduce_regularization t = Some (with_hxx_reg (_hxx_reg t / c) t)).
  { intros t Hg Hb Hle. unfold reduce_regularization. cbv zeta.
    rewrite Hg, Hb. fold c. unfold ddiv. rewrite Hc0. simpl dlt.
    destruct (Qltb (_hxx_reg t / c) (_hxx_reg_base s)) eqn:E;
      [apply Qltb_lt in E; lra | reflexivity]. }
  assert (Hr0 : 0 < _hxx_reg s) by (unfold lit_1em6 in Hreg; lra).
  assert (Hcc : 1 <= c * c) by nra.
  assert (Hg1 : 1 <= _hxx_reg_growth_factor s) by (rewrite <- Hcube; nra).
  assert (Hinc : _hxx_reg (increase_regularization s)
                 = _hxx_reg s * _hxx_reg_growth_factor s).
  { rewrite increase_regularization_reg. cbv zeta.
    assert (Qltb (_hxx_reg s) lit_1em6 = false) as -> by (apply Qltb_ge; exact Hreg).
    destruct (Qltb _ (_hxx_reg_base s)) eqn:E; [|reflexivity].
    apply Qltb_lt in E. unfold lit_1em6 in *. nra. }
  assert (E1 : _hxx_reg s * _hxx_reg_growth_factor s / c == _hxx_reg s * (c * c)).
  { rewrite <- Hcube. field. lra. }
  assert (E2 : _hxx_reg s * _hxx_reg_growth_factor s / c / c == _hxx_reg s * c).
  { rewrite E1. field. lra. }
  assert (E3 : _hxx_reg s * _hxx_reg_growth_factor s / c / c / c == _hxx_reg s).
  { rewrite E2. field. lra. }
  set (t0 := increase_regularization s) in *.
  set (t1 := with_hxx_reg (_hxx_reg t0 / c) t0).
  set (t2 := with_hxx_reg (_hxx_reg t1 / c) t1).
  set (t3 := with_hxx_reg (_hxx_reg t2 / c) t2).
  change (_hxx_reg t1) with (_hxx_reg t0 / c) in t2, t3.
  change (_hxx_reg t2) with (_hxx_reg t0 / c / c) in t3.
  exists t1, t2, t3.
  split.
  { apply Hreduce; [reflexivity | reflexivity |]. rewrite Hinc, E1. nra. }
  split.
  { apply Hreduce; [reflexivity | reflexivity |].
    change (_hxx_reg t1) with (_hxx_reg t0 / c). rewrite Hinc, E2. nra. }
  split.
  { apply Hreduce; [reflexivity | reflexivity |].
    change (_hxx_reg t2) with (_hxx_reg t0 / c / c). rewrite Hinc, E3. lra. }
  change (_hxx_reg t3) with (_hxx_reg t0 / c / c / c).
  change (_hxx_reg t2) with (_hxx_reg t0 / c / c).
  change (_hxx_reg t1) with (_hxx_reg t0 / c).
  rewrite !Hinc.
  assert (Hmono : forall x, 0 <= x -> x <= x * c) by (intros x Hx; nra).
  assert (Hrc : 0 <= _hxx_reg s * c) by nra.
  assert (Hrcc : 0 <= _hxx_reg s * (c * c)) by nra.
  pose proof (Hmono _ (Qlt_le_weak _ _ Hr0)) as M1.
  pose proof (Hmono _ Hrc) as M2.
  pose proof (Hmono _ Hrcc) as M3.
  split; [exact E3|].
  split; [rewrite E3, E2; lra|].
  split; [rewrite E2, E1; lra|].
  rewrite E1, <- Hcube. lra.
Qed.

Lemma reduce_regularization_undoes_increase_witness :
  _hxx_reg (increase_regularization solver_growth8) == 8 /\
  exists s1 s2 s3,
    @reduce_regularization libm0 (increase_regularization solver_growth8) = Some s1 /\
    @reduce_regularization libm0 s1 = Some s2 /\
    @reduce_regularization libm0 s2 = Some s3 /\
    _hxx_reg s3 == _hxx_reg solver_growth8.
Proof.
  split; [vm_compute; reflexivity|].
  destruct (@reduce_regularization_undoes_increase libm0 solver_growth8)
    as (s1 & s2 & s3 & H1 & H2 & H3 & H4 & _).
  - vm_compute. reflexivity.
  - vm_compute. discriminate.
  - vm_compute. discriminate.
  - vm_compute. discriminate.
  - exists s1, s2, s3. repeat split; assumption.
Defined.

(* ================================================================== *)
(** ** Further properties: bounds and constraint handling *)

Lemma fold_left_append {A I : Type} (p : I -> bool) (g : I -> A) (l : list I)
    (c0 : list A) :
  fold_left (fun c i => if p i then c ++ [g i] else c) l c0 =
  c0 ++ map g (List.filter p l).
Proof.
  revert c0. induction l as [|i l IH]; intros c0; simpl.
  - rewrite app_nil_r. reflexivity.
  - rewrite IH. destruct (p i); simpl; [rewrite <- app_assoc|]; reflexivity.
Qed.

Lemma fold_left_skip {A I : Type} (l : list I) (c0 : A) :
  fold_left (fun c _ => c) l c0 = c0.
Proof. induction l as [|i l IH]; simpl; [reflexivity | exact IH]. Qed.

Lemma add_bound_constraint_spec (k : nat) (s : IterativeLQR) :
  _constraint_to_go (add_bound_constraint k s) =
  _constraint_to_go s ++ state_bound_rows k s ++ input_bound_rows k s.
Proof.
  unfold add_bound_constraint, state_bound_rows, input_bound_rows.
  cbn [_constraint_to_go with_constraint_to_go].
  destruct (Nat.eqb k 0 && fixed_initial_state s);
    destruct (Nat.eqb k (_N s)).
  - rewrite !fold_left_skip, app_nil_r. reflexivity.
  - rewrite fold_left_skip, fold_left_append. reflexivity.
  - rewrite fold_left_skip, fold_left_append, app_nil_r. reflexivity.
  - rewrite !fold_left_append, <- app_assoc. reflexivity.
Qed.

(** X10.  [add_bound_constraint] at node k keeps the rows already in the
    constraint-to-go, in their order, and appends one row per state
    coordinate whose bounds coincide at k, then one row per input
    coordinate whose bounds coincide at k: a unit row on that coordinate
    with residual (current value - bound).  At most nx + nu rows are
    added; no input row at k = N; no state row at k = 0 when the initial
    state is fixed; a coordinate with different bounds adds nothing. *)
Theorem add_bound_constraint_rows (k : nat) (s : IterativeLQR) :
  let s' := add_bound_constraint k s in
  _constraint_to_go s' =
    _constraint_to_go s ++ state_bound_rows k s ++ input_bound_rows k s /\
  (length (_constraint_to_go s) <= length (_constraint_to_go s')
   <= length (_constraint_to_go s) + _nx s + _nu s)%nat /\
  (k = _N s -> input_bound_rows k s = []) /\
  (k = 0%nat -> fixed_initial_state s = true -> state_bound_rows k s = []) /\
  (forall r, In r (state_bound_rows k s) ->
     exists i, (i < _nx s)%nat /\ coef (_x_lb s) i k == coef (_x_ub s) i k /\
               r = mk_CtgRow (Unit (_nx s) i) (repeat 0 (_nu s))
                             (coef (_xtrj s) i k - coef (_x_lb s) i k)) /\
  (forall r, In r (input_bound_rows k s) ->
     exists i, (i < _nu s)%nat /\ coef (_u_lb s) i k == coef (_u_ub s) i k /\
               r = mk_CtgRow (repeat 0 (_nx s)) (Unit (_nu s) i)
                             (coef (_utrj s) i k - coef (_u_lb s) i k)).
Proof.
  cbv zeta. split; [apply add_bound_constraint_spec|].
  split.
  { rewrite add_bound_constraint_spec, !length_app.
    assert (Hx : (length (state_bound_rows k s) <= _nx s)%nat).
    { unfold state_bound_rows. destruct (_ && _); [simpl; lia|].
      rewrite length_map.
      etransitivity; [apply filter_length_le | rewrite length_seq; lia]. }
    assert (Hu : (length (input_bound_rows k s) <= _nu s)%nat).
    { unfold input_bound_rows. destruct (Nat.eqb _ _); [simpl; lia|].
      rewrite length_map.
      etransitivity; [apply filter_length_le | rewrite length_seq; lia]. }
    lia. }
  split.
  { intros ->. unfold input_bound_rows. rewrite Nat.eqb_refl. reflexivity. }
  split.
  { intros -> Hfix. unfold state_bound_rows. rewrite Hfix. reflexivity. }
  split.
  - intros r Hin. unfold state_bound_rows in Hin.
    destruct (_ && _); [destruct Hin|].
    apply in_map_iff in Hin as (i & Hr & Hi).
    apply filter_In in Hi as (Hi & Heq).
    apply in_seq in Hi. apply Qeq_bool_iff in Heq.
    exists i. split; [lia|]. split; [exact Heq | symmetry; exact Hr].
  - intros r Hin. unfold input_bound_rows in Hin.
    destruct (Nat.eqb _ _); [destruct Hin|].
    apply in_map_iff in Hin as (i & Hr & Hi).
    apply filter_In in Hi as (Hi & Heq).
    apply in_seq in Hi. apply Qeq_bool_iff in Heq.
    exists i. split; [lia|]. split; [exact Heq | symmetry; exact Hr].
Qed.

Lemma state_bound_rows_nil (k : nat) (s : IterativeLQR) :
  (forall r, (r < _nx s)%nat -> ~ coef (_x_lb s) r k == coef (_x_ub s) r k) ->
  state_bound_rows k s = [].
Proof.
  intros Hne. unfold state_bound_rows. destruct (_ && _); [reflexivity|].
  rewrite filter_nil; [reflexivity|].
  intros i Hi. apply in_seq in Hi.
  destruct (Qeq_bool _ _) eqn:E; [|reflexivity].
  apply Qeq_bool_iff in E. exfalso. apply (Hne i); [lia | exact E].
Qed.

Lemma input_bound_rows_nil (k : nat) (s : IterativeLQR) :
  (forall r, (r < _nu s)%nat -> ~ coef (_u_lb s) r k == coef (_u_ub s) r k) ->
  input_bound_rows k s = [].
Proof.
  intros Hne. unfold input_bound_rows. destruct (Nat.eqb _ _); [reflexivity|].
  rewrite filter_nil; [reflexivity|].
  intros i Hi. apply in_seq in Hi.
  destruct (Qeq_bool _ _) eqn:E; [|reflexivity].
  apply Qeq_bool_iff in E. exfalso. apply (Hne i); [lia | exact E].
Qed.

(** The rows that [handle_constraints] finds stacked at stage [i]: the
    propagated rows, the stage's own rows, the bound rows. *)
Lemma stack_constraints_rows (i : nat) (s : IterativeLQR) :
  let dyn := _dyn s !!! i in
  _constraint_to_go (stack_constraints i s) =
  ctg_add_constraint (_constraint s !!! i)
    (propagate_backwards (dyn_A dyn) (dyn_B dyn) (dyn_d dyn) (_constraint_to_go s))
  ++ state_bound_rows i s ++ input_bound_rows i s.
Proof.
  cbv zeta. unfold stack_constraints. cbv zeta.
  cbn [_constraint_to_go with_bp_res].
  rewrite add_bound_constraint_spec. reflexivity.
Qed.

Lemma handle_constraints_nothing `{Externals} (i : nat) (s : IterativeLQR) :
  _constraint_to_go (stack_constraints i s) = [] ->
  handle_constraints i s =
    (inr (mk_FeasibleConstraint (setZero 0 (_nx s)) (setZero 0 (_nu s)) (setZero 0 1)),
     stack_constraints i s).
Proof.
  intros Hrows. unfold handle_constraints, bind, modify, get.
  rewrite Hrows. reflexivity.
Qed.

(** X11.  At a stage with nothing to treat -- an empty constraint-to-go,
    no constraint of its own and no coordinate whose bounds coincide --
    [handle_constraints] returns an empty feasible block, leaves the
    constraint-to-go empty and gives no warning, without calling
    [THROW_NAN] or any decomposition: the configured decomposition type
    plays no part, whether supported or not. *)
Theorem handle_constraints_unconstrained `{Externals} (i : nat) (s : IterativeLQR) :
  _constraint_to_go s = [] ->
  con_is_valid (_constraint s !!! i) = false ->
  (forall r, (r < _nx s)%nat -> ~ coef (_x_lb s) r i == coef (_x_ub s) r i) ->
  (forall r, (r < _nu s)%nat -> ~ coef (_u_lb s) r i == coef (_u_ub s) r i) ->
  handle_constraints i s =
    (inr (mk_FeasibleConstraint (setZero 0 (_nx s)) (setZero 0 (_nu s)) (setZero 0 1)),
     stack_constraints i s) /\
  _constraint_to_go (stack_constraints i s) = [] /\
  stdout (stack_constraints i s) = stdout s.
Proof.
  intros Hctg Hvalid Hx Hu.
  assert (Hrows : _constraint_to_go (stack_constraints i s) = []).
  { rewrite stack_constraints_rows. cbv zeta.
    rewrite Hctg, (state_bound_rows_nil i s Hx), (input_bound_rows_nil i s Hu).
    unfold ctg_add_constraint. rewrite Hvalid. reflexivity. }
  split; [|split; [exact Hrows | reflexivity]].
  apply handle_constraints_nothing. exact Hrows.
Qed.

Lemma handle_constraints_unconstrained_witness :
  fst (@handle_constraints ext0 0 (with_decomp_types Lu Lu solver0)) =
    inr (mk_FeasibleConstraint (setZero 0 1) (setZero 0 1) (setZero 0 1)) /\
  _constraint_to_go (snd (@handle_constraints ext0 0 (with_decomp_types Lu Lu solver0))) = [].
Proof.
  destruct (@handle_constraints_unconstrained ext0 0 (with_decomp_types Lu Lu solver0))
    as (Hrun & Hctg & _).
  - reflexivity.
  - reflexivity.
  - intros r _ Heq. vm_compute in Heq. discriminate Heq.
  - intros r _ Heq. vm_compute in Heq. discriminate Heq.
  - rewrite Hrun. split; [reflexivity | exact Hctg].
Defined.

(** X12.  With LDLT or LU configured as the constraint decomposition and
    at least one row to treat, [handle_constraints] never returns: it
    ends in an exception, with the constraint-to-go holding the stacked
    rows.  The exception is [std::invalid_argument] when [THROW_NAN] lets
    the three stacked matrices C, D and h through, and the exception of
    [THROW_NAN] when it throws on one of them. *)
Theorem handle_constraints_unsupported_decomposition `{Externals} (i : nat)
    (s : IterativeLQR) :
  _constr_decomp_type s = Ldlt \/ _constr_decomp_type s = Lu ->
  _constraint_to_go (stack_constraints i s) <> [] ->
  let stacked := _constraint_to_go (stack_constraints i s) in
  let C := fin_mat (ctg_C (_nx s) stacked) in
  let D := fin_mat (ctg_D (_nu s) stacked) in
  let h := fin_mat (ctg_h stacked) in
  (forall fc s', handle_constraints i s <> (inr fc, s')) /\
  (THROW_NAN C = false -> THROW_NAN D = false -> THROW_NAN h = false ->
   handle_constraints i s = (inl InvalidArgument, stack_constraints i s)) /\
  (THROW_NAN C = true \/ THROW_NAN D = true \/ THROW_NAN h = true ->
   handle_constraints i s = (inl NanDetected, stack_constraints i s)).
Proof.
  intros Hty Hne. cbv zeta.
  assert (Hdim : Nat.eqb (ctg_dim (_constraint_to_go (stack_constraints i s))) 0 = false).
  { apply Nat.eqb_neq. unfold ctg_dim.
    destruct (_constraint_to_go (stack_constraints i s)); [contradiction | discriminate]. }
  assert (Hrun : handle_constraints i s =
            (let stacked := _constraint_to_go (stack_constraints i s) in
             if THROW_NAN (fin_mat (ctg_C (_nx s) stacked)) then inl NanDetected
             else if THROW_NAN (fin_mat (ctg_D (_nu s) stacked)) then inl NanDetected
             else if THROW_NAN (fin_mat (ctg_h stacked)) then inl NanDetected
             else inl InvalidArgument,
             stack_constraints i s)).
  { unfold handle_constraints, bind, modify, get, throw_nan.
    rewrite Hdim.
    change (_nx (stack_constraints i s)) with (_nx s).
    change (_nu (stack_constraints i s)) with (_nu s).
    destruct (stack_constraints_config i s) as (Hcfg & _). rewrite Hcfg.
    cbv zeta.
    destruct (THROW_NAN (fin_mat (ctg_C _ _))); [reflexivity|].
    destruct (THROW_NAN (fin_mat (ctg_D _ _))); [reflexivity|].
    destruct (THROW_NAN (fin_mat (ctg_h _))); [reflexivity|].
    destruct Hty as [Hty | Hty]; rewrite Hty; reflexivity. }
  cbv zeta in Hrun.
  split.
  { intros fc s' Heq. rewrite Hrun in Heq.
    destruct (THROW_NAN _); [discriminate Heq|].
    destruct (THROW_NAN _); [discriminate Heq|].
    destruct (THROW_NAN _); discriminate Heq. }
  split.
  - intros HC HD Hh. rewrite Hrun, HC, HD, Hh. reflexivity.
  - intros Hthrow. rewrite Hrun.
    destruct (THROW_NAN (fin_mat (ctg_C _ _))); [reflexivity|].
    destruct (THROW_NAN (fin_mat (ctg_D _ _))); [reflexivity|].
    destruct (THROW_NAN (fin_mat (ctg_h _))); [reflexivity|].
    destruct Hthrow as [Ht | [Ht | Ht]]; discriminate Ht.
Qed.

Lemma handle_constraints_unsupported_decomposition_witness :
  fst (@handle_constraints ext_nan 0 solver_constr_lu) = inl InvalidArgument /\
  length (_constraint_to_go (snd (@handle_constraints ext_nan 0 solver_constr_lu))) = 2%nat.
Proof.
  destruct (@handle_constraints_unsupported_decomposition ext_nan 0 solver_constr_lu)
    as (_ & Hthrow & _).
  - right. reflexivity.
  - vm_compute. discriminate.
  - rewrite Hthrow; [split; [reflexivity | vm_compute; reflexivity] | | |];
      vm_compute; reflexivity.
Defined.

(** X13.  Whenever [handle_constraints] returns, every one of the nc rows
    stacked at the stage is accounted for: the feasible block has `rank'
    rows (the same number in C, D and h), and the number of rows pushed
    back to the previous stage plus the number of warnings printed for
    dropped rows is nc - rank; in particular the constraint-to-go handed
    to the previous stage never holds more than nc rows, and nothing
    printed before is lost. *)
Theorem handle_constraints_accounting `{Externals} (i : nat) (s s' : IterativeLQR)
    (fc : FeasibleConstraint) :
  handle_constraints i s = (inr fc, s') ->
  let nc := ctg_dim (_constraint_to_go (stack_constraints i s)) in
  let rank := rows (fc_h fc) in
  let pushed := length (_constraint_to_go s') in
  exists warnings,
    stdout s' = stdout s ++ warnings /\
    (pushed + length warnings = nc - rank)%nat /\
    (pushed <= nc)%nat /\
    rows (fc_C fc) = rank /\ rows (fc_D fc) = rank.
Proof.
  cbv zeta. intros Hrun.
  pose proof Hrun as Hok.
  apply handle_constraints_ok in Hok. cbv zeta in Hok.
  destruct Hok as [(Hz & _ & _) | (Hnz & rank & codQ & _ & -> & ->)].
  - assert (Hnil : _constraint_to_go (stack_constraints i s) = []).
    { unfold ctg_dim in Hz. destruct (_constraint_to_go _); [reflexivity | discriminate Hz]. }
    rewrite (handle_constraints_nothing i s Hnil) in Hrun.
    injection Hrun as <- <-.
    exists []. rewrite app_nil_r, Hnil.
    split; [reflexivity|]. cbn. repeat split; lia.
  - set (s1 := stack_constraints i s) in *.
    set (nc := ctg_dim (_constraint_to_go s1)) in *.
    set (Cinf := mmul (transpose (rightCols codQ (nc - rank))) _).
    set (hinf := mmul (transpose (rightCols codQ (nc - rank))) (ctg_h _)).
    destruct (push_infeasible_spec Cinf hinf s1) as (Hctg & Hstd).
    cbv zeta in Hctg, Hstd.
    change (rows hinf) with (nc - rank)%nat in Hctg, Hstd.
    exists (map WarnLinearlyDependent
                (List.filter (linearly_dependent Cinf hinf) (seq 0 (nc - rank)))).
    split; [exact Hstd|].
    rewrite Hctg, !length_map.
    pose proof (filter_partition_length (linearly_dependent Cinf hinf) (seq 0 (nc - rank)))
      as Hpart.
    rewrite length_seq in Hpart.
    cbn [fc_h fc_C fc_D rows mmul transpose leftCols cols].
    repeat split; lia.
Qed.

Lemma handle_constraints_accounting_witness :
  let r := @handle_constraints ext0 0 solver_two_rows in
  ctg_dim (_constraint_to_go (stack_constraints 0 solver_two_rows)) = 2%nat /\
  length (_constraint_to_go (snd r)) = 1%nat /\
  exists warnings,
    stdout (snd r) = stdout solver_two_rows ++ warnings /\ length warnings = 1%nat.
Proof.
  cbv zeta.
  assert (Hok : is_ok (fst (@handle_constraints ext0 0 solver_two_rows)) = true)
    by (vm_compute; reflexivity).
  assert (Hlen : length (_constraint_to_go (snd (@handle_constraints ext0 0 solver_two_rows)))
                 = 1%nat) by (vm_compute; reflexivity).
  assert (Hrank : match fst (@handle_constraints ext0 0 solver_two_rows) with
                  | inr fc => rows (fc_h fc) = 0%nat
                  | inl _ => True
                  end) by (vm_compute; reflexivity).
  assert (Hnc : ctg_dim (_constraint_to_go (stack_constraints 0 solver_two_rows)) = 2%nat)
    by (vm_compute; reflexivity).
  destruct (@handle_constraints ext0 0 solver_two_rows) as [[e | fc] s'] eqn:Hrun;
    [discriminate Hok|].
  cbv beta iota delta [fst snd] in Hlen, Hrank |- *.
  destruct (@handle_constraints_accounting ext0 0 solver_two_rows s' fc Hrun)
    as (warnings & Hout & Hsum & _).
  split; [exact Hnc|]. split; [exact Hlen|].
  exists warnings. split; [exact Hout|].
  rewrite Hnc, Hrank, Hlen in Hsum. lia.
Defined.

(* ================================================================== *)
(** ** Further properties: the KKT system *)

(** X14.  The KKT matrix that [backward_pass_iter] hands to the
    factorisation is square, of size nu + nc, and symmetric whenever the
    regularised input Hessian Huu is (and the feasible input Jacobian has
    as many columns as Huu): its blocks are Huu, D', D and -kkt_reg * I. *)
Theorem form_kkt_symmetric (nu nc : nat) (kkt_reg : Q) (Huu Hux hu : Mat)
    (cf : FeasibleConstraint) :
  is_symmetric Huu ->
  rows Huu = cols Huu ->
  cols (fc_D cf) = cols Huu ->
  let K := fst (form_kkt nu nc kkt_reg Huu Hux hu cf) in
  is_symmetric K /\
  rows K = (rows Huu + rows (fc_D cf))%nat /\
  cols K = (cols Huu + rows (fc_D cf))%nat.
Proof.
  intros Hsym Hsq Hd. cbv zeta. split; [|split; reflexivity].
  intros a b. unfold form_kkt. cbn [fst coef vstack hstack transpose rows cols
                                     add_diagonal setZero].
  rewrite Hd, Hsq.
  destruct (Nat.ltb_spec a (cols Huu)) as [Ha | Ha];
    destruct (Nat.ltb_spec b (cols Huu)) as [Hb | Hb].
  - apply Hsym.
  - reflexivity.
  - reflexivity.
  - destruct (Nat.eqb_spec (a - cols Huu) (b - cols Huu)) as [Heq | Hneq].
    + rewrite Heq, Nat.eqb_refl. reflexivity.
    + destruct (Nat.eqb_spec (b - cols Huu) (a - cols Huu)) as [Heq' | _];
        [congruence | reflexivity].
Qed.

Lemma form_kkt_symmetric_witness :
  let cf := mk_FeasibleConstraint (of_rows 2 [[5; 6]]) (of_rows 2 [[3; 4]])
                                  (of_rows 1 [[7]]) in
  let K := fst (form_kkt 2 1 (1 # 10) (identity 2) (setZero 2 2) (setZero 2 1) cf) in
  is_symmetric K /\ rows K = 3%nat /\ cols K = 3%nat /\
  coef K 0 2 == 3 /\ coef K 2 1 == 4 /\ coef K 2 2 == - (1 # 10).
Proof.
  cbv zeta.
  destruct (form_kkt_symmetric 2 1 (1 # 10) (identity 2) (setZero 2 2) (setZero 2 1)
              (mk_FeasibleConstraint (of_rows 2 [[5; 6]]) (of_rows 2 [[3; 4]])
                                     (of_rows 1 [[7]])))
    as (Hsym & Hr & Hc).
  - intros a b. simpl. rewrite Nat.eqb_sym. reflexivity.
  - reflexivity.
  - reflexivity.
  - split; [exact Hsym|]. split; [exact Hr|]. split; [exact Hc|].
    repeat split; vm_compute; reflexivity.
Defined.

(* ================================================================== *)
(** ** Further properties: the backward pass as a whole *)

Lemma preserves_weaken (R R' : IterativeLQR -> IterativeLQR -> Prop) {A : Type}
    (m : M A) :
  (forall s s', R s s' -> R' s s') -> preserves R m -> preserves R' m.
Proof. intros Himp Hm s r s' Heq. apply Himp. exact (Hm s r s' Heq). Qed.

Section BackwardPassFrame.

Context {ext : Externals} {T : Type} (proj : IterativeLQR -> T).

Hypothesis proj_ctg : forall c s, proj (with_constraint_to_go c s) = proj s.
Hypothesis proj_stdout : forall o s, proj (with_stdout o s) = proj s.
Hypothesis proj_tmp : forall t s, proj (with_tmp t s) = proj s.
Hypothesis proj_bp_res : forall r s, proj (with_bp_res r s) = proj s.
Hypothesis proj_value : forall v s, proj (with_value v s) = proj s.

Lemma backward_pass_stages_keeps k : preserves (keeps proj) (backward_pass_stages k).
Proof.
  pose proof (keeps_refl proj) as Hr. pose proof (keeps_trans proj) as Ht.
  induction k as [|k IH]; simpl.
  - preserves_step.
  - preserves_step; [|exact IH].
    apply backward_pass_iter_keeps; auto.
Qed.

Lemma readd_violated_keeps Cinf hinf dx s : proj (readd_violated Cinf hinf dx s) = proj s.
Proof.
  unfold readd_violated.
  rewrite <- (proj_ctg ctg_clear s).
  apply (fold_left_keeps (keeps proj) (keeps_refl proj) (keeps_trans proj)).
  intros s0 j. unfold keeps.
  destruct (dlt _ _); [reflexivity | apply proj_ctg].
Qed.

Lemma optimize_initial_state_keeps : preserves (keeps proj) optimize_initial_state.
Proof.
  pose proof (keeps_refl proj) as Hr. pose proof (keeps_trans proj) as Ht.
  unfold optimize_initial_state.
  preserves_step; [preserves_step|].
  destruct (fixed_initial_state a).
  { preserves_step. intros s. apply proj_bp_res. }
  do 2 (preserves_step; [preserves_step|]).
  destruct (_kkt_decomp_type a); cbv beta iota;
    solve [ preserves_step
          | preserves_step; [preserves_step|];
            preserves_step; [preserves_step; intros s; apply proj_bp_res|];
            preserves_step; intros s; apply readd_violated_keeps ].
Qed.

Lemma backward_pass_finish_keeps : preserves (keeps proj) backward_pass_finish.
Proof.
  pose proof (keeps_refl proj) as Hr. pose proof (keeps_trans proj) as Ht.
  unfold backward_pass_finish.
  preserves_step; [apply optimize_initial_state_keeps|].
  preserves_step. intros s. unfold keeps.
  destruct (0 <? _)%nat; [|reflexivity].
  destruct (dgt _ _); [apply proj_stdout | reflexivity].
Qed.

Lemma backward_pass_init_keeps s : proj (backward_pass_init s) = proj s.
Proof.
  unfold backward_pass_init. cbv zeta.
  rewrite add_bound_constraint_keeps by assumption.
  rewrite proj_ctg, proj_value. reflexivity.
Qed.

Hypothesis proj_hxx_reg : forall r s, proj (with_hxx_reg r s) = proj s.

Lemma backward_pass_keeps fuel :
  forall s out s', backward_pass fuel s = Some (out, s') -> proj s' = proj s.
Proof.
  induction fuel as [|fuel IH]; intros s out s' Heq; [discriminate Heq|].
  simpl in Heq.
  destruct (backward_pass_stages (_N s) (backward_pass_init s)) as [[e | u] s1] eqn:Hst.
  - apply backward_pass_stages_keeps in Hst. unfold keeps in Hst.
    rewrite backward_pass_init_keeps in Hst.
    destruct e.
    + apply IH in Heq. rewrite Heq. unfold increase_regularization.
      rewrite proj_hxx_reg. exact Hst.
    + injection Heq as _ <-. exact Hst.
    + injection Heq as _ <-. exact Hst.
  - apply backward_pass_stages_keeps in Hst. unfold keeps in Hst.
    rewrite backward_pass_init_keeps in Hst.
    injection Heq as Heq.
    destruct (backward_pass_finish s1) as [out1 s2] eqn:Hfin.
    injection Heq as _ <-.
    apply backward_pass_finish_keeps in Hfin. unfold keeps in Hfin. congruence.
Qed.

End BackwardPassFrame.

Section NeverReturns.

Context {ext : Externals}.
Variable P : IterativeLQR -> Prop.

Lemma never_returns_throw {A : Type} (e : Exn) : never_returns P (@throw A e).
Proof. intros s _ a s' Heq. discriminate Heq. Qed.

Lemma never_returns_bind {A B : Type} (m : M A) (k : A -> M B) :
  (forall s a s', P s -> m s = (inr a, s') -> P s') ->
  (forall a, never_returns P (k a)) -> never_returns P (bind m k).
Proof.
  intros Hm Hk s Hs b s' Heq.
  apply bind_ok_inv in Heq as (a & s1 & Hms & Hks).
  exact (Hk a s1 (Hm _ _ _ Hs Hms) b s' Hks).
Qed.

Lemma never_returns_get {B : Type} (k : IterativeLQR -> M B) :
  (forall s, P s -> forall b s', k s s <> (inr b, s')) ->
  never_returns P (bind get k).
Proof.
  intros Hk s Hs b s' Heq. unfold bind, get in Heq. exact (Hk s Hs b s' Heq).
Qed.

End NeverReturns.

Section UnsupportedKkt.

Context {ext : Externals}.

Lemma unsupported_kkt_throw_nan m s a s' :
  unsupported_kkt s -> throw_nan m s = (inr a, s') -> unsupported_kkt s'.
Proof. intros Hs Heq. apply throw_nan_ok in Heq as (-> & _). exact Hs. Qed.

Lemma solve_stage_unsupported i : never_returns unsupported_kkt (solve_stage i).
Proof.
  unfold solve_stage.
  apply never_returns_bind.
  { intros s fc s' Hs Hrun.
    apply (handle_constraints_keeps _kkt_decomp_type) in Hrun; try reflexivity.
    unfold keeps in Hrun. unfold unsupported_kkt. rewrite Hrun. exact Hs. }
  intros fc. apply never_returns_get. intros s Hs.
  refine (never_returns_bind unsupported_kkt _ _ (unsupported_kkt_throw_nan _) _ s Hs).
  intros _.
  apply never_returns_bind; [apply unsupported_kkt_throw_nan | intros _].
  apply never_returns_bind.
  { intros s0 a s' Hs0 Hm. apply modify_inv in Hm as (_ & ->). exact Hs0. }
  intros _.
  destruct (form_kkt _ _ _ _ _ _ _) as [K kx0].
  apply never_returns_bind; [apply unsupported_kkt_throw_nan | intros _].
  apply never_returns_bind; [apply unsupported_kkt_throw_nan | intros _].
  destruct Hs as [Hty | Hty]; rewrite Hty; apply never_returns_throw.
Qed.

Lemma backward_pass_iter_unsupported i s :
  unsupported_kkt s ->
  forall r s', backward_pass_iter i s = (r, s') ->
    exists e, r = inl e /\ (e = InvalidArgument \/ e = NanDetected).
Proof.
  intros Hty. unfold backward_pass_iter. intros r s' Hrun.
  apply bind_inv in Hrun as [(e & Hsolve & ->) | (a & s1 & Hsolve & _)].
  - exists e. split; [reflexivity|].
    destruct e; [|right; reflexivity | left; reflexivity].
    exfalso. exact (solve_stage_no_hessian i _ _ Hsolve).
  - exfalso. exact (solve_stage_unsupported i s Hty a s1 Hsolve).
Qed.

End UnsupportedKkt.

(** X15.  With COD or SVD configured as the KKT decomposition, no stage
    ever gets its KKT system solved, and on a horizon of at least one
    stage [backward_pass] ends at once -- without any retry, and with
    [_hxx_reg] unchanged -- in [std::invalid_argument] (or in what
    [THROW_NAN] throws, if it throws first). *)
Theorem backward_pass_unsupported_kkt `{Externals} (fuel : nat) (s : IterativeLQR) :
  (0 < _N s)%nat ->
  _kkt_decomp_type s = Cod \/ _kkt_decomp_type s = Svd ->
  (forall i k s', solve_stage i s <> (inr k, s')) /\
  exists e s',
    backward_pass (S fuel) s = Some (inl e, s') /\
    (e = InvalidArgument \/ e = NanDetected) /\
    _hxx_reg s' = _hxx_reg s.
Proof.
  intros HN Hty.
  split; [intros i k s'; apply (solve_stage_unsupported i s Hty)|].
  destruct (_N s) as [|n] eqn:EN; [lia|].
  destruct (backward_pass_iter n (backward_pass_init s)) as [r s'] eqn:Hrun.
  destruct (backward_pass_iter_unsupported n (backward_pass_init s) Hty r s' Hrun)
    as (e & -> & He).
  exists e, s'.
  assert (Hreg : _hxx_reg s' = _hxx_reg s).
  { apply (backward_pass_iter_keeps _hxx_reg) in Hrun; try reflexivity. exact Hrun. }
  split; [|split; [exact He | exact Hreg]].
  simpl. rewrite EN. simpl. unfold bind. rewrite Hrun.
  destruct He as [-> | ->]; reflexivity.
Qed.

Lemma backward_pass_unsupported_kkt_witness :
  exists e s',
    @backward_pass ext0 1 solver_kkt_cod = Some (inl e, s') /\
    (e = InvalidArgument \/ e = NanDetected) /\
    _hxx_reg s' = _hxx_reg solver_kkt_cod.
Proof.
  destruct (@backward_pass_unsupported_kkt ext0 0 solver_kkt_cod) as (_ & Hrun).
  - simpl; lia.
  - left. reflexivity.
  - exact Hrun.
Defined.

(** X16.  Whatever its outcome, [backward_pass] leaves the problem as it
    found it: dimensions and horizon, costs, constraints, linearised
    dynamics, current trajectory, bounds, forward-pass result, multiplier
    trajectories, reported results and every option other than
    [_hxx_reg]. *)
Theorem backward_pass_frame `{Externals} (fuel : nat) (s s' : IterativeLQR)
    (out : Exn + unit) :
  backward_pass fuel s = Some (out, s') ->
  problem_data s' = problem_data s.
Proof.
  intros Hrun.
  apply (backward_pass_keeps problem_data) with (fuel := fuel) (out := out);
    try reflexivity; exact Hrun.
Qed.

Lemma backward_pass_frame_witness :
  match @backward_pass ext0 2 solver_singular with
  | Some (_, s') => problem_data s' = problem_data solver_singular
  | None => False
  end.
Proof.
  assert (Hsome : match @backward_pass ext0 2 solver_singular with
                  | Some _ => true
                  | None => false
                  end = true) by (vm_compute; reflexivity).
  destruct (@backward_pass ext0 2 solver_singular) as [[out s']|] eqn:Hrun;
    [|discriminate Hsome].
  exact (@backward_pass_frame ext0 2 solver_singular s' out Hrun).
Defined.

Section ValueFrame.

Context {ext : Externals}.

Lemma value_changes_at_refl i s : value_changes_at i s s.
Proof. split; reflexivity. Qed.

Lemma value_changes_at_trans i s1 s2 s3 :
  value_changes_at i s1 s2 -> value_changes_at i s2 s3 -> value_changes_at i s1 s3.
Proof.
  intros (H1 & H2) (H3 & H4). split; [congruence|].
  intros j Hj. rewrite H4, H2 by exact Hj. reflexivity.
Qed.

(** Stage [i] writes the value function of stage [i] only, whether it
    returns or throws. *)
Lemma backward_pass_iter_value i :
  preserves (value_changes_at i) (backward_pass_iter i).
Proof.
  pose proof (value_changes_at_refl i) as Hr.
  pose proof (value_changes_at_trans i) as Ht.
  unfold backward_pass_iter.
  preserves_step.
  { apply (preserves_weaken (keeps _value)); [|apply solve_stage_keeps_value].
    intros s s' Hk. unfold keeps in Hk. split; rewrite Hk; reflexivity. }
  preserves_step; [preserves_step|].
  preserves_step; [preserves_step|].
  destruct (negb (allFinite (ks_u_lam a)) || hasNaN (ks_u_lam a)); [preserves_step|].
  preserves_step; [preserves_step; intros s; split; reflexivity|].
  preserves_step.
  { preserves_step. intros s. split; simpl.
    - apply length_insert.
    - intros j Hj. apply list_lookup_total_insert_ne. congruence. }
  preserves_step; preserves_step.
Qed.

(** The members that decide [symmetric_stage]. *)
Lemma symmetric_stage_keeps (s s' : IterativeLQR) (i : nat) :
  (_cost s', _dyn s', _nx s', _nu s') = (_cost s, _dyn s, _nx s, _nu s) ->
  symmetric_stage s i -> symmetric_stage s' i.
Proof.
  intros Heq. injection Heq as Hc Hd Hnx Hnu.
  unfold symmetric_stage. rewrite Hc, Hd, Hnx, Hnu. exact (fun H => H).
Qed.

(** After the stages k-1, ..., 0 have returned on symmetric costs, every
    stage holds a symmetric value matrix if the stages from [k] on did. *)
Lemma backward_pass_stages_symmetric k :
  forall s s', backward_pass_stages k s = (inr tt, s') ->
    (k <= _N s)%nat -> length (_value s) = S (_N s) ->
    (forall i, (i < _N s)%nat -> symmetric_stage s i) ->
    symmetric_from k s -> symmetric_from 0 s'.
Proof.
  induction k as [|k IH]; intros s s'.
  - intros Hrun. inversion Hrun; subst. intros _ _ _ Hfrom. exact Hfrom.
  - simpl. intros Hrun Hk Hlen Hcosts Hfrom.
    apply bind_ok_inv in Hrun as ([] & s1 & Hiter & Hrest).
    pose proof (backward_pass_iter_value k _ _ _ Hiter) as (Hlen1 & Hother1).
    pose proof Hiter as Hkeep.
    apply (backward_pass_iter_keeps (fun s => (_cost s, _dyn s, _nx s, _nu s, _N s)))
      in Hkeep; try reflexivity.
    unfold keeps in Hkeep. injection Hkeep as Hc Hd Hnx Hnu HN.
    destruct (Hcosts k ltac:(lia)) as (HQ & HR & HcQ & HcR & HrP & HrA & HrB).
    destruct (Hfrom (k + 1)%nat ltac:(lia)) as (HS & HcS).
    destruct (backward_pass_iter_symmetric k s s1 Hiter ltac:(lia) HQ HR HS
                ltac:(congruence) ltac:(congruence) HcR HrP) as (Hsym & Hcols).
    apply (IH s1 s' Hrest).
    + rewrite HN. lia.
    + rewrite Hlen1, HN. exact Hlen.
    + intros i Hi. apply (symmetric_stage_keeps s s1); [congruence|].
      apply Hcosts. rewrite <- HN. exact Hi.
    + intros j Hj. rewrite Hnx.
      destruct (Nat.eq_dec j k) as [-> | Hne].
      * split; [exact Hsym | congruence].
      * rewrite Hother1 by exact Hne. apply Hfrom. lia.
Qed.

Lemma backward_pass_stages_length k :
  preserves (fun s s' => length (_value s') = length (_value s)) (backward_pass_stages k).
Proof.
  induction k as [|k IH]; simpl.
  - apply preserves_ret. reflexivity.
  - apply preserves_bind; [intros s1 s2 s3 H1 H2; congruence | | intros _; exact IH].
    apply (preserves_weaken (value_changes_at k)); [|apply backward_pass_iter_value].
    intros s s' (Hlen & _). exact Hlen.
Qed.

Lemma backward_pass_init_length s :
  length (_value (backward_pass_init s)) = length (_value s) /\
  _N (backward_pass_init s) = _N s.
Proof.
  unfold backward_pass_init. cbv zeta.
  rewrite (add_bound_constraint_keeps (fun s => length (_value s))) by reflexivity.
  rewrite (add_bound_constraint_keeps _N) by reflexivity.
  simpl. rewrite length_insert. split; reflexivity.
Qed.

(** [backward_pass] starts the recursion from a symmetric matrix when the
    final cost has a symmetric Hessian. *)
Lemma backward_pass_init_symmetric s :
  symmetric_costs s -> symmetric_from (_N s) (backward_pass_init s).
Proof.
  intros (Hlen & Hsym & Hcols & _) j Hj.
  destruct (backward_pass_init_length s) as (_ & HN). rewrite HN in Hj.
  assert (j = _N s) as -> by lia.
  unfold backward_pass_init. cbv zeta.
  rewrite (add_bound_constraint_keeps _value), (add_bound_constraint_keeps _nx)
    by reflexivity.
  cbn [_value _nx with_constraint_to_go with_value].
  rewrite Hlen. replace (S (_N s) - 1)%nat with (_N s) by lia.
  rewrite list_lookup_total_insert_eq by lia. cbn [val_S].
  split; [apply add_diagonal_symmetric; exact Hsym | exact Hcols].
Qed.

End ValueFrame.

(** X17.  On costs whose Hessians Q and R are symmetric at every stage
    (with the dimensions of the problem), when [backward_pass] returns
    without an exception, whatever the number of regularisation retries,
    the value matrix S_i of every stage i <= N equals its transpose
    coefficient by coefficient. *)
Theorem backward_pass_symmetric `{Externals} (fuel : nat) (s s' : IterativeLQR) :
  symmetric_costs s ->
  backward_pass fuel s = Some (inr tt, s') ->
  forall i, (i <= _N s)%nat -> is_symmetric (val_S (_value s' !!! i)).
Proof.
  revert s. induction fuel as [|fuel IH]; intros s Hcosts Hrun i Hi; [discriminate Hrun|].
  simpl in Hrun.
  destruct (backward_pass_init_length s) as (Hlen0 & HN0).
  pose proof (backward_pass_init_symmetric s Hcosts) as Hinit.
  assert (Hc0 : _cost (backward_pass_init s) = _cost s) by reflexivity.
  assert (Hd0 : _dyn (backward_pass_init s) = _dyn s) by reflexivity.
  assert (Hnx0 : _nx (backward_pass_init s) = _nx s) by reflexivity.
  assert (Hnu0 : _nu (backward_pass_init s) = _nu s) by reflexivity.
  destruct Hcosts as (Hlen & HsymN & HcolsN & Hstages).
  destruct (backward_pass_stages (_N s) (backward_pass_init s)) as [[e | []] s1] eqn:Hst.
  - destruct e; try discriminate Hrun.
    pose proof Hst as Hkeep.
    apply (backward_pass_stages_keeps (fun s => (_cost s, _dyn s, _nx s, _nu s, _N s)))
      in Hkeep; try reflexivity.
    unfold keeps in Hkeep. injection Hkeep as Hc Hd Hnx Hnu HN.
    apply backward_pass_stages_length in Hst.
    assert (HN1 : _N s1 = _N s) by congruence.
    assert (Hc1 : _cost s1 = _cost s) by congruence.
    assert (Hnx1 : _nx s1 = _nx s) by congruence.
    apply IH with (i := i) in Hrun; [exact Hrun | |].
    + unfold symmetric_costs.
      change (_value (increase_regularization s1)) with (_value s1).
      change (_N (increase_regularization s1)) with (_N s1).
      change (_cost (increase_regularization s1)) with (_cost s1).
      change (_nx (increase_regularization s1)) with (_nx s1).
      rewrite Hst, Hlen0, HN1, Hc1, Hnx1.
      split; [exact Hlen|]. split; [exact HsymN|]. split; [exact HcolsN|].
      intros j Hj. apply (symmetric_stage_keeps s); [|apply Hstages; exact Hj].
      transitivity (_cost s1, _dyn s1, _nx s1, _nu s1); [reflexivity | congruence].
    + change (_N (increase_regularization s1)) with (_N s1).
      rewrite HN1. exact Hi.
  - injection Hrun as Hfin.
    apply (backward_pass_finish_keeps _value) in Hfin; try reflexivity.
    unfold keeps in Hfin. rewrite Hfin.
    pose proof Hst as HkeepN.
    apply (backward_pass_stages_keeps _N) in HkeepN; try reflexivity.
    unfold keeps in HkeepN.
    assert (HN1 : _N s1 = _N s) by congruence.
    apply backward_pass_stages_symmetric in Hst.
    + apply Hst. rewrite HN1. lia.
    + rewrite ?HN0. lia.
    + rewrite ?Hlen0, ?HN0. exact Hlen.
    + intros j Hj. rewrite ?HN0 in Hj.
      apply (symmetric_stage_keeps s); [reflexivity|].
      apply Hstages. exact Hj.
    + rewrite ?HN0. exact Hinit.
Qed.

Lemma backward_pass_symmetric_witness :
  symmetric_costs solver_coupled /\
  match @backward_pass ext_nan 1 solver_coupled with
  | Some (out, s') =>
      out = inr tt /\
      coef (val_S (_value s' !!! 0%nat)) 0 1 == coef (val_S (_value s' !!! 0%nat)) 1 0
  | None => False
  end.
Proof.
  assert (Hcosts : symmetric_costs solver_coupled).
  { split; [reflexivity|]. split; [intros a b; reflexivity|]. split; [reflexivity|].
    intros i Hi. assert (i = 0%nat) as -> by (simpl in Hi; lia).
    repeat split.
    - intros a b.
      do 3 (destruct a as [|a]; try (do 3 (destruct b as [|b]; try reflexivity))).
    - intros a b.
      do 2 (destruct a as [|a]; try (do 2 (destruct b as [|b]; try reflexivity))). }
  split; [exact Hcosts|].
  assert (Hok : fst <$> @backward_pass ext_nan 1 solver_coupled = Some (inr tt))
    by (vm_compute; reflexivity).
  destruct (@backward_pass ext_nan 1 solver_coupled) as [[out s']|] eqn:Hrun;
    [|discriminate Hok].
  injection Hok as ->. split; [reflexivity|].
  apply (@backward_pass_symmetric ext_nan 1 solver_coupled s' Hcosts Hrun 0%nat).
  simpl; lia.
Defined.

Section Regularization.

Context {ext : Externals}.

(** One attempt of [backward_pass], whatever its outcome, leaves the
    regularisation settings alone. *)
Lemma backward_pass_attempt_options s r s1 :
  backward_pass_stages (_N s) (backward_pass_init s) = (r, s1) ->
  _hxx_reg s1 = _hxx_reg s /\
  _hxx_reg_growth_factor s1 = _hxx_reg_growth_factor s.
Proof.
  intros Hst.
  pose proof (backward_pass_stages_keeps _hxx_reg) as H1.
  pose proof (backward_pass_stages_keeps _hxx_reg_growth_factor) as H2.
  apply H1 in Hst as Ha; try reflexivity.
  apply H2 in Hst as Hb; try reflexivity.
  unfold keeps in Ha, Hb. split; [exact Ha | exact Hb].
Qed.

Lemma backward_pass_reg_le fuel :
  forall s out s', backward_pass fuel s = Some (out, s') ->
    1 <= _hxx_reg_growth_factor s -> _hxx_reg s <= _hxx_reg s'.
Proof.
  induction fuel as [|fuel IH]; intros s out s' Hrun Hg; [discriminate Hrun|].
  simpl in Hrun.
  destruct (backward_pass_stages (_N s) (backward_pass_init s)) as [[e | []] s1] eqn:Hst.
  - destruct (backward_pass_attempt_options _ _ _ Hst) as (Hreg & Hgrow).
    destruct e.
    + apply IH in Hrun.
      * destruct (increase_regularization_monotone s1) as (Hle & _).
        { rewrite Hgrow. exact Hg. }
        rewrite <- Hreg. lra.
      * change (_hxx_reg_growth_factor (increase_regularization s1))
          with (_hxx_reg_growth_factor s1). rewrite Hgrow. exact Hg.
    + injection Hrun as _ <-. rewrite Hreg. apply Qle_refl.
    + injection Hrun as _ <-. rewrite Hreg. apply Qle_refl.
  - destruct (backward_pass_attempt_options _ _ _ Hst) as (Hreg & _).
    injection Hrun as Hfin.
    apply (backward_pass_finish_keeps _hxx_reg) in Hfin; try reflexivity.
    unfold keeps in Hfin. rewrite Hfin, Hreg. apply Qle_refl.
Qed.

End Regularization.

(** X18.  With a growth factor of at least 1, [backward_pass] never
    leaves [_hxx_reg] lower than it found it.  It leaves it unchanged when
    its first attempt does not end in [HessianIndefinite], and strictly
    higher (for a growth factor above 1) when it does. *)
Theorem backward_pass_regularization `{Externals} (fuel : nat) (s s' : IterativeLQR)
    (out : Exn + unit) :
  backward_pass fuel s = Some (out, s') ->
  1 <= _hxx_reg_growth_factor s ->
  let first := fst (backward_pass_stages (_N s) (backward_pass_init s)) in
  _hxx_reg s <= _hxx_reg s' /\
  (first <> inl HessianIndefinite -> _hxx_reg s' = _hxx_reg s) /\
  (first = inl HessianIndefinite -> 1 < _hxx_reg_growth_factor s ->
   _hxx_reg s < _hxx_reg s').
Proof.
  intros Hrun Hg. cbv zeta.
  split; [exact (backward_pass_reg_le fuel s out s' Hrun Hg)|].
  destruct fuel as [|fuel]; [discriminate Hrun|].
  simpl in Hrun.
  destruct (backward_pass_stages (_N s) (backward_pass_init s)) as [[e | []] s1] eqn:Hst.
  - destruct (backward_pass_attempt_options _ _ _ Hst) as (Hreg & Hgrow).
    cbn [fst]. destruct e.
    + split; [intros Hne; contradiction|].
      intros _ Hg1.
      destruct (increase_regularization_monotone s1) as (_ & Hlt).
      { rewrite Hgrow. exact Hg. }
      rewrite Hgrow in Hlt. specialize (Hlt Hg1).
      apply backward_pass_reg_le in Hrun.
      * rewrite <- Hreg. lra.
      * change (_hxx_reg_growth_factor (increase_regularization s1))
          with (_hxx_reg_growth_factor s1). rewrite Hgrow. exact Hg.
    + injection Hrun as _ <-. split; [intros _; exact Hreg | intros Hd; discriminate Hd].
    + injection Hrun as _ <-. split; [intros _; exact Hreg | intros Hd; discriminate Hd].
  - destruct (backward_pass_attempt_options _ _ _ Hst) as (Hreg & _).
    injection Hrun as Hfin.
    apply (backward_pass_finish_keeps _hxx_reg) in Hfin; try reflexivity.
    unfold keeps in Hfin. cbn [fst].
    split; [intros _; congruence | intros Hd; discriminate Hd].
Qed.

Lemma backward_pass_regularization_witness :
  match @backward_pass ext0 2 solver_singular with
  | Some (_, s') => _hxx_reg solver_singular < _hxx_reg s'
  | None => False
  end.
Proof.
  assert (Hsome : match @backward_pass ext0 2 solver_singular with
                  | Some _ => true
                  | None => false
                  end = true) by (vm_compute; reflexivity).
  assert (Hfirst : fst (@backward_pass_stages ext0 (_N solver_singular)
                          (backward_pass_init solver_singular))
                   = inl HessianIndefinite) by (vm_compute; reflexivity).
  destruct (@backward_pass ext0 2 solver_singular) as [[out s']|] eqn:Hrun;
    [|discriminate Hsome].
  destruct (@backward_pass_regularization ext0 2 solver_singular s' out Hrun)
    as (_ & _ & Hlt).
  - vm_compute. discriminate.
  - apply Hlt; [exact Hfirst | vm_compute; reflexivity].
Defined.

(* ================================================================== *)
(** ** Further properties: the initial state *)

Lemma dsum_ext (n : nat) (f g : nat -> dbl) :
  (forall k, (k < n)%nat -> f k = g k) -> dsum n f = dsum n g.
Proof.
  induction n as [|n IH]; intros Hfg; [reflexivity|].
  simpl. rewrite IH by (intros k Hk; apply Hfg; lia).
  rewrite Hfg by lia. reflexivity.
Qed.

Lemma dsum_Fin (n : nat) (f : nat -> Q) :
  dsum n (fun k => Fin (f k)) = Fin (Qsum n f).
Proof. induction n as [|n IH]; [reflexivity|]. simpl. rewrite IH. reflexivity. Qed.

(** The l1 norm of the residual [C*x + h] at a finite [x]. *)
Lemma dlp1_dresidual_finite (C x h : Mat) :
  dlp1 (dresidual C (fin_mat x) h) =
  Fin (Qsum (rows C)
            (fun i => Qabs (Qsum (cols C) (fun k => coef C i k * coef x k 0)
                            + coef h i 0))).
Proof.
  unfold dlp1, dresidual. cbn [drows dcoef fin_mat].
  rewrite <- dsum_Fin. apply dsum_ext. intros i _.
  cbn [dmul]. rewrite dsum_Fin. reflexivity.
Qed.

Lemma cwiseAbs_sum_residual (C x h : Mat) :
  cols x = 1%nat ->
  cwiseAbs_sum (madd (mmul C x) h) ==
  Qsum (rows C)
       (fun i => Qabs (Qsum (cols C) (fun k => coef C i k * coef x k 0) + coef h i 0)).
Proof.
  intros Hx. unfold cwiseAbs_sum. cbn [rows cols coef madd mmul]. rewrite Hx.
  apply Qsum_eq. intros i _. simpl. ring.
Qed.

(** X19.  With a fixed initial state (equal bounds on x_0) what follows
    the stages of [backward_pass] never throws: it sets
    dx_0 = lb(:,0) - x_0, leaves the rows still to be treated in the
    constraint-to-go, and prints the warning `constraints not satisfied'
    -- with the number of those rows -- exactly when there are such rows
    and the l1 norm of their residual C*dx_0 + h exceeds 1e-8. *)
Theorem backward_pass_finish_fixed `{Externals} (s : IterativeLQR) :
  fixed_initial_state s = true ->
  (0 < length (_bp_res s))%nat ->
  exists s',
    backward_pass_finish s = (inr tt, s') /\
    _constraint_to_go s' = _constraint_to_go s /\
    bp_dx (_bp_res s' !!! 0%nat) = fin_mat (initial_displacement s) /\
    (_constraint_to_go s <> [] -> lit_1em8 < cwiseAbs_sum (initial_residual s) ->
     stdout s' = stdout s ++ [WarnNotSatisfied (length (_constraint_to_go s))]) /\
    (_constraint_to_go s = [] \/ cwiseAbs_sum (initial_residual s) <= lit_1em8 ->
     stdout s' = stdout s).
Proof.
  intros Hfix Hlen.
  unfold backward_pass_finish, optimize_initial_state, bind, get, modify.
  rewrite Hfix.
  set (s1 := set_dx _ _ s).
  assert (Hdx : bp_dx (_bp_res s1 !!! 0%nat) = fin_mat (initial_displacement s)).
  { unfold s1, set_dx. cbn [_bp_res with_bp_res].
    destruct (_bp_res s) as [|r l]; [simpl in Hlen; lia|]. reflexivity. }
  change (_constraint_to_go s1) with (_constraint_to_go s).
  change (_nx s1) with (_nx s). change (stdout s1) with (stdout s).
  rewrite Hdx, dlp1_dresidual_finite.
  assert (Hnorm : cwiseAbs_sum (initial_residual s) ==
            Qsum (rows (ctg_C (_nx s) (_constraint_to_go s)))
              (fun i => Qabs (Qsum (cols (ctg_C (_nx s) (_constraint_to_go s)))
                                (fun k => coef (ctg_C (_nx s) (_constraint_to_go s)) i k
                                          * coef (initial_displacement s) k 0)
                              + coef (ctg_h (_constraint_to_go s)) i 0))).
  { apply cwiseAbs_sum_residual. reflexivity. }
  set (nrm := Qsum _ _) in *.
  eexists. split; [reflexivity|].
  unfold ctg_dim.
  destruct (_constraint_to_go s) as [|r0 c0] eqn:Ectg.
  - cbn [length Nat.ltb Nat.leb].
    split; [exact Ectg|]. split; [exact Hdx|].
    split; [intros Hne; contradiction | intros _; reflexivity].
  - assert ((0 <? length (r0 :: c0))%nat = true) as -> by reflexivity.
    unfold dgt. cbn [dlt].
    destruct (Qltb lit_1em8 nrm) eqn:E.
    + apply Qltb_lt in E.
      split; [exact Ectg|]. split; [exact Hdx|].
      split; [intros _ _; reflexivity|].
      intros [Hnil | Hle]; [discriminate Hnil | lra].
    + apply Qltb_ge in E.
      split; [exact Ectg|]. split; [exact Hdx|].
      split; [intros _ Hlt; lra | intros _; reflexivity].
Qed.

Lemma backward_pass_finish_fixed_witness :
  cwiseAbs_sum (initial_residual solver_fixed) == 1 /\
  exists s',
    @backward_pass_finish ext0 solver_fixed = (inr tt, s') /\
    length (_constraint_to_go s') = 2%nat /\
    stdout s' = [WarnNotSatisfied 2].
Proof.
  assert (Hnorm : cwiseAbs_sum (initial_residual solver_fixed) == 1)
    by (vm_compute; reflexivity).
  split; [exact Hnorm|].
  destruct (@backward_pass_finish_fixed ext0 solver_fixed)
    as (s' & Hrun & Hctg & _ & Hwarn & _).
  - vm_compute. reflexivity.
  - simpl; lia.
  - exists s'. split; [exact Hrun|].
    split; [rewrite Hctg; reflexivity|].
    rewrite Hwarn; [reflexivity | discriminate | rewrite Hnorm; reflexivity].
Defined.

Section InitialState.

Context {ext : Externals}.

(** What the loop re-adding the violated rows leaves behind. *)
Lemma readd_violated_spec (Cinf hinf : Mat) (dx : DMat) (s : IterativeLQR) :
  let s' := readd_violated Cinf hinf dx s in
  _constraint_to_go s' =
    map (infeasible_row (_nu s) Cinf hinf)
        (List.filter (still_violated (_constraint_violation_threshold s) Cinf hinf dx)
                     (seq 0 (rows hinf))) /\
  stdout s' = stdout s /\ _bp_res s' = _bp_res s.
Proof.
  cbv zeta. unfold readd_violated.
  set (f := fun s i => _).
  assert (H : forall l s0,
             _nu (fold_left f l s0) = _nu s0 /\
             _constraint_violation_threshold (fold_left f l s0)
               = _constraint_violation_threshold s0 /\
             stdout (fold_left f l s0) = stdout s0 /\
             _bp_res (fold_left f l s0) = _bp_res s0 /\
             _constraint_to_go (fold_left f l s0) =
               _constraint_to_go s0 ++
               map (infeasible_row (_nu s0) Cinf hinf)
                   (List.filter
                      (still_violated (_constraint_violation_threshold s0) Cinf hinf dx) l)).
  { induction l as [|j l IH]; intros s0.
    - simpl. rewrite app_nil_r. repeat split.
    - simpl fold_left. destruct (IH (f s0 j)) as (Hnu & Hthr & Hout & Hbp & Hctg).
      rewrite Hnu, Hthr, Hout, Hbp, Hctg. unfold f. simpl List.filter.
      unfold still_violated at 2, row_residual.
      destruct (dlt _ _); simpl.
      + repeat split.
      + repeat split. unfold ctg_add2, ctg_add3, rows_of. simpl.
        rewrite <- app_assoc. reflexivity. }
  destruct (H (seq 0 (rows hinf)) (with_constraint_to_go ctg_clear s))
    as (_ & _ & Hout & Hbp & Hctg).
  split; [exact Hctg|]. split; [exact Hout | exact Hbp].
Qed.

(** The way in which [optimize_initial_state] returns when the initial
    state is free. *)
Lemma optimize_initial_state_ok (s s' : IterativeLQR) :
  fixed_initial_state s = false ->
  optimize_initial_state s = (inr tt, s') ->
  let C := ctg_C (_nx s) (_constraint_to_go s) in
  let h := ctg_h (_constraint_to_go s) in
  let dx := dhead (initial_state_solution s) (rows (val_s (_value s !!! 0%nat))) in
  (_kkt_decomp_type s = Lu \/ _kkt_decomp_type s = Qr \/ _kkt_decomp_type s = Ldlt) /\
  s' = readd_violated C h dx (set_dx dx (dtail (initial_state_solution s) (rows h)) s).
Proof.
  intros Hfix. unfold optimize_initial_state. intros Hrun. cbv zeta.
  apply bind_ok_inv in Hrun as (sg & s1 & Hg & Hrun).
  apply get_inv in Hg as (Hg1 & Hg2). injection Hg1 as Hg1. subst sg s1.
  rewrite Hfix in Hrun.
  apply bind_ok_inv in Hrun as (u1 & s3 & Hn & Hrun). apply throw_nan_ok in Hn as (-> & _).
  apply bind_ok_inv in Hrun as (u2 & s4 & Hn & Hrun). apply throw_nan_ok in Hn as (-> & _).
  assert (Hsol : forall dx_lam,
            (let* _ := throw_nan dx_lam in
             let* _ := modify (set_dx (dhead dx_lam (rows (val_s (_value s !!! 0%nat))))
                                      (dtail dx_lam
                                             (rows (ctg_h (_constraint_to_go s))))) in
             modify (readd_violated (ctg_C (_nx s) (_constraint_to_go s))
                                    (ctg_h (_constraint_to_go s))
                                    (dhead dx_lam (rows (val_s (_value s !!! 0%nat))))))
              s = (inr tt, s') ->
            s' = readd_violated (ctg_C (_nx s) (_constraint_to_go s))
                                (ctg_h (_constraint_to_go s))
                                (dhead dx_lam (rows (val_s (_value s !!! 0%nat))))
                   (set_dx (dhead dx_lam (rows (val_s (_value s !!! 0%nat))))
                           (dtail dx_lam (rows (ctg_h (_constraint_to_go s)))) s)).
  { intros dx_lam Hk.
    apply bind_ok_inv in Hk as (u3 & s5 & Hn & Hk). apply throw_nan_ok in Hn as (-> & _).
    apply bind_ok_inv in Hk as (u4 & s6 & Hm & Hk). apply modify_inv in Hm as (_ & ->).
    apply modify_inv in Hk as (_ & ->). reflexivity. }
  split.
  { destruct (_kkt_decomp_type s); try discriminate Hrun; auto. }
  unfold initial_state_solution, initial_state_kkt.
  destruct (_kkt_decomp_type s); try discriminate Hrun; apply Hsol; exact Hrun.
Qed.

End InitialState.

(** X20.  With a free initial state, whenever [optimize_initial_state]
    returns, the KKT decomposition is LU, QR or LDLT and dx_0 is the head
    of what it returns: for LU and LDLT the solve of the KKT system of the
    initial state, for QR what the factorisation [x_qr] returns for the
    right-hand side, the matrix of the system never being given to it.
    The constraint-to-go is rebuilt from the rows it held: a row stays --
    with a zero input block -- exactly when its residual at dx_0 is not
    below the constraint-violation threshold in absolute value, a NaN
    residual counting as violated.  No row is added and no warning is
    given. *)
Theorem optimize_initial_state_free `{Externals} (s s' : IterativeLQR) :
  fixed_initial_state s = false ->
  optimize_initial_state s = (inr tt, s') ->
  let C := ctg_C (_nx s) (_constraint_to_go s) in
  let h := ctg_h (_constraint_to_go s) in
  let K := fst (initial_state_kkt s) in
  let k := snd (initial_state_kkt s) in
  exists dx_lam : DMat,
    (_kkt_decomp_type s = Lu /\ dx_lam = kkt_solve Lu K k \/
     _kkt_decomp_type s = Qr /\ dx_lam = x_qr_solve k \/
     _kkt_decomp_type s = Ldlt /\ dx_lam = kkt_solve Ldlt K k) /\
    let dx := dhead dx_lam (rows (val_s (_value s !!! 0%nat))) in
    let violated := still_violated (_constraint_violation_threshold s) C h dx in
    _constraint_to_go s' =
      map (infeasible_row (_nu s) C h)
          (List.filter violated (seq 0 (length (_constraint_to_go s)))) /\
    (length (_constraint_to_go s') <= length (_constraint_to_go s))%nat /\
    stdout s' = stdout s /\
    ((0 < length (_bp_res s))%nat -> bp_dx (_bp_res s' !!! 0%nat) = dx) /\
    (forall i, isnan (row_residual C h dx i) = true -> violated i = true).
Proof.
  intros Hfix Hrun. cbv zeta.
  destruct (optimize_initial_state_ok s s' Hfix Hrun) as (Hty & Hs').
  cbv zeta in Hs'.
  exists (initial_state_solution s).
  split.
  { unfold initial_state_solution.
    destruct (initial_state_kkt s) as [K k]. cbn [fst snd].
    destruct Hty as [Hty | [Hty | Hty]]; rewrite Hty; auto. }
  set (dx := dhead (initial_state_solution s) (rows (val_s (_value s !!! 0%nat)))) in *.
  set (s1 := set_dx dx _ s) in *.
  destruct (readd_violated_spec (ctg_C (_nx s) (_constraint_to_go s))
              (ctg_h (_constraint_to_go s)) dx s1) as (Hctg & Hout & Hbp).
  cbv zeta in Hctg, Hout, Hbp. rewrite <- Hs' in Hctg, Hout, Hbp.
  change (_nu s1) with (_nu s) in Hctg.
  change (_constraint_violation_threshold s1)
    with (_constraint_violation_threshold s) in Hctg.
  assert (Hrows : rows (ctg_h (_constraint_to_go s)) = length (_constraint_to_go s)).
  { unfold ctg_h, col_vec. simpl. apply length_map. }
  rewrite Hrows in Hctg.
  split; [exact Hctg|].
  split.
  { rewrite Hctg, length_map.
    etransitivity; [apply filter_length_le | rewrite length_seq; reflexivity]. }
  split; [exact Hout|].
  split.
  { intros Hlen. rewrite Hbp. unfold s1, set_dx. cbn [_bp_res with_bp_res].
    destruct (_bp_res s) as [|r l]; [simpl in Hlen; lia | reflexivity]. }
  intros i Hnan. unfold still_violated.
  destruct (row_residual _ _ dx i); try discriminate Hnan. reflexivity.
Qed.

Lemma optimize_initial_state_free_witness :
  let r := @optimize_initial_state ext_nan solver_free in
  fst r = inr tt /\
  _constraint_to_go (snd r) = [] /\
  stdout (snd r) = [] /\
  match dcoef (bp_dx (_bp_res (snd r) !!! 0%nat)) 0 0 with
  | Fin dx => dx == - (1)
  | _ => False
  end.
Proof.
  cbv zeta.
  assert (Hfst : fst (@optimize_initial_state ext_nan solver_free) = inr tt)
    by (vm_compute; reflexivity).
  split; [exact Hfst|].
  destruct (@optimize_initial_state ext_nan solver_free) as [out s'] eqn:Hrun.
  cbv beta iota delta [fst snd] in Hfst |- *. subst out.
  destruct (@optimize_initial_state_free ext_nan solver_free s')
    as (dx_lam & Hsol & Hctg & _ & Hout & Hdx & _).
  - vm_compute. reflexivity.
  - exact Hrun.
  - destruct Hsol as [(_ & ->) | [(Hty & _) | (Hty & _)]];
      [|discriminate Hty | discriminate Hty].
    split; [rewrite Hctg; reflexivity|].
    split; [exact Hout|].
    rewrite Hdx by (simpl; lia). vm_compute. reflexivity.
Defined.

(* ================================================================== *)
(** ** Further properties: the earlier solver *)

Lemma legacy_set_costs_rest (costs : list Legacy.CostFunction) (l : list nat)
    (q0 : Legacy.IterativeLQR) :
  legacy_rest
    (fold_left
       (fun q i => match costs !! i with
                   | Some c => Legacy.with_cost
                                 (alter (Legacy.setCost c) i (Legacy._cost q)) q
                   | None => q
                   end) l q0) = legacy_rest q0.
Proof.
  revert q0. induction l as [|i l IH]; intros q0; simpl; [reflexivity|].
  rewrite IH. destruct (costs !! i); reflexivity.
Qed.

(** X21.  [setIntermediateCost] of the earlier solver throws
    [std::invalid_argument] when it is not given exactly N functions.
    Given N functions it returns; the cost of every stage i < N (that the
    array of costs holds) becomes the i-th function given; the final cost
    and everything else the solver holds are as before. *)
Theorem legacy_setIntermediateCost_spec (costs : list Legacy.CostFunction)
    (q : Legacy.IterativeLQR) :
  (length costs <> Legacy._N q ->
   Legacy.setIntermediateCost costs q = inl InvalidArgument) /\
  (length costs = Legacy._N q ->
   exists q',
     Legacy.setIntermediateCost costs q = inr q' /\
     legacy_rest q' = legacy_rest q /\
     length (Legacy._cost q') = length (Legacy._cost q) /\
     (forall i c, costs !! i = Some c -> (i < length (Legacy._cost q))%nat ->
        Legacy._cost q' !! i = Some (Legacy.mk_IntermediateCost (Some c))) /\
     (forall i, (Legacy._N q <= i)%nat -> Legacy._cost q' !! i = Legacy._cost q !! i)).
Proof.
  unfold Legacy.setIntermediateCost. split.
  - intros Hne. apply Nat.eqb_neq in Hne. rewrite Hne. reflexivity.
  - intros Heq. rewrite Heq, Nat.eqb_refl. simpl negb. cbv iota.
    eexists. split; [reflexivity|].
    split; [apply legacy_set_costs_rest|].
    pose proof (legacy_set_costs costs q (Legacy._N q)) as Hset.
    cbv zeta in Hset. destruct (Hset ltac:(lia)) as (Hlen & Hlook).
    split; [exact Hlen|].
    split.
    + intros i c Hc Hi. rewrite Hlook.
      assert (Hlt : (i < Legacy._N q)%nat).
      { rewrite <- Heq. apply lookup_lt_Some in Hc. exact Hc. }
      apply Nat.ltb_lt in Hlt. rewrite Hlt.
      destruct (lookup_lt_is_Some_2 (Legacy._cost q) i Hi) as [c0 Hc0].
      rewrite Hc0, Hc. reflexivity.
    + intros i Hi. rewrite Hlook.
      assert ((i <? Legacy._N q)%nat = false) as -> by (apply Nat.ltb_ge; exact Hi).
      reflexivity.
Qed.

Lemma legacy_forward_pass_column0 (a : Q) (q0 : Legacy.IterativeLQR) (k : nat) :
  let q := fold_left (fun q i => Legacy.forward_pass_iter i a q) (seq 0 k) q0 in
  (forall r, coef (Legacy.xtrj (Legacy._fp_res q)) r 0
             = coef (Legacy.xtrj (Legacy._fp_res q0)) r 0) /\
  rows (Legacy.xtrj (Legacy._fp_res q)) = rows (Legacy.xtrj (Legacy._fp_res q0)) /\
  cols (Legacy.xtrj (Legacy._fp_res q)) = cols (Legacy.xtrj (Legacy._fp_res q0)).
Proof.
  induction k as [|k IH]; [repeat split|].
  rewrite fold_left_seq_S. cbv zeta in IH |- *.
  destruct IH as (Hc & Hr & Hcl).
  set (q := fold_left _ (seq 0 k) q0) in *.
  split; [|split; [exact Hr | exact Hcl]].
  intros r. rewrite <- Hc.
  apply (coef_set_col_ne (Legacy.xtrj (Legacy._fp_res q))). lia.
Qed.

(** X22.  In the earlier solver the initial state given to
    [setInitialState] survives [forward_pass] at any step size:
    afterwards column 0 of [getStateTrajectory] is still x0, and the
    state trajectory has the dimensions it had; [setInitialState] itself
    changes column 0 only. *)
Theorem legacy_initial_state_kept (x0 : Mat) (a : Q) (q : Legacy.IterativeLQR) :
  let q' := Legacy.forward_pass a (Legacy.setInitialState x0 q) in
  (forall r, coef (Legacy.getStateTrajectory q') r 0 = coef x0 r 0) /\
  rows (Legacy.getStateTrajectory q') = rows (Legacy.getStateTrajectory q) /\
  cols (Legacy.getStateTrajectory q') = cols (Legacy.getStateTrajectory q) /\
  (forall r j, j <> 0%nat ->
     coef (Legacy.getStateTrajectory (Legacy.setInitialState x0 q)) r j
     = coef (Legacy.getStateTrajectory q) r j).
Proof.
  cbv zeta. unfold Legacy.forward_pass, Legacy.getStateTrajectory.
  cbn [Legacy._xtrj Legacy.with_trj].
  set (q1 := Legacy.with_fp_res _ (Legacy.setInitialState x0 q)).
  destruct (legacy_forward_pass_column0 a q1 (Legacy._N q1)) as (Hc & Hr & Hcl).
  split; [intros r; rewrite Hc; apply coef_set_col_eq|].
  split; [rewrite Hr; reflexivity|].
  split; [rewrite Hcl; reflexivity|].
  intros r j Hj. apply coef_set_col_ne. exact Hj.
Qed.

(** X23.  In the earlier solver let the defect of stage i have been
    computed by [computeDefect] at the current trajectory, let the
    candidate agree with the current state at stage i, and let the scaled
    feedforward step alpha*l_i vanish.  Then [forward_pass_iter] writes
    the integrated state f(x_i, u_i) as the candidate for stage i + 1: the
    shooting gap is closed in full at any step size alpha. *)
Theorem legacy_forward_pass_closes_gap (q : Legacy.IterativeLQR) (i : nat) (a : Q)
    (dyn0 : Legacy.Dynamics) (fd : Legacy.DynFunction) :
  Legacy.f dyn0 = Some fd ->
  Legacy.computeDefect (Legacy.state q i) (Legacy.input q i) (Legacy.state q (i + 1)) dyn0
    = Some (Legacy._dyn q !!! i) ->
  (forall r, coef (Legacy.xtrj (Legacy._fp_res q)) r i == coef (Legacy._xtrj q) r i) ->
  (forall r, a * coef (Legacy.du_ff (Legacy._bp_res q !!! i)) r 0 == 0) ->
  forall r,
    coef (Legacy.xtrj (Legacy._fp_res (Legacy.forward_pass_iter i a q))) r (i + 1)
    == coef (Legacy.call fd (Legacy.state q i) (Legacy.input q i)) r 0.
Proof.
  intros Hf Hdef Hdx Hl r.
  unfold Legacy.computeDefect, Legacy.integrate in Hdef. rewrite Hf in Hdef.
  injection Hdef as Hdef.
  unfold Legacy.forward_pass_iter.
  cbn [Legacy.xtrj Legacy._fp_res Legacy.with_fp_res].
  rewrite coef_set_col_eq. rewrite <- Hdef.
  cbn [coef madd mmul msub mscale col rows cols Legacy.A Legacy.B Legacy.d Legacy.state].
  rewrite Qsum_zero.
  2:{ intros k _. rewrite (Hdx k). ring. }
  rewrite Qsum_zero.
  2:{ intros k _. rewrite (Hl k). ring. }
  ring.
Qed.

Lemma legacy_forward_pass_closes_gap_witness :
  coef (Legacy._xtrj legacy_solver_gap) 0 1 == 0 /\
  coef (Legacy.xtrj (Legacy._fp_res
          (Legacy.forward_pass_iter 0 (1 # 2) legacy_solver_gap))) 0 1 == 3.
Proof.
  split; [vm_compute; reflexivity|].
  rewrite (legacy_forward_pass_closes_gap legacy_solver_gap 0 (1 # 2)
             (Legacy.mk_Dynamics (Some integrator) (setZero 1 1) (setZero 1 1)
                                 (setZero 1 1))
             integrator).
  - vm_compute. reflexivity.
  - reflexivity.
  - reflexivity.
  - intros r. reflexivity.
  - intros r. vm_compute. reflexivity.
Defined.

(* ================================================================== *)
(** ** Further properties: symmetry of the stage Hessians *)

(** X24.  At a stage whose cost Hessians Q and R are symmetric and whose
    successor value matrix S_{i+1} is symmetric, with as many columns as
    A_i and B_i have rows, the regularised Hessians Hxx and Huu that
    [backward_pass_iter] forms are symmetric; so the KKT matrix of the
    stage is symmetric (X14) before any factorisation sees it. *)
Theorem stage_hessians_symmetric `{Externals} (i : nat) (s s1 : IterativeLQR)
    (k : KktStage) :
  solve_stage i s = (inr k, s1) ->
  let cost := _cost s !!! i in
  let dyn := _dyn s !!! i in
  let Snext := val_S (_value s !!! (i + 1)%nat) in
  is_symmetric (cost_Q cost) -> is_symmetric (cost_R cost) -> is_symmetric Snext ->
  rows (dyn_A dyn) = cols Snext -> rows (dyn_B dyn) = cols Snext ->
  is_symmetric (ks_Hxx k) /\ is_symmetric (ks_Huu k).
Proof.
  intros Hrun. cbv zeta. intros HQ HR HS HA HB.
  destruct (solve_stage_hessians i s s1 k Hrun) as (Hxx & Huu & _).
  cbv zeta in Hxx, Huu. rewrite Hxx, Huu.
  split; apply add_diagonal_symmetric, madd_symmetric; try assumption.
  - apply congruence_symmetric; assumption.
  - apply congruence_symmetric_left; assumption.
Qed.

Lemma stage_hessians_symmetric_witness :
  match fst (@solve_stage ext0 0 solver_lqr) with
  | inr k => coef (ks_Huu k) 0 0 == 1 /\
             is_symmetric (ks_Hxx k) /\ is_symmetric (ks_Huu k)
  | inl _ => False
  end.
Proof.
  assert (Hok : is_ok (fst (@solve_stage ext0 0 solver_lqr)) = true)
    by (vm_compute; reflexivity).
  assert (Huu : match fst (@solve_stage ext0 0 solver_lqr) with
                | inr k => coef (ks_Huu k) 0 0 == 1
                | inl _ => True
                end) by (vm_compute; reflexivity).
  destruct (@solve_stage ext0 0 solver_lqr) as [[e | k] s1] eqn:Hrun;
    [discriminate Hok|].
  cbv beta iota delta [fst] in Huu |- *.
  split; [exact Huu|].
  apply (@stage_hessians_symmetric ext0 0 solver_lqr s1 k Hrun).
  - intros a b. reflexivity.
  - intros [|a] [|b]; try reflexivity.
    + destruct b; reflexivity.
    + destruct a; reflexivity.
    + destruct a; destruct b; reflexivity.
  - intros a b. reflexivity.
  - reflexivity.
  - reflexivity.
Defined.

(* ================================================================== *)
(** ** Further properties: the merit of a trial *)

Lemma compute_defect_nonneg (xtrj utrj : Mat) (s : IterativeLQR) :
  (0 < _N s)%nat -> 0 <= fst (compute_defect xtrj utrj s).
Proof.
  intros HN. rewrite compute_defect_sum.
  apply Qdiv_nonneg; [|apply horizon_pos; exact HN].
  apply Qsum_nonneg. intros i _. apply cwiseAbs_sum_nonneg.
Qed.

Lemma compute_constr_nonneg (xtrj utrj : Mat) (s : IterativeLQR) :
  (0 < _N s)%nat -> 0 <= fst (compute_constr xtrj utrj s).
Proof.
  intros HN. rewrite compute_constr_sum.
  apply Qdiv_nonneg; [|apply horizon_pos; exact HN].
  apply Qsum_nonneg. intros i _.
  destruct (con_is_valid _); [apply cwiseAbs_sum_nonneg | apply Qle_refl].
Qed.

(** The scores that [forward_pass] stores are never negative. *)
Lemma forward_pass_scores_nonneg (s : IterativeLQR) :
  (0 < _N s)%nat ->
  0 <= defect_norm (_fp_res (forward_pass_scores s)) /\
  0 <= constraint_violation (_fp_res (forward_pass_scores s)).
Proof.
  intros HN. unfold forward_pass_scores.
  pose proof (compute_constr_nonneg (fp_xtrj (_fp_res s)) (fp_utrj (_fp_res s)) s HN)
    as Hcv.
  pose proof (compute_constr_frame (fp_xtrj (_fp_res s)) (fp_utrj (_fp_res s)) s)
    as (_ & (HN2 & _)).
  destruct (compute_constr (fp_xtrj (_fp_res s)) (fp_utrj (_fp_res s)) s) as [cv s2].
  simpl in Hcv, HN2.
  pose proof (compute_defect_nonneg (fp_xtrj (_fp_res s2)) (fp_utrj (_fp_res s2)) s2
                ltac:(rewrite HN2; exact HN)) as Hdn.
  destruct (compute_defect (fp_xtrj (_fp_res s2)) (fp_utrj (_fp_res s2)) s2) as [dn s3].
  simpl in Hdn |- *. split; assumption.
Qed.

Lemma forward_pass_nonneg (a : Q) (s : IterativeLQR) :
  (0 < _N s)%nat ->
  0 <= defect_norm (_fp_res (forward_pass a s)) /\
  0 <= constraint_violation (_fp_res (forward_pass a s)).
Proof.
  intros HN. unfold forward_pass. apply forward_pass_scores_nonneg.
  pose proof (forward_pass_stages a (forward_pass_start a s)
                (_N (forward_pass_start a s))) as Hst.
  cbv zeta in Hst. destruct Hst as ((HN1 & _) & _).
  rewrite HN1. exact HN.
Qed.

(** [line_search] hands the weights of [compute_merit_weights] to its loop,
    over the same horizon. *)
Lemma line_search_begin_weights (iter : nat) (s : IterativeLQR) :
  let '(mu_f, mu_c, _, _, s1) := line_search_begin iter s in
  mu_f = fst (fst (compute_merit_weights s)) /\
  mu_c = snd (fst (compute_merit_weights s)) /\
  _N s1 = _N s.
Proof.
  unfold line_search_begin.
  assert (HN : _N (snd (compute_merit_weights s)) = _N s).
  { unfold compute_merit_weights.
    destruct (fold_left _ (seq 0 (_N s)) (0, 0, _lam_x s, _lam_g s))
      as [[[mx mg] lx] lg]. reflexivity. }
  destruct (compute_merit_weights s) as [[mu_f mu_c] s1]. cbn [fst snd] in *.
  destruct (Nat.eqb iter 0); cbn; repeat split; exact HN.
Qed.

(** X25.  During [line_search] over a horizon of at least one stage, every
    trial step, whatever its step size, stores a defect norm and a
    constraint violation that are not negative and a merit value that is
    at least the cost of the trial trajectory; the merit equals the cost
    when both norms are zero. *)
Theorem trial_merit_bounds_cost (iter : nat) (s : IterativeLQR) (a : Q) :
  (0 < _N s)%nat ->
  let '(mu_f, mu_c, merit0, merit_der0, s1) := line_search_begin iter s in
  let fp := _fp_res (armijo_trial mu_f mu_c merit0 merit_der0 a s1) in
  0 <= defect_norm fp /\ 0 <= constraint_violation fp /\
  cost fp <= merit fp /\
  (defect_norm fp == 0 -> constraint_violation fp == 0 -> merit fp == cost fp).
Proof.
  intros HN.
  pose proof (line_search_begin_weights iter s) as Hw.
  destruct (compute_merit_weights_maxima s) as (mx & mg & Hb & Hmx & Hmg & _).
  destruct (line_search_begin iter s) as [[[[mu_f mu_c] merit0] merit_der0] s1].
  destruct Hw as (Hf & Hc & HN1). rewrite Hb in Hf, Hc. cbn [fst snd] in Hf, Hc.
  assert (Hmf : 0 <= mu_f) by (rewrite Hf; lra).
  assert (Hmc : 0 <= mu_c) by (rewrite Hc; lra).
  cbv zeta.
  destruct (forward_pass_nonneg a s1 ltac:(rewrite HN1; exact HN)) as (Hd & Hv).
  rewrite armijo_trial_merit.
  change (defect_norm (_fp_res (armijo_trial mu_f mu_c merit0 merit_der0 a s1)))
    with (defect_norm (_fp_res (forward_pass a s1))).
  change (constraint_violation (_fp_res (armijo_trial mu_f mu_c merit0 merit_der0 a s1)))
    with (constraint_violation (_fp_res (forward_pass a s1))).
  change (cost (_fp_res (armijo_trial mu_f mu_c merit0 merit_der0 a s1)))
    with (cost (_fp_res (forward_pass a s1))).
  generalize dependent (forward_pass a s1). intros s2 Hd Hv.
  unfold compute_merit_value.
  pose proof (Qmult_le_0_compat _ _ Hmf Hd) as H1.
  pose proof (Qmult_le_0_compat _ _ Hmc Hv) as H2.
  split; [exact Hd|]. split; [exact Hv|]. split; [lra|].
  intros E1 E2. rewrite E1, E2. ring.
Qed.

Lemma trial_merit_bounds_cost_witness :
  let '(mu_f, mu_c, merit0, merit_der0, s1) := line_search_begin 0 solver_lqr_solved in
  let fp := _fp_res (armijo_trial mu_f mu_c merit0 merit_der0 1 s1) in
  0 <= defect_norm fp /\ 0 <= constraint_violation fp /\
  cost fp <= merit fp /\
  (defect_norm fp == 0 -> constraint_violation fp == 0 -> merit fp == cost fp).
Proof.
  apply (trial_merit_bounds_cost 0 solver_lqr_solved 1).
  vm_compute. lia.
Defined.

(* ================================================================== *)
(** ** Further properties: the sign of the merit slope *)

(** As long as the member [lz] holds zeros -- the backward pass never
    writes it -- the slope that [compute_merit_slope] returns for weights
    and norms that are not negative is not positive. *)
Lemma compute_merit_slope_nonpositive (mu_f mu_c dn cv : Q) (s : IterativeLQR) :
  (forall i r, (i < _N s)%nat -> coef (bp_lz (_bp_res s !!! i)) r 0 == 0) ->
  0 <= mu_f -> 0 <= mu_c -> 0 <= dn -> 0 <= cv ->
  compute_merit_slope mu_f mu_c dn cv s <= 0.
Proof.
  intros Hlz Hmf Hmc Hdn Hcv. unfold compute_merit_slope. cbv zeta.
  rewrite Qsum_zero.
  - pose proof (Qmult_le_0_compat _ _ Hmf Hdn) as H1.
    pose proof (Qmult_le_0_compat _ _ Hmc Hcv) as H2. lra.
  - intros i Hi. unfold dot. apply Qsum_zero. intros r _.
    rewrite (Hlz i r Hi). ring.
Qed.
